(** * Transfer engine of the FTP/SFTP client: speed limits, sessions, queue

    Shallow embedding of the classes
      - [SpeedLimiter] and [SpeedLimitManager] (speedLimiter.js),
      - [ConnectionManager] (connectionManager.js),
      - [TransferQueue] (renderer),
      - the handlers of the main process and the settings and permissions
        dialogs of the renderer that drive them, [compareSyncFiles],
        [ActivityLogger] (renderer) and [BookmarksManager]
        (bookmarksManager.js),
    and the properties of the transfer engine that hold on them.

    JavaScript numbers are modelled as rationals extended with [Infinity],
    [-Infinity] and [NaN]; the sign of zero is abstracted.  Where the code
    branches on the result of an arithmetic expression, or rounds it to an
    integer (the budget tests of the two throttles with the waits they
    compute, the percent of a progress report), the expression is computed
    as the code computes it, every operation rounded to the nearest
    binary64 number ([JS.round64]).
    Values that are only stored or reported (the speed of a report, the
    chunk size, the conversions of the settings dialog) are exact.  Byte
    counts and clock readings are integers; [Date.now()] readings are
    supplied by the caller of each operation. *)

From Stdlib Require Import ZArith QArith Qround Qpower Lia Lqa Ascii.
From stdpp Require Import base option list sorting gmap strings.

Local Open Scope Z_scope.

(** ** JavaScript numbers *)

Module JS.

Inductive num : Type :=
  | NaN
  | PInf
  | NInf
  | Fin (q : Q).

Definition of_Z (z : Z) : num := Fin (inject_Z z).

Definition is_zero (q : Q) : bool := Qeq_bool q 0.
Definition is_pos (q : Q) : bool := negb (Qle_bool q 0).

(** Truthiness of a number: [0] and [NaN] are falsy. *)
Definition truthy (x : num) : bool :=
  match x with
  | NaN => false
  | Fin q => negb (is_zero q)
  | PInf | NInf => true
  end.

(** [a || b] on numbers. *)
Definition or (a b : num) : num := if truthy a then a else b.

(** [v || Infinity] where [v] may be [undefined] (a missing property). *)
Definition or_infinity (v : option num) : num :=
  match v with
  | Some x => or x PInf
  | None => PInf
  end.

Definition is_finite (x : num) : bool :=
  match x with Fin _ => true | _ => false end.

Definition neg (a : num) : num :=
  match a with
  | NaN => NaN
  | PInf => NInf
  | NInf => PInf
  | Fin q => Fin (- q)
  end.

Definition add (a b : num) : num :=
  match a, b with
  | NaN, _ | _, NaN => NaN
  | PInf, NInf | NInf, PInf => NaN
  | PInf, _ | _, PInf => PInf
  | NInf, _ | _, NInf => NInf
  | Fin p, Fin q => Fin (p + q)
  end.

Definition sub (a b : num) : num := add a (neg b).

(** Sign of an infinity scaled by the finite factor [q]. *)
Definition scale_inf (positive : bool) (q : Q) : num :=
  if is_zero q then NaN
  else if Bool.eqb positive (is_pos q) then PInf else NInf.

Definition mul (a b : num) : num :=
  match a, b with
  | NaN, _ | _, NaN => NaN
  | PInf, PInf | NInf, NInf => PInf
  | PInf, NInf | NInf, PInf => NInf
  | PInf, Fin q | Fin q, PInf => scale_inf true q
  | NInf, Fin q | Fin q, NInf => scale_inf false q
  | Fin p, Fin q => Fin (p * q)
  end.

Definition div (a b : num) : num :=
  match a, b with
  | NaN, _ | _, NaN => NaN
  | (PInf | NInf), (PInf | NInf) => NaN
  | Fin _, (PInf | NInf) => Fin 0
  | PInf, Fin q => if is_zero q then PInf else scale_inf true q
  | NInf, Fin q => if is_zero q then NInf else scale_inf false q
  | Fin p, Fin q =>
      if is_zero q then
        (if is_zero p then NaN else if is_pos p then PInf else NInf)
      else Fin (p / q)
  end.

(** [a <= b]; every comparison with [NaN] is false. *)
Definition le (a b : num) : bool :=
  match a, b with
  | NaN, _ | _, NaN => false
  | NInf, _ | _, PInf => true
  | PInf, _ | _, NInf => false
  | Fin p, Fin q => Qle_bool p q
  end.

(** [a > b]. *)
Definition gt (a b : num) : bool :=
  match a, b with
  | NaN, _ | _, NaN => false
  | _, PInf | NInf, _ => false
  | PInf, _ | _, NInf => true
  | Fin p, Fin q => negb (Qle_bool p q)
  end.

(** [Math.min(a, b)]. *)
Definition min (a b : num) : num :=
  match a, b with
  | NaN, _ | _, NaN => NaN
  | NInf, _ | _, NInf => NInf
  | PInf, y => y
  | x, PInf => x
  | Fin p, Fin q => if Qle_bool p q then Fin p else Fin q
  end.

(** [Math.round(a)]: the nearest integer, halves rounded up. *)
Definition round (a : num) : num :=
  match a with
  | Fin q => of_Z (Qfloor (q + (1 # 2)))
  | _ => a
  end.

(** Numeric equality [a === b] of two numbers. *)
Definition eqb (a b : num) : bool :=
  match a, b with
  | PInf, PInf | NInf, NInf => true
  | Fin p, Fin q => Qeq_bool p q
  | _, _ => false
  end.

(** *** Rounding to binary64 *)

(** [floor (log2 a)] of a positive rational. *)
Definition ilog2 (a : Q) : Z :=
  let k := Z.log2 (Qnum a) - Z.log2 (Zpos (Qden a)) in
  if Qle_bool (2 ^ k) a then k else k - 1.

(** The exponent of the unit in the last place of the binary64 numbers
    around [a > 0]: 53 significant bits, and no exponent below that of the
    subnormal numbers. *)
Definition ulpExp (a : Q) : Z := Z.max (ilog2 a - 52) (-1074).

(** The nearest integer, a tie going to the even one. *)
Definition roundHalfEven (x : Q) : Z :=
  let f := Qfloor x in
  match Qcompare (x - inject_Z f) (1 # 2) with
  | Lt => f
  | Gt => f + 1
  | Eq => if Z.even f then f else f + 1
  end.

(** The multiple of the unit in the last place nearest to [a > 0]. *)
Definition nearest (a : Q) : Q :=
  (inject_Z (roundHalfEven (a / 2 ^ ulpExp a)) * 2 ^ ulpExp a)%Q.

(** The binary64 number an exact result is rounded to (round to nearest,
    ties to even); a result that rounds to [2 ^ 1024] or beyond
    overflows to an infinity. *)
Definition round64 (q : Q) : num :=
  match Qcompare q 0 with
  | Eq => Fin 0
  | Gt => if Qle_bool (2 ^ 1024) (nearest q) then PInf else Fin (nearest q)
  | Lt => if Qle_bool (2 ^ 1024) (nearest (- q)) then NInf
          else Fin (- nearest (- q))
  end.

Definition rounded (x : num) : num :=
  match x with
  | Fin q => round64 q
  | _ => x
  end.

(** [a * b], [a / b] and [a - b] as the machine computes them. *)
Definition mul64 (a b : num) : num := rounded (mul a b).
Definition div64 (a b : num) : num := rounded (div a b).
Definition sub64 (a b : num) : num := rounded (sub a b).

End JS.

(** ** speedLimiter.js *)

Module SpeedLimiter.

Record t : Type := mk {
  maxBytesPerSecond : JS.num;
  chunkSize : JS.num;
  startTime : Z;
  totalBytes : Z;
  lastCheck : Z
}.

(** [constructor(options = {})]; [now1] and [now2] are the two clock
    readings, a missing option is [None]. *)
Definition new (optMax optChunk : option JS.num) (now1 now2 : Z) : t :=
  {| maxBytesPerSecond := JS.or_infinity optMax;
     chunkSize := match optChunk with
                  | Some c => JS.or c (JS.of_Z 16384)
                  | None => JS.of_Z 16384
                  end;
     startTime := now1;
     totalBytes := 0;
     lastCheck := now2 |}.

(** When the chunk is pushed downstream. *)
Inductive emission : Type :=
  | Immediately
  | After (waitTimeMs : JS.num).

Definition add_bytes (len : Z) (s : t) : t :=
  {| maxBytesPerSecond := maxBytesPerSecond s;
     chunkSize := chunkSize s;
     startTime := startTime s;
     totalBytes := totalBytes s + len;
     lastCheck := lastCheck s |}.

Definition elapsed (now : Z) (s : t) : JS.num :=
  JS.div64 (JS.of_Z (now - startTime s)) (JS.of_Z 1000).

Definition expectedBytes (now : Z) (s : t) : JS.num :=
  JS.mul64 (elapsed now s) (maxBytesPerSecond s).

(** [_transform(chunk, encoding, callback)] for a chunk of [len] bytes with
    the clock reading [now]: how the chunk is emitted and the limiter after
    the emission. *)
Definition _transform (len : Z) (now : Z) (s : t) : emission * t :=
  match maxBytesPerSecond s with
  | JS.PInf => (Immediately, s)
  | _ =>
      let expected := expectedBytes now s in
      if JS.le (JS.of_Z (totalBytes s + len)) expected then
        (Immediately, add_bytes len s)
      else
        let excessBytes := JS.sub64 (JS.of_Z (totalBytes s + len)) expected in
        let waitTime :=
          JS.mul64 (JS.div64 excessBytes (maxBytesPerSecond s))
            (JS.of_Z 1000) in
        (After waitTime, add_bytes len s)
  end.

End SpeedLimiter.

Module SpeedLimitManager.

(** [limits]: the [Map] from connection id to an object keyed by direction;
    [globalLimits] is [undefined] until the first [setGlobalLimit]. *)
Record t : Type := mk {
  limits : gmap string (gmap string JS.num);
  globalLimits : option (gmap string JS.num)
}.

Definition new : t := {| limits := ∅; globalLimits := None |}.

Definition setLimit (connectionId type : string) (bytesPerSecond : JS.num)
    (m : t) : t :=
  let limits1 :=
    match limits m !! connectionId with
    | None => <[connectionId := ∅]> (limits m)
    | Some _ => limits m
    end in
  {| limits := alter (λ o, <[type := bytesPerSecond]> o) connectionId limits1;
     globalLimits := globalLimits m |}.

Definition getLimit (connectionId type : string) (m : t) : JS.num :=
  match limits m !! connectionId with
  | None => JS.PInf
  | Some connectionLimits => JS.or_infinity (connectionLimits !! type)
  end.

Definition removeConnection (connectionId : string) (m : t) : t :=
  {| limits := delete connectionId (limits m);
     globalLimits := globalLimits m |}.

Definition setGlobalLimit (type : string) (bytesPerSecond : JS.num)
    (m : t) : t :=
  {| limits := limits m;
     globalLimits :=
       Some (<[type := bytesPerSecond]> (default ∅ (globalLimits m))) |}.

(** [(this.globalLimits && this.globalLimits[type]) || Infinity] *)
Definition globalLimit (type : string) (m : t) : JS.num :=
  JS.or_infinity (globalLimits m ≫= (λ o, o !! type)).

Definition getEffectiveLimit (connectionId type : string) (m : t) : JS.num :=
  let connectionLimit := getLimit connectionId type m in
  let globalLimit := globalLimit type m in
  JS.min connectionLimit globalLimit.

(** The value last stored for a connection and direction, if any. *)
Definition storedCap (connectionId type : string) (m : t) : option JS.num :=
  limits m !! connectionId ≫= (λ o, o !! type).

Definition storedGlobalCap (type : string) (m : t) : option JS.num :=
  globalLimits m ≫= (λ o, o !! type).

End SpeedLimitManager.

(** ** connectionManager.js *)

Module ConnectionManager.

(** A call either returns or throws [new Error(message)]. *)
Inductive result (A : Type) : Type :=
  | Ok (a : A)
  | Throw (message : string).
Arguments Ok {A} a.
Arguments Throw {A} message.

(** The message of the error raised for an id that is not registered. *)
Definition NotFound : string := "Connection not found".

Inductive connType : Type := ftp | sftp.

Record Config : Type := mkConfig {
  protocol : string;
  host : string;
  username : string;
  preserveTimestamps : bool
}.

(** A registry entry; the client handles of the transport are external. *)
Record Connection : Type := mkConnection {
  id : string;
  type : connType;
  config : Config
}.

Record t : Type := mk {
  connections : gmap string Connection;
  speedLimitManager : SpeedLimitManager.t
}.

Definition new : t :=
  {| connections := ∅; speedLimitManager := SpeedLimitManager.new |}.

(** [connect(config)]: [connectionId] is the fresh uuid; [transport] is
    [None] when the handshake succeeds, and otherwise the message of the
    error of [client.access] (FTP) or the message the promise is rejected
    with (SFTP). *)
Definition connect (connectionId : string) (cfg : Config)
    (transport : option string) (m : t) : result string * t :=
  let register ty :=
    {| connections :=
         <[connectionId :=
             {| id := connectionId; type := ty; config := cfg |}]>
           (connections m);
       speedLimitManager := speedLimitManager m |} in
  if bool_decide (protocol cfg = "ftp" ∨ protocol cfg = "ftps") then
    match transport with
    | None => (Ok connectionId, register ftp)
    | Some msg => (Throw ("FTP connection failed: " +:+ msg), m)
    end
  else if bool_decide (protocol cfg = "sftp") then
    match transport with
    | None => (Ok connectionId, register sftp)
    | Some msg => (Throw msg, m)
    end
  else (Throw ("Unsupported protocol: " +:+ protocol cfg), m).

Definition disconnect (connectionId : string) (m : t) : result t :=
  match connections m !! connectionId with
  | None => Throw NotFound
  | Some _ =>
      Ok {| connections := delete connectionId (connections m);
            speedLimitManager := speedLimitManager m |}
  end.

(** [listDirectory]: [reply] is what the transport answers. *)
Definition listDirectory {A} (connectionId : string) (reply : result A)
    (m : t) : result A :=
  match connections m !! connectionId with
  | None => Throw NotFound
  | Some _ => reply
  end.

(** In the operations below [transport] is the error message of the
    underlying client call, [None] when it succeeds. *)
Definition renameFile (connectionId : string) (transport : option string)
    (m : t) : result unit :=
  match connections m !! connectionId with
  | None => Throw NotFound
  | Some c =>
      match type c with
      | sftp =>
          match transport with
          | Some msg => Throw ("Rename failed: " +:+ msg)
          | None => Ok ()
          end
      | ftp => Throw "Rename not supported for FTP connections"
      end
  end.

Definition deleteFile (connectionId : string) (transport : option string)
    (m : t) : result unit :=
  match connections m !! connectionId with
  | None => Throw NotFound
  | Some c =>
      match type c, transport with
      | sftp, Some msg => Throw ("Delete failed: " +:+ msg)
      | ftp, Some msg => Throw msg
      | _, None => Ok ()
      end
  end.

Definition getFileStats {A} (connectionId : string) (reply : A + string)
    (m : t) : result A :=
  match connections m !! connectionId with
  | None => Throw NotFound
  | Some c =>
      match type c with
      | sftp =>
          match reply with
          | inr msg => Throw ("Failed to get file stats: " +:+ msg)
          | inl stats => Ok stats
          end
      | ftp => Throw "File stats not available for FTP connections"
      end
  end.

Definition chmod (connectionId : string) (transport : option string)
    (m : t) : result unit :=
  match connections m !! connectionId with
  | None => Throw NotFound
  | Some c =>
      match type c with
      | sftp =>
          match transport with
          | Some msg => Throw ("Failed to change permissions: " +:+ msg)
          | None => Ok ()
          end
      | ftp => Throw "Chmod not supported for FTP connections"
      end
  end.

(** [createDirectory]: [mkdirs] stands for the walk over the path segments
    ([stat] then [mkdir] on SFTP, [ensureDir] on FTP). *)
Definition createDirectory (connectionId : string)
    (mkdirs : Connection → result unit) (m : t) : result unit :=
  match connections m !! connectionId with
  | None => Throw NotFound
  | Some c => mkdirs c
  end.

Definition setSpeedLimit (connectionId type : string)
    (bytesPerSecond : JS.num) (m : t) : t :=
  {| connections := connections m;
     speedLimitManager :=
       SpeedLimitManager.setLimit connectionId type bytesPerSecond
         (speedLimitManager m) |}.

Definition setGlobalSpeedLimit (type : string) (bytesPerSecond : JS.num)
    (m : t) : t :=
  {| connections := connections m;
     speedLimitManager :=
       SpeedLimitManager.setGlobalLimit type bytesPerSecond
         (speedLimitManager m) |}.

Record SpeedLimits : Type := mkSpeedLimits {
  upload : JS.num;
  download : JS.num;
  globalUpload : JS.num;
  globalDownload : JS.num
}.

Definition getSpeedLimits (connectionId : string) (m : t) : SpeedLimits :=
  let slm := speedLimitManager m in
  {| upload := SpeedLimitManager.getLimit connectionId "upload" slm;
     download := SpeedLimitManager.getLimit connectionId "download" slm;
     globalUpload :=
       JS.or_infinity
         (SpeedLimitManager.globalLimits slm ≫= (λ o, o !! "upload"));
     globalDownload :=
       JS.or_infinity
         (SpeedLimitManager.globalLimits slm ≫= (λ o, o !! "download")) |}.

(** *** The [step] callback of [fastGet] / [fastPut] *)

(** The variables the [step] closure captures and updates. *)
Record StepState : Type := mkStepState {
  lastTime : Z;
  lastTransferred : Z;
  startTime : Z;
  totalTransferred : Z
}.

(** The object handed to [progressCallback]; [speedLimit] is [null]
    ([None]) when no cap applies. *)
Record Progress : Type := mkProgress {
  percent : JS.num;
  transferred : Z;
  total : JS.num;
  speed : JS.num;
  speedLimit : option JS.num
}.

(** One invocation of [step] by the SFTP library. [now1] is the clock read
    by the throttle, [now2] the clock read for the progress report. *)
Record Chunk : Type := mkChunk {
  total_transferred : Z;
  chunk_total : Z;
  now1 : Z;
  now2 : Z
}.

(** What one [step] invocation does: return a promise that resolves after
    [delayMs] (no report), call [progressCallback], or neither. *)
Inductive StepResult : Type :=
  | Throttled (delayMs : JS.num)
  | Reported (p : Progress)
  | Silent.

Definition chunkSizeFor (limit : JS.num) : JS.num :=
  match limit with
  | JS.PInf => JS.of_Z 65536
  | _ => JS.min (JS.of_Z 65536) (JS.div limit (JS.of_Z 10))
  end.

(** The speed limiting logic of [step]: the delay of the promise it
    returns when the transfer is ahead of its budget. *)
Definition throttleDelay (limit : JS.num) (startTime : Z) (c : Chunk)
    : option JS.num :=
  match limit with
  | JS.PInf => None
  | _ =>
      let elapsed :=
        JS.div64 (JS.of_Z (now1 c - startTime)) (JS.of_Z 1000) in
      let expectedBytes := JS.mul64 elapsed limit in
      if JS.gt (JS.of_Z (total_transferred c)) expectedBytes then
        let excessBytes :=
          JS.sub64 (JS.of_Z (total_transferred c)) expectedBytes in
        Some (JS.mul64 (JS.div64 excessBytes limit) (JS.of_Z 1000))
      else None
  end.

(** [Math.round((total_transferred / total) * 100)] *)
Definition percentOf (c : Chunk) : JS.num :=
  JS.round (JS.mul64 (JS.div64 (JS.of_Z (total_transferred c))
                               (JS.of_Z (chunk_total c)))
                     (JS.of_Z 100)).

(** [speedLimit === Infinity ? null : speedLimit] *)
Definition appliedCap (limit : JS.num) : option JS.num :=
  match limit with
  | JS.PInf => None
  | _ => Some limit
  end.

Definition instantSpeed (c : Chunk) (s : StepState) : JS.num :=
  let timeDiff := JS.div (JS.of_Z (now2 c - lastTime s)) (JS.of_Z 1000) in
  let bytesDiff := JS.of_Z (total_transferred c - lastTransferred s) in
  if JS.gt timeDiff (JS.of_Z 0) then JS.div bytesDiff timeDiff
  else JS.of_Z 0.

(** [step(total_transferred, chunk, total)]; the same closure body serves
    [downloadFile] and [uploadFile]. *)
Definition step (limit : JS.num) (fileSize : JS.num) (progressCallback : bool)
    (c : Chunk) (s : StepState) : StepResult * StepState :=
  let s1 := {| lastTime := lastTime s;
               lastTransferred := lastTransferred s;
               startTime := startTime s;
               totalTransferred := total_transferred c |} in
  let percent := percentOf c in
  match throttleDelay limit (startTime s1) c with
  | Some delay => (Throttled delay, s1)
  | None =>
      if progressCallback then
        (Reported {| percent := percent;
                     transferred := total_transferred c;
                     total := fileSize;
                     speed := instantSpeed c s1;
                     speedLimit := appliedCap limit |},
         {| lastTime := now2 c;
            lastTransferred := total_transferred c;
            startTime := startTime s1;
            totalTransferred := totalTransferred s1 |})
      else (Silent, s1)
  end.

(** The library calls [step] once per chunk, in order. *)
Fixpoint runSteps (limit fileSize : JS.num) (progressCallback : bool)
    (chunks : list Chunk) (s : StepState) : list StepResult :=
  match chunks with
  | [] => []
  | c :: rest =>
      let '(r, s') := step limit fileSize progressCallback c s in
      r :: runSteps limit fileSize progressCallback rest s'
  end.

(** What the transport does during one transfer: the answer to the size
    probe ([sftp.stat] for a download, [fs.statSync] for an upload, [inr]
    with the error message when it fails), the clock read for [lastTime] and
    [startTime], the chunks moved, and the error message the transfer ends
    with ([None] on success; for an upload the message after the mapping of
    error codes, or of the 30 s timeout). *)
Record Script : Type := mkScript {
  probe : JS.num + string;
  clockLast : Z;
  clockStart : Z;
  chunks : list Chunk;
  final : option string
}.

Definition initStep (sc : Script) : StepState :=
  {| lastTime := clockLast sc;
     lastTransferred := 0;
     startTime := clockStart sc;
     totalTransferred := 0 |}.

Definition finish (prefix : string) (sc : Script) : result unit :=
  match final sc with
  | Some msg => Throw (prefix +:+ msg)
  | None => Ok ()
  end.

(** [downloadFile(connectionId, remotePath, localPath, progressCallback)]:
    the outcomes of the [step] invocations, and how the call ends. *)
Definition downloadFile (connectionId : string) (progressCallback : bool)
    (sc : Script) (m : t) : list StepResult * result unit :=
  match connections m !! connectionId with
  | None => ([], Throw NotFound)
  | Some c =>
      match type c with
      | ftp => ([], finish "" sc)
      | sftp =>
          match probe sc with
          | inr msg => ([], Throw ("Failed to get file info: " +:+ msg))
          | inl fileSize =>
              let speedLimit :=
                SpeedLimitManager.getEffectiveLimit connectionId "download"
                  (speedLimitManager m) in
              (runSteps speedLimit fileSize progressCallback (chunks sc)
                 (initStep sc),
               finish "Download failed: " sc)
          end
      end
  end.

(** [uploadFile(connectionId, localPath, remotePath, progressCallback)];
    a failing probe is a missing local file. *)
Definition uploadFile (connectionId localPath : string)
    (progressCallback : bool) (sc : Script) (m : t)
    : list StepResult * result unit :=
  match connections m !! connectionId with
  | None => ([], Throw NotFound)
  | Some c =>
      match probe sc with
      | inr _ => ([], Throw ("Local file not found: " +:+ localPath))
      | inl fileSize =>
          match type c with
          | ftp => ([], finish "" sc)
          | sftp =>
              let speedLimit :=
                SpeedLimitManager.getEffectiveLimit connectionId "upload"
                  (speedLimitManager m) in
              (runSteps speedLimit fileSize progressCallback (chunks sc)
                 (initStep sc),
               finish "" sc)
          end
      end
  end.

End ConnectionManager.

(** ** The transfer queue (class [TransferQueue]) *)

Module TransferQueue.

(** The status strings ['queued'], ['active'], ['paused'], ['completed'],
    ['error'] and ['cancelled']. *)
Inductive Status : Type :=
  | Queued | Active | Paused | Completed | Error | Cancelled.

Global Instance Status_eq_dec : EqDecision Status.
Proof. solve_decision. Defined.

(** [transfer.type]: ['upload'] or ['download']. *)
Inductive Kind : Type := Upload | Download.

(** The descriptor passed to [addTransfer]. *)
Record Transfer : Type := mkTransfer {
  t_type : Kind;
  t_localPath : string;
  t_remotePath : string;
  t_size : option JS.num;
  t_connectionId : string
}.

(** A queue item object ([fileName], derived from the paths for display,
    is left out). *)
Module Item.
Record t : Type := mk {
  id : nat;
  type : Kind;
  localPath : string;
  remotePath : string;
  size : JS.num;
  connectionId : string;
  status : Status;
  progress : JS.num;
  speed : JS.num;
  startTime : option Z;
  error : option string;
  isPaused : bool
}.

Definition set_status (st : Status) (it : t) : t :=
  mk (id it) (type it) (localPath it) (remotePath it) (size it)
     (connectionId it) st (progress it) (speed it) (startTime it)
     (error it) (isPaused it).

Definition set_progress (p : JS.num) (it : t) : t :=
  mk (id it) (type it) (localPath it) (remotePath it) (size it)
     (connectionId it) (status it) p (speed it) (startTime it)
     (error it) (isPaused it).

Definition set_speed (v : JS.num) (it : t) : t :=
  mk (id it) (type it) (localPath it) (remotePath it) (size it)
     (connectionId it) (status it) (progress it) v (startTime it)
     (error it) (isPaused it).

Definition set_startTime (now : Z) (it : t) : t :=
  mk (id it) (type it) (localPath it) (remotePath it) (size it)
     (connectionId it) (status it) (progress it) (speed it) (Some now)
     (error it) (isPaused it).

Definition set_error (msg : string) (it : t) : t :=
  mk (id it) (type it) (localPath it) (remotePath it) (size it)
     (connectionId it) (status it) (progress it) (speed it) (startTime it)
     (Some msg) (isPaused it).

Definition set_isPaused (b : bool) (it : t) : t :=
  mk (id it) (type it) (localPath it) (remotePath it) (size it)
     (connectionId it) (status it) (progress it) (speed it) (startTime it)
     (error it) b.
End Item.

(** Messages the queue hands to [ipcRenderer]. *)
Inductive Ipc : Type :=
  | Invoke (kind : Kind) (connectionId localPath remotePath : string)
      (transferId : nat)
  | Send (channel : string) (transferId : nat).

(** The queue object. Item objects live in [objs], keyed by their address
    (the value of [queueId] when they were created); [queue] and
    [activeTransfers] hold references to them. [activeTransfers] lists the
    keys of the [Map] in insertion order, its value at a key is the object
    at that address. [running] lists the [executeTransfer] calls that await
    their reply, [timers] counts the pending [setTimeout] calls of
    [processQueue], [outbox] collects the messages sent, and [passes] counts
    the calls of [processQueue] so far. *)
Record t : Type := mk {
  objs : gmap nat Item.t;
  queue : list nat;
  activeTransfers : list nat;
  maxConcurrent : nat;
  isPaused : bool;
  queueId : nat;
  running : list nat;
  timers : nat;
  outbox : list Ipc;
  passes : nat
}.

(** [constructor()], with [maxConcurrent] set to [k]. *)
Definition init (k : nat) : t :=
  {| objs := ∅; queue := []; activeTransfers := []; maxConcurrent := k;
     isPaused := false; queueId := 0; running := []; timers := 0;
     outbox := []; passes := 0 |}.

Definition new : t := init 3.

Definition hasStatus (st : Status) (o : gmap nat Item.t) (ref : nat) : bool :=
  match o !! ref with
  | Some it => bool_decide (Item.status it = st)
  | None => false
  end.

(** [t.status === 'queued' && !t.isPaused] *)
Definition eligible (o : gmap nat Item.t) (ref : nat) : bool :=
  match o !! ref with
  | Some it => bool_decide (Item.status it = Queued) && negb (Item.isPaused it)
  | None => false
  end.

(** Number of objects referenced from [refs] whose status is ['active']. *)
Definition countActive (o : gmap nat Item.t) (refs : list nat) : nat :=
  length (filter (λ ref, hasStatus Active o ref) refs).

(** [this.queue.find(t => t.id === id)] *)
Definition findById (transferId : nat) (s : t) : option nat :=
  List.find (λ ref, match objs s !! ref with
                    | Some it => Nat.eqb (Item.id it) transferId
                    | None => false
                    end) (queue s).

(** [map.set(key, _)] and [map.delete(key)] on the keys of a [Map]. *)
Definition mapSet (key : nat) (keys : list nat) : list nat :=
  if bool_decide (key ∈ keys) then keys else keys ++ [key].

Definition mapDelete (key : nat) (keys : list nat) : list nat :=
  filter (λ k, k ≠ key) keys.

(** One awaited call of [executeTransfer] on [ref] returns. *)
Fixpoint removeOne (ref : nat) (refs : list nat) : list nat :=
  match refs with
  | [] => []
  | r :: rest => if Nat.eqb r ref then rest else r :: removeOne ref rest
  end.

(** Update in place of the object at [ref]. *)
Definition update (ref : nat) (f : Item.t → Item.t) (s : t) : t :=
  {| objs := alter f ref (objs s); queue := queue s;
     activeTransfers := activeTransfers s; maxConcurrent := maxConcurrent s;
     isPaused := isPaused s; queueId := queueId s; running := running s;
     timers := timers s; outbox := outbox s; passes := passes s |}.

Definition withActive (keys : list nat) (s : t) : t :=
  {| objs := objs s; queue := queue s; activeTransfers := keys;
     maxConcurrent := maxConcurrent s; isPaused := isPaused s;
     queueId := queueId s; running := running s; timers := timers s;
     outbox := outbox s; passes := passes s |}.

Definition post (msg : Ipc) (s : t) : t :=
  {| objs := objs s; queue := queue s; activeTransfers := activeTransfers s;
     maxConcurrent := maxConcurrent s; isPaused := isPaused s;
     queueId := queueId s; running := running s; timers := timers s;
     outbox := outbox s ++ [msg]; passes := passes s |}.

(** The synchronous part of [executeTransfer]: the request is sent and the
    call awaits the reply. *)
Definition executeTransfer (ref : nat) (it : Item.t) (s : t) : t :=
  let s1 := post (Invoke (Item.type it) (Item.connectionId it)
                    (Item.localPath it) (Item.remotePath it) (Item.id it)) s in
  {| objs := objs s1; queue := queue s1; activeTransfers := activeTransfers s1;
     maxConcurrent := maxConcurrent s1; isPaused := isPaused s1;
     queueId := queueId s1; running := running s1 ++ [ref];
     timers := timers s1; outbox := outbox s1; passes := passes s1 |}.

(** The item a scheduling pass would start, if any. *)
Definition nextTransfer (s : t) : option nat :=
  if isPaused s then None
  else if (maxConcurrent s <=? countActive (objs s) (activeTransfers s))%nat
  then None
  else List.find (eligible (objs s)) (queue s).

(** [processQueue()] up to its [await], with the clock reading [now]. *)
Definition processQueue (now : Z) (s : t) : t :=
  let s0 :=
    {| objs := objs s; queue := queue s; activeTransfers := activeTransfers s;
       maxConcurrent := maxConcurrent s; isPaused := isPaused s;
       queueId := queueId s; running := running s; timers := timers s;
       outbox := outbox s; passes := S (passes s) |} in
  match nextTransfer s with
  | None => s0
  | Some ref =>
      let s1 :=
        update ref (λ it, Item.set_startTime now (Item.set_status Active it))
          s0 in
      match objs s1 !! ref with
      | None => s1
      | Some it =>
          executeTransfer ref it
            (withActive (mapSet (Item.id it) (activeTransfers s1)) s1)
      end
  end.

(** The rest of [processQueue], run when the reply to [executeTransfer]
    arrives: [reply] is [None] for [{success: true}] and the error message
    otherwise. *)
Definition settle (ref : nat) (reply : option string) (s : t) : t :=
  if bool_decide (ref ∈ running s) then
    let s1 :=
      match reply with
      | None =>
          update ref (λ it, Item.set_progress (JS.of_Z 100)
                              (Item.set_status Completed it)) s
      | Some msg =>
          update ref (λ it, Item.set_error msg (Item.set_status Error it)) s
      end in
    let key := match objs s1 !! ref with
               | Some it => Item.id it
               | None => ref
               end in
    {| objs := objs s1; queue := queue s1;
       activeTransfers := mapDelete key (activeTransfers s1);
       maxConcurrent := maxConcurrent s1; isPaused := isPaused s1;
       queueId := queueId s1;
       running := removeOne ref (running s1);
       timers := S (timers s1); outbox := outbox s1; passes := passes s1 |}
  else s.

(** A pending [setTimeout(() => this.processQueue(), 100)] fires. *)
Definition timerFires (now : Z) (s : t) : t :=
  match timers s with
  | O => s
  | S n =>
      processQueue now
        {| objs := objs s; queue := queue s;
           activeTransfers := activeTransfers s;
           maxConcurrent := maxConcurrent s; isPaused := isPaused s;
           queueId := queueId s; running := running s; timers := n;
           outbox := outbox s; passes := passes s |}
  end.

Definition addTransfer (transfer : Transfer) (now : Z) (s : t) : nat * t :=
  let id := S (queueId s) in
  let queueItem :=
    {| Item.id := id;
       Item.type := t_type transfer;
       Item.localPath := t_localPath transfer;
       Item.remotePath := t_remotePath transfer;
       Item.size := match t_size transfer with
                    | Some n => JS.or n (JS.of_Z 0)
                    | None => JS.of_Z 0
                    end;
       Item.connectionId := t_connectionId transfer;
       Item.status := Queued;
       Item.progress := JS.of_Z 0;
       Item.speed := JS.of_Z 0;
       Item.startTime := None;
       Item.error := None;
       Item.isPaused := false |} in
  (id,
   processQueue now
     {| objs := <[id := queueItem]> (objs s); queue := queue s ++ [id];
        activeTransfers := activeTransfers s;
        maxConcurrent := maxConcurrent s; isPaused := isPaused s;
        queueId := id; running := running s; timers := timers s;
        outbox := outbox s; passes := passes s |}).

Definition pauseTransfer (transferId : nat) (s : t) : t :=
  match findById transferId s with
  | Some ref =>
      if hasStatus Active (objs s) ref then
        post (Send "pause-transfer" transferId)
          (update ref (λ it, Item.set_status Paused
                               (Item.set_isPaused true it)) s)
      else s
  | None => s
  end.

Definition resumeTransfer (transferId : nat) (now : Z) (s : t) : t :=
  match findById transferId s with
  | Some ref =>
      if hasStatus Paused (objs s) ref then
        processQueue now
          (update ref (λ it, Item.set_status Queued
                               (Item.set_isPaused false it)) s)
      else s
  | None => s
  end.

Definition cancelTransfer (transferId : nat) (now : Z) (s : t) : t :=
  match findById transferId s with
  | Some ref =>
      let s1 := if hasStatus Active (objs s) ref
                then post (Send "cancel-transfer" transferId) s else s in
      let s2 := update ref (Item.set_status Cancelled) s1 in
      processQueue now
        (withActive (mapDelete transferId (activeTransfers s2)) s2)
  | None => s
  end.

Definition setPaused (b : bool) (s : t) : t :=
  {| objs := objs s; queue := queue s; activeTransfers := activeTransfers s;
     maxConcurrent := maxConcurrent s; isPaused := b; queueId := queueId s;
     running := running s; timers := timers s; outbox := outbox s;
     passes := passes s |}.

(** The callbacks of the two [forEach] loops, applied to one reference. *)
Definition pauseIfActive (s : t) (ref : nat) : t :=
  match objs s !! ref with
  | Some it =>
      if bool_decide (Item.status it = Active)
      then pauseTransfer (Item.id it) s else s
  | None => s
  end.

Definition resumeIfPaused (now : Z) (s : t) (ref : nat) : t :=
  match objs s !! ref with
  | Some it =>
      if bool_decide (Item.status it = Paused)
      then resumeTransfer (Item.id it) now s else s
  | None => s
  end.

Definition pauseAll (s : t) : t :=
  let s1 := setPaused true s in
  fold_left pauseIfActive (queue s1) s1.

Definition resumeAll (now : Z) (s : t) : t :=
  let s1 := setPaused false s in
  fold_left (resumeIfPaused now) (queue s1) s1.

Definition isFinished (o : gmap nat Item.t) (ref : nat) : bool :=
  hasStatus Completed o ref || hasStatus Cancelled o ref
  || hasStatus Error o ref.

Definition clearCompleted (s : t) : t :=
  {| objs := objs s;
     queue := filter (λ ref, negb (isFinished (objs s) ref)) (queue s);
     activeTransfers := activeTransfers s; maxConcurrent := maxConcurrent s;
     isPaused := isPaused s; queueId := queueId s; running := running s;
     timers := timers s; outbox := outbox s; passes := passes s |}.

(** The listener of ['transfer-progress']. *)
Definition onTransferProgress (transferId : nat) (percent speed : option JS.num)
    (s : t) : t :=
  let orZero v := match v with
                  | Some x => JS.or x (JS.of_Z 0)
                  | None => JS.of_Z 0
                  end in
  match findById transferId s with
  | Some ref =>
      update ref (λ it, Item.set_speed (orZero speed)
                          (Item.set_progress (orZero percent) it)) s
  | None => s
  end.

(** Everything that can happen to the queue, one event-loop turn each. *)
Inductive Event : Type :=
  | EvAdd (transfer : Transfer) (now : Z)
  | EvPause (transferId : nat)
  | EvResume (transferId : nat) (now : Z)
  | EvCancel (transferId : nat) (now : Z)
  | EvPauseAll
  | EvResumeAll (now : Z)
  | EvClearCompleted
  | EvTimer (now : Z)
  | EvSettle (ref : nat) (reply : option string)
  | EvProgress (transferId : nat) (percent speed : option JS.num).

Definition handle (s : t) (ev : Event) : t :=
  match ev with
  | EvAdd transfer now => snd (addTransfer transfer now s)
  | EvPause transferId => pauseTransfer transferId s
  | EvResume transferId now => resumeTransfer transferId now s
  | EvCancel transferId now => cancelTransfer transferId now s
  | EvPauseAll => pauseAll s
  | EvResumeAll now => resumeAll now s
  | EvClearCompleted => clearCompleted s
  | EvTimer now => timerFires now s
  | EvSettle ref reply => settle ref reply s
  | EvProgress transferId percent speed =>
      onTransferProgress transferId percent speed s
  end.

Definition run (events : list Event) (s : t) : t :=
  fold_left handle events s.

(** The status of the item with id [transferId] as seen through the queue. *)
Definition statusOf (transferId : nat) (s : t) : option Status :=
  findById transferId s ≫= (λ ref, Item.status <$> objs s !! ref).

End TransferQueue.

(** ** A stream piped through the limiter *)

Module LimitedStream.

(** The stream hands its chunks to [_transform] one at a time, each with
    its length and the clock read when it is processed. *)
Fixpoint run (chunks : list (Z * Z)) (s : SpeedLimiter.t)
    : list SpeedLimiter.emission * SpeedLimiter.t :=
  match chunks with
  | [] => ([], s)
  | (len, now) :: rest =>
      let '(e, s1) := SpeedLimiter._transform len now s in
      let '(es, s2) := run rest s1 in
      (e :: es, s2)
  end.

End LimitedStream.

(** ** The speed limits of the settings dialog (renderer) *)

Module SpeedSettings.

(** [parseFloat(field.value) || 0]: [parsed] is what [parseFloat] gives,
    [NaN] for an empty or malformed field. *)
Definition fieldValue (parsed : JS.num) : JS.num := JS.or parsed (JS.of_Z 0).

(** [convertToBytes(value, unit)] of [applySettings]. *)
Definition convertToBytes (value : JS.num) (unit : string) : JS.num :=
  if JS.eqb value (JS.of_Z 0) then JS.PInf
  else if bool_decide (unit = "MB/s")
       then JS.mul (JS.mul value (JS.of_Z 1024)) (JS.of_Z 1024)
       else JS.mul value (JS.of_Z 1024).

(** The four fields of the dialog, each as parsed number and unit. *)
Record Form : Type := mkForm {
  globalUpload : JS.num * string;
  globalDownload : JS.num * string;
  connectionUpload : JS.num * string;
  connectionDownload : JS.num * string
}.

Definition bytesOf (field : JS.num * string) : JS.num :=
  convertToBytes (fieldValue (fst field)) (snd field).

(** The speed limit part of [applySettings], through the handlers
    ['set-global-speed-limit'] and ['set-speed-limit'] of the main process;
    [currentConnection] is [None] when not connected. *)
Definition applySettings (form : Form) (currentConnection : option string)
    (m : ConnectionManager.t) : ConnectionManager.t :=
  let m1 := ConnectionManager.setGlobalSpeedLimit "upload"
              (bytesOf (globalUpload form)) m in
  let m2 := ConnectionManager.setGlobalSpeedLimit "download"
              (bytesOf (globalDownload form)) m1 in
  match currentConnection with
  | Some c =>
      ConnectionManager.setSpeedLimit c "download"
        (bytesOf (connectionDownload form))
        (ConnectionManager.setSpeedLimit c "upload"
           (bytesOf (connectionUpload form)) m2)
  | None => m2
  end.

(** How [showSettingsDialog] fills a field from a limit read back: nothing
    for [Infinity], otherwise the value in KB/s, or in MB/s from 1024 KB/s
    on. *)
Definition displayLimit (limit : JS.num) : option (JS.num * string) :=
  match limit with
  | JS.PInf => None
  | _ =>
      let value := JS.div limit (JS.of_Z 1024) in
      if JS.le (JS.of_Z 1024) value
      then Some (JS.div value (JS.of_Z 1024), "MB/s")
      else Some (value, "KB/s")
  end.

End SpeedSettings.

(** ** The transfer handlers of the main process *)

Module MainProcess.

(** [{ success: true }] or [{ success: false, error }]. *)
Inductive Reply : Type :=
  | Success
  | Failure (error : string).

Definition replyOf {A} (r : ConnectionManager.result A) : Reply :=
  match r with
  | ConnectionManager.Ok _ => Success
  | ConnectionManager.Throw message => Failure message
  end.

(** The ['transfer-progress'] messages a transfer sends: one per call of
    the progress callback, tagged with the transfer id. *)
Definition progressEvents (transferId : nat)
    (outs : list ConnectionManager.StepResult)
    : list (nat * ConnectionManager.Progress) :=
  omap (λ o, match o with
             | ConnectionManager.Reported p => Some (transferId, p)
             | _ => None
             end) outs.

(** The handlers ['upload-file-with-progress'] and
    ['download-file-with-progress']. *)
Definition uploadFileWithProgress (connectionId localPath : string)
    (transferId : nat) (sc : ConnectionManager.Script)
    (m : ConnectionManager.t)
    : list (nat * ConnectionManager.Progress) * Reply :=
  let '(outs, r) :=
    ConnectionManager.uploadFile connectionId localPath true sc m in
  (progressEvents transferId outs, replyOf r).

Definition downloadFileWithProgress (connectionId : string)
    (transferId : nat) (sc : ConnectionManager.Script)
    (m : ConnectionManager.t)
    : list (nat * ConnectionManager.Progress) * Reply :=
  let '(outs, r) := ConnectionManager.downloadFile connectionId true sc m in
  (progressEvents transferId outs, replyOf r).

(** The handler ['disconnect']. *)
Definition disconnectHandler (connectionId : string) (m : ConnectionManager.t)
    : Reply * ConnectionManager.t :=
  match ConnectionManager.disconnect connectionId m with
  | ConnectionManager.Ok m' => (Success, m')
  | ConnectionManager.Throw message => (Failure message, m)
  end.

End MainProcess.

(** ** One transfer from the queue to the session and back *)

Module Engine.

(** What the main process answers to the request [executeTransfer] sent
    for the item [it]. *)
Definition serve (it : TransferQueue.Item.t) (sc : ConnectionManager.Script)
    (m : ConnectionManager.t)
    : list (nat * ConnectionManager.Progress) * MainProcess.Reply :=
  match TransferQueue.Item.type it with
  | TransferQueue.Upload =>
      MainProcess.uploadFileWithProgress (TransferQueue.Item.connectionId it)
        (TransferQueue.Item.localPath it) (TransferQueue.Item.id it) sc m
  | TransferQueue.Download =>
      MainProcess.downloadFileWithProgress
        (TransferQueue.Item.connectionId it) (TransferQueue.Item.id it) sc m
  end.

(** The renderer receives the progress messages in order. *)
Definition receive (events : list (nat * ConnectionManager.Progress))
    (s : TransferQueue.t) : TransferQueue.t :=
  fold_left
    (λ s' ev,
       TransferQueue.onTransferProgress (fst ev)
         (Some (ConnectionManager.percent (snd ev)))
         (Some (ConnectionManager.speed (snd ev))) s')
    events s.

(** The execution of the item at [ref] from the request to the reply,
    with no other event of the queue in between. *)
Definition complete (ref : nat) (sc : ConnectionManager.Script)
    (m : ConnectionManager.t) (s : TransferQueue.t) : TransferQueue.t :=
  match TransferQueue.objs s !! ref with
  | Some it =>
      let '(events, reply) := serve it sc m in
      TransferQueue.settle ref
        (match reply with
         | MainProcess.Success => None
         | MainProcess.Failure error => Some error
         end)
        (receive events s)
  | None => s
  end.

End Engine.

(** ** The plan of a directory synchronisation (renderer) *)

Module SyncPlan.

(** An entry of a file listing, as [getLocalFileList] and
    [getRemoteFileList] build them. [modified] is the time value of
    [new Date(f.modified)], [NaN] for an invalid date. *)
Record File : Type := mkFile {
  path : string;
  size : JS.num;
  modified : JS.num
}.

(** The [type] of an action: ['upload'], ['download'], ['delete-remote'],
    ['delete-local']. *)
Inductive ActionType : Type :=
  | ActUpload
  | ActDownload
  | ActDeleteRemote
  | ActDeleteLocal.

Module Action.
Record t : Type := mk {
  type : ActionType;
  file : string;
  reason : string;
  localPath : option string;
  remotePath : option string
}.
End Action.

Record Options : Type := mkOptions {
  direction : string;
  deleteExtra : bool;
  overwriteNewer : bool;
  localPath : string;
  remotePath : string
}.

(** [new Map(files.map(f => [f.path, f]))]: a later entry replaces an
    earlier one of the same path. *)
Definition mapOf (files : list File) : gmap string File :=
  foldl (λ m f, <[path f := f]> m) ∅ files.

Section Compare.

(** [path.join]. *)
Variable join : string → string → string.

(** [a.size !== b.size || (overwriteNewer || new Date(a.modified) > new
    Date(b.modified))]. *)
Definition isDifferent (overwriteNewer : bool) (a b : File) : bool :=
  negb (JS.eqb (size a) (size b))
  || (overwriteNewer || JS.gt (modified a) (modified b)).

(** The body of the loop over the files of the source side, the same for
    the two directions: [kind] is ['upload'] with the local files as
    [files] and the remote map as [others], ['download'] with the roles
    exchanged. *)
Definition transferAction (kind : ActionType) (options : Options)
    (others : gmap string File) (f : File) : option Action.t :=
  match others !! path f with
  | None =>
      Some (Action.mk kind (path f) "New file"
              (Some (join (localPath options) (path f)))
              (Some (join (remotePath options) (path f))))
  | Some other =>
      if isDifferent (overwriteNewer options) f other
      then Some (Action.mk kind (path f)
                   (if negb (JS.eqb (size f) (size other))
                    then "Different size" else "Newer version")
                   (Some (join (localPath options) (path f)))
                   (Some (join (remotePath options) (path f))))
      else None
  end.

Definition deleteRemoteAction (options : Options)
    (localMap : gmap string File) (remoteFile : File) : option Action.t :=
  match localMap !! path remoteFile with
  | Some _ => None
  | None =>
      Some (Action.mk ActDeleteRemote (path remoteFile) "Not in source"
              None (Some (join (remotePath options) (path remoteFile))))
  end.

Definition deleteLocalAction (options : Options)
    (remoteMap : gmap string File) (localFile : File) : option Action.t :=
  match remoteMap !! path localFile with
  | Some _ => None
  | None =>
      Some (Action.mk ActDeleteLocal (path localFile) "Not in source"
              (Some (join (localPath options) (path localFile))) None)
  end.

Definition compareSyncFiles (localFiles remoteFiles : list File)
    (options : Options) : list Action.t :=
  let localMap := mapOf localFiles in
  let remoteMap := mapOf remoteFiles in
  let up :=
    if String.eqb (direction options) "upload"
       || String.eqb (direction options) "bidirectional"
    then omap (transferAction ActUpload options remoteMap) localFiles
         ++ (if deleteExtra options
                && String.eqb (direction options) "upload"
             then omap (deleteRemoteAction options localMap) remoteFiles
             else [])
    else [] in
  let down :=
    if String.eqb (direction options) "download"
       || String.eqb (direction options) "bidirectional"
    then omap (transferAction ActDownload options localMap) remoteFiles
         ++ (if deleteExtra options
                && String.eqb (direction options) "download"
             then omap (deleteLocalAction options remoteMap) localFiles
             else [])
    else [] in
  up ++ down.

End Compare.

End SyncPlan.

(** ** The permissions dialog (renderer) *)

Module Permissions.

(** The fields of the dialog: the text of [perm-octal] and the nine
    check boxes. *)
Record Dialog : Type := mkDialog {
  perm_octal : string;
  owner_read : bool; owner_write : bool; owner_execute : bool;
  group_read : bool; group_write : bool; group_execute : bool;
  other_read : bool; other_write : bool; other_execute : bool
}.

(** A character of the class [[0-7]]. *)
Definition isOctalDigit (c : ascii) : bool :=
  (48 <=? nat_of_ascii c)%nat && (nat_of_ascii c <=? 55)%nat.

(** [/^[0-7]{3}$/.test(octal)]. *)
Definition isOctal (octal : string) : bool :=
  match octal with
  | String a (String b (String c EmptyString)) =>
      isOctalDigit a && isOctalDigit b && isOctalDigit c
  | _ => false
  end.

(** [parseInt] of a one-digit string. *)
Definition parseDigit (c : ascii) : nat := (nat_of_ascii c - 48)%nat.

(** [(n & mask) !== 0]. *)
Definition hasBit (n mask : nat) : bool := negb (Nat.land n mask =? 0)%nat.

Definition updateCheckboxesFromOctal (d : Dialog) : Dialog :=
  match perm_octal d with
  | String a (String b (String c EmptyString)) =>
      if isOctal (perm_octal d) then
        let p0 := parseDigit a in
        let p1 := parseDigit b in
        let p2 := parseDigit c in
        {| perm_octal := perm_octal d;
           owner_read := hasBit p0 4; owner_write := hasBit p0 2;
           owner_execute := hasBit p0 1;
           group_read := hasBit p1 4; group_write := hasBit p1 2;
           group_execute := hasBit p1 1;
           other_read := hasBit p2 4; other_write := hasBit p2 2;
           other_execute := hasBit p2 1 |}
      else d
  | _ => d
  end.

(** The sum of the weights of the boxes that are checked. *)
Definition weight (r w x : bool) : nat :=
  ((if r then 4 else 0) + (if w then 2 else 0) + (if x then 1 else 0))%nat.

(** A number below ten in a template literal. *)
Definition digit (n : nat) : ascii := ascii_of_nat (48 + n).

Definition updateOctalFromCheckboxes (d : Dialog) : Dialog :=
  let owner := weight (owner_read d) (owner_write d) (owner_execute d) in
  let group := weight (group_read d) (group_write d) (group_execute d) in
  let other := weight (other_read d) (other_write d) (other_execute d) in
  {| perm_octal :=
       String (digit owner) (String (digit group)
         (String (digit other) EmptyString));
     owner_read := owner_read d; owner_write := owner_write d;
     owner_execute := owner_execute d;
     group_read := group_read d; group_write := group_write d;
     group_execute := group_execute d;
     other_read := other_read d; other_write := other_write d;
     other_execute := other_execute d |}.

End Permissions.

(** ** The activity log (renderer) *)

Module ActivityLogger.

Record LogEntry : Type := mkLogEntry {
  id : Q;
  timestamp : string;
  type : string;
  message : string;
  details : list (string * string)
}.

(** The logger and the item [activityLogs] of [localStorage]. *)
Record t : Type := mk {
  logs : list LogEntry;
  maxLogs : nat;
  activityLogs : option (list LogEntry)
}.

(** [logs.slice(-n)]: the last [n] entries; [slice(-0)] is [slice(0)], the
    whole array. *)
Definition sliceLast {A} (n : nat) (l : list A) : list A :=
  match n with
  | O => l
  | S _ => drop (length l - n) l
  end.

Inductive result (A : Type) : Type :=
  | Ok (a : A) (s : t)
  | Throw (s : t).
Arguments Ok {A} a s.
Arguments Throw {A} s.

(** [saveLogs()]. [localStorage.setItem] throws when the storage is full:
    [fits1] and [fits2] tell whether its first and second call succeed. *)
Definition saveLogs (fits1 fits2 : bool) (s : t) : result unit :=
  if fits1 then
    Ok tt {| logs := logs s; maxLogs := maxLogs s;
             activityLogs := Some (logs s) |}
  else if (100 <? length (logs s))%nat then
    let kept := sliceLast 100 (logs s) in
    if fits2 then
      Ok tt {| logs := kept; maxLogs := maxLogs s;
               activityLogs := Some kept |}
    else
      Throw {| logs := kept; maxLogs := maxLogs s;
               activityLogs := activityLogs s |}
  else Ok tt s.

(** [addLog(type, message, details)]; [idOf] is [Date.now() +
    Math.random()] and [time] the ISO string of the clock. *)
Definition addLog (idOf : Q) (time type message : string)
    (details : list (string * string)) (fits1 fits2 : bool) (s : t)
    : result LogEntry :=
  let logEntry :=
    {| id := idOf; timestamp := time; type := type; message := message;
       details := details |} in
  let pushed := logs s ++ [logEntry] in
  let kept :=
    if (maxLogs s <? length pushed)%nat then sliceLast (maxLogs s) pushed
    else pushed in
  match saveLogs fits1 fits2
          {| logs := kept; maxLogs := maxLogs s;
             activityLogs := activityLogs s |} with
  | Ok _ s1 => Ok logEntry s1
  | Throw s1 => Throw s1
  end.

Definition clearLogs (fits1 fits2 : bool) (s : t) : result unit :=
  saveLogs fits1 fits2
    {| logs := []; maxLogs := maxLogs s; activityLogs := activityLogs s |}.

(** The state a result leaves. *)
Definition stateOf {A} (r : result A) : t :=
  match r with Ok _ s => s | Throw s => s end.

End ActivityLogger.

(** ** bookmarksManager.js *)

Module BookmarksManager.

(** A stored bookmark; [host] is [undefined] on a local one. *)
Record Bookmark : Type := mkBookmark {
  id : string;
  name : string;
  path : string;
  host : option string;
  createdAt : string
}.

(** The argument of [addLocalBookmark] and [addRemoteBookmark]. *)
Record Request : Type := mkRequest {
  r_name : option string;
  r_path : string;
  r_host : option string
}.

(** The two keys of the store. *)
Record t : Type := mk {
  localBookmarks : list Bookmark;
  remoteBookmarks : list Bookmark
}.

Definition new : t := {| localBookmarks := []; remoteBookmarks := [] |}.

Definition set_name (newName : string) (b : Bookmark) : Bookmark :=
  {| id := id b; name := newName; path := path b; host := host b;
     createdAt := createdAt b |}.

Section Store.

(** [path.basename]. *)
Variable basename : string → string.

(** [a || b] on strings: the empty string is falsy. *)
Definition strOr (a b : string) : string :=
  if String.eqb a "" then b else a.

(** [bookmark.name || path.basename(bookmark.path) || 'Root']. *)
Definition nameOf (bookmark : Request) : string :=
  strOr (strOr (default "" (r_name bookmark)) (basename (r_path bookmark)))
        "Root".

Definition addLocalBookmark (uuid now : string) (bookmark : Request)
    (s : t) : Bookmark * t :=
  let newBookmark :=
    {| id := uuid; name := nameOf bookmark; path := r_path bookmark;
       host := None; createdAt := now |} in
  let exists_ :=
    existsb (λ b, String.eqb (path b) (path newBookmark))
            (localBookmarks s) in
  (newBookmark,
   if exists_ then s
   else {| localBookmarks := localBookmarks s ++ [newBookmark];
           remoteBookmarks := remoteBookmarks s |}).

Definition addRemoteBookmark (uuid now : string) (bookmark : Request)
    (s : t) : Bookmark * t :=
  let newBookmark :=
    {| id := uuid; name := nameOf bookmark; path := r_path bookmark;
       host := r_host bookmark; createdAt := now |} in
  let exists_ :=
    existsb (λ b, String.eqb (path b) (path newBookmark)
                  && bool_decide (host b = host newBookmark))
            (remoteBookmarks s) in
  (newBookmark,
   if exists_ then s
   else {| localBookmarks := localBookmarks s;
           remoteBookmarks := remoteBookmarks s ++ [newBookmark] |}).

Definition deleteLocalBookmark (bookmarkId : string) (s : t) : t :=
  {| localBookmarks :=
       List.filter (λ b, negb (String.eqb (id b) bookmarkId))
                   (localBookmarks s);
     remoteBookmarks := remoteBookmarks s |}.

Definition deleteRemoteBookmark (bookmarkId : string) (s : t) : t :=
  {| localBookmarks := localBookmarks s;
     remoteBookmarks :=
       List.filter (λ b, negb (String.eqb (id b) bookmarkId))
                   (remoteBookmarks s) |}.

(** [bookmarks.find(b => b.id === id)] followed by the change of its
    name: the first bookmark of that id is renamed. *)
Fixpoint renameFirst (bookmarkId newName : string) (l : list Bookmark)
    : list Bookmark :=
  match l with
  | [] => []
  | b :: rest =>
      if String.eqb (id b) bookmarkId then set_name newName b :: rest
      else b :: renameFirst bookmarkId newName rest
  end.

Definition renameBookmark (bookmarkId newName : string) (isRemote : bool)
    (s : t) : option Bookmark * t :=
  let bookmarks := if isRemote then remoteBookmarks s else localBookmarks s in
  match List.find (λ b, String.eqb (id b) bookmarkId) bookmarks with
  | None => (None, s)
  | Some bookmark =>
      (Some (set_name newName bookmark),
       if isRemote
       then {| localBookmarks := localBookmarks s;
               remoteBookmarks :=
                 renameFirst bookmarkId newName (remoteBookmarks s) |}
       else {| localBookmarks :=
                 renameFirst bookmarkId newName (localBookmarks s);
               remoteBookmarks := remoteBookmarks s |})
  end.

(** The calls made to the manager, with the values the environment
    supplies to each. *)
Inductive Call : Type :=
  | AddLocal (uuid now : string) (bookmark : Request)
  | AddRemote (uuid now : string) (bookmark : Request)
  | DeleteLocal (bookmarkId : string)
  | DeleteRemote (bookmarkId : string)
  | Rename (bookmarkId newName : string) (isRemote : bool).

Definition call (s : t) (c : Call) : t :=
  match c with
  | AddLocal uuid now b => snd (addLocalBookmark uuid now b s)
  | AddRemote uuid now b => snd (addRemoteBookmark uuid now b s)
  | DeleteLocal i => deleteLocalBookmark i s
  | DeleteRemote i => deleteRemoteBookmark i s
  | Rename i n r => snd (renameBookmark i n r s)
  end.

Definition calls (cs : list Call) (s : t) : t := fold_left call cs s.

End Store.

End BookmarksManager.

(** * Vocabulary of the properties *)

(** ** Caps of the limit registry *)

Module SpeedLimitSpec.
Import JS SpeedLimitManager.

(** The cap as the specification words it: an absent entry counts as
    [+∞], a present one as its value. *)
Definition capAsStated (stored : option num) : num := default PInf stored.

(** The cap the registry works with: a missing or falsy entry ([0], [NaN])
    counts as [+∞]. *)
Definition capOrUnbounded (stored : option num) : num :=
  match stored with
  | Some v => if truthy v then v else PInf
  | None => PInf
  end.

End SpeedLimitSpec.

(** ** Time of the throttle *)

Module SpeedLimiterSpec.
Import JS SpeedLimiter.

(** Seconds since the start of the transfer, as a rational. *)
Definition elapsedSeconds (now : Z) (s : t) : Q :=
  inject_Z (now - startTime s) / inject_Z 1000.

End SpeedLimiterSpec.

(** ** Sessions, read-backs and transfer traces *)

Module ConnectionSpec.
Import JS ConnectionManager.

(** The read-back of a direction from [getSpeedLimits]. *)
Definition connectionLimit (d : string) (l : SpeedLimits) : num :=
  if bool_decide (d = "upload") then upload l else download l.

Definition globalLimitOf (d : string) (l : SpeedLimits) : num :=
  if bool_decide (d = "upload") then globalUpload l else globalDownload l.

Definition isDirection (d : string) : Prop := d = "upload" ∨ d = "download".

(** A session of each kind, for the examples. *)
Definition ftpSession : t :=
  snd (connect "c1" (mkConfig "ftp" "127.0.0.1" "user" false) None new).

Definition sftpSession : t :=
  snd (connect "c2" (mkConfig "sftp" "127.0.0.1" "user" false) None new).

(** Every operation that takes a session id, applied to [c] in [m], throws
    the error of an unknown connection. *)
Definition failsNotFound (c : string) (m : t) : Prop :=
  disconnect c m = Throw NotFound
  ∧ (∀ A (reply : result A), listDirectory c reply m = Throw NotFound)
  ∧ (∀ cb sc, downloadFile c cb sc m = ([], Throw NotFound))
  ∧ (∀ localPath cb sc, uploadFile c localPath cb sc m = ([], Throw NotFound))
  ∧ (∀ tr, renameFile c tr m = Throw NotFound)
  ∧ (∀ tr, deleteFile c tr m = Throw NotFound)
  ∧ (∀ A (reply : A + string), getFileStats c reply m = Throw NotFound)
  ∧ (∀ tr, chmod c tr m = Throw NotFound)
  ∧ (∀ mkdirs, createDirectory c mkdirs m = Throw NotFound).

(** The registry [ftpSession] once [c1] is disconnected. *)
Definition afterDisconnect : t :=
  {| connections := delete "c1" (connections ftpSession);
     speedLimitManager := speedLimitManager ftpSession |}.

(** Bytes per second over [dtMs] milliseconds in which [db] bytes moved;
    0 when no time has passed. *)
Definition speedBetween (dtMs db : Z) : num :=
  if (0 <? dtMs)%Z
  then Fin (inject_Z db / (inject_Z dtMs / inject_Z 1000))
  else Fin 0.

(** The reports of a transfer give the speed since the previous report:
    [lastT] and [lastB] are the clock and the byte count of the previous
    report (of the start of the transfer before the first one). *)
Fixpoint speedsFollow (lastT lastB : Z) (chunks : list Chunk)
    (outs : list StepResult) : Prop :=
  match chunks, outs with
  | [], [] => True
  | c :: cs, Reported p :: os =>
      speed p = speedBetween (now2 c - lastT) (total_transferred c - lastB)
      ∧ is_finite (speed p) = true
      ∧ speedsFollow (now2 c) (total_transferred c) cs os
  | c :: cs, _ :: os => speedsFollow lastT lastB cs os
  | _, _ => False
  end.

(** A transfer on an SFTP session whose size probe succeeds. *)
Definition sftpTransfer (c : string) (sc : Script) (m : t) : Prop :=
  (∃ conn, connections m !! c = Some conn ∧ type conn = sftp)
  ∧ (∃ fileSize, probe sc = inl fileSize).

(** Two chunks of a 1000-byte file, 100 ms apart, the second reported
    without the clock having advanced. *)
Definition twoChunks : Script :=
  {| probe := inl (of_Z 1000); clockLast := 0; clockStart := 0;
     chunks := [ {| total_transferred := 500; chunk_total := 1000;
                    now1 := 100; now2 := 100 |};
                 {| total_transferred := 1000; chunk_total := 1000;
                    now1 := 100; now2 := 100 |} ];
     final := None |}.

(** Two chunks of a 1000-byte file: 50 bytes after 100 ms, the rest after
    200 ms. *)
Definition unevenChunks : Script :=
  {| probe := inl (of_Z 1000); clockLast := 0; clockStart := 0;
     chunks := [ {| total_transferred := 50; chunk_total := 1000;
                    now1 := 100; now2 := 100 |};
                 {| total_transferred := 1000; chunk_total := 1000;
                    now1 := 200; now2 := 200 |} ];
     final := None |}.

(** A session of each kind with a cap of 1024 B/s on both directions. *)
Definition cappedFtp : t :=
  setSpeedLimit "c1" "upload" (of_Z 1024)
    (setSpeedLimit "c1" "download" (of_Z 1024) ftpSession).

Definition cappedSftp : t :=
  setSpeedLimit "c2" "upload" (of_Z 1024)
    (setSpeedLimit "c2" "download" (of_Z 1024) sftpSession).

End ConnectionSpec.

(** ** States of the transfer queue *)

Module QueueSpec.
Import TransferQueue.

Local Open Scope nat_scope.

(** Updates of an object that keep its id, and that do not make it
    active. *)
Definition keepsId (f : Item.t → Item.t) : Prop :=
  ∀ it, Item.id (f it) = Item.id it.

Definition noNewActive (f : Item.t → Item.t) : Prop :=
  ∀ it, Item.status (f it) = Active → Item.status it = Active.

(** Every object sits at the address that is its id, no address exceeds
    [queueId], the backlog lists addresses in increasing order, and every
    object whose status is ['active'] is a value of [activeTransfers], which
    never holds more than [maxConcurrent] active ones. *)
Record Inv (s : t) : Prop := mkInv {
  inv_ids : ∀ ref it, objs s !! ref = Some it → Item.id it = ref;
  inv_fresh : ∀ ref, is_Some (objs s !! ref) → ref ≤ queueId s;
  inv_queue_le : ∀ ref, ref ∈ queue s → ref ≤ queueId s;
  inv_sorted : StronglySorted lt (queue s);
  inv_nodup : NoDup (activeTransfers s);
  inv_active : ∀ ref, hasStatus Active (objs s) ref → ref ∈ activeTransfers s;
  inv_bound : countActive (objs s) (activeTransfers s) ≤ maxConcurrent s
}.

(** The states no transition of the state machine leaves. *)
Definition isTerminal (st : Status) : Prop :=
  st = Completed ∨ st = Error ∨ st = Cancelled.

(** *** Scheduling passes *)

(** The object [it'] is [it] but for its status and its start time. *)
Definition sameTransfer (it it' : Item.t) : Prop :=
  Item.id it' = Item.id it ∧ Item.type it' = Item.type it
  ∧ Item.localPath it' = Item.localPath it
  ∧ Item.remotePath it' = Item.remotePath it
  ∧ Item.size it' = Item.size it
  ∧ Item.connectionId it' = Item.connectionId it
  ∧ Item.progress it' = Item.progress it ∧ Item.speed it' = Item.speed it
  ∧ Item.error it' = Item.error it ∧ Item.isPaused it' = Item.isPaused it.

(** The pass run on the queue [p] at the clock [now] starts the item at
    [ref]: the item is in the backlog, queued and not paused, and no item
    of the backlog that is queued and not paused has a smaller id - ids
    being given in the order of the [addTransfer] calls, it is the earliest
    enqueued of them. The pass makes it active with start time [now] and
    begins its execution; no other item and nothing of the backlog
    changes. *)
Definition startsEarliest (now : Z) (p : t) (ref : nat) : Prop :=
  ref ∈ queue p
  ∧ (∃ it it',
        objs p !! ref = Some it
        ∧ Item.id it = ref
        ∧ Item.status it = Queued ∧ Item.isPaused it = false
        ∧ objs (processQueue now p) !! ref = Some it'
        ∧ Item.status it' = Active
        ∧ Item.startTime it' = Some now
        ∧ sameTransfer it it')
  ∧ (∀ r it, r ∈ queue p → objs p !! r = Some it →
       Item.status it = Queued → Item.isPaused it = false → ref ≤ r)
  ∧ (∀ r, r ≠ ref → objs (processQueue now p) !! r = objs p !! r)
  ∧ queue (processQueue now p) = queue p
  ∧ running (processQueue now p) = running p ++ [ref]
  ∧ ref ∈ activeTransfers (processQueue now p).

(** The pass starts nothing and changes nothing, the queue being paused,
    or [maxConcurrent] active items being under way, or no item of the
    backlog being queued and not paused. *)
Definition startsNothing (now : Z) (p : t) : Prop :=
  objs (processQueue now p) = objs p
  ∧ queue (processQueue now p) = queue p
  ∧ running (processQueue now p) = running p
  ∧ activeTransfers (processQueue now p) = activeTransfers p
  ∧ (isPaused p = true
     ∨ maxConcurrent p ≤ countActive (objs p) (activeTransfers p)
     ∨ ∀ r it, r ∈ queue p → objs p !! r = Some it →
         Item.status it = Queued → Item.isPaused it = true).

Definition passSelects (now : Z) (p : t) : Prop :=
  (∃ ref, startsEarliest now p ref) ∨ startsNothing now p.

(** The operation that ends in [s'] has run one scheduling pass, on the
    queue [p]. *)
Definition runsPass (now : Z) (p s' : t) : Prop :=
  s' = processQueue now p
  ∧ passes s' = S (passes p)
  ∧ passSelects now p.

(** The queue at the call of [processQueue] in [addTransfer]: the new item
    is at the end of the backlog. *)
Definition enqueued (transfer : Transfer) (s : t) : t :=
  {| objs :=
       <[S (queueId s) :=
           {| Item.id := S (queueId s);
              Item.type := t_type transfer;
              Item.localPath := t_localPath transfer;
              Item.remotePath := t_remotePath transfer;
              Item.size := match t_size transfer with
                           | Some n => JS.or n (JS.of_Z 0)
                           | None => JS.of_Z 0
                           end;
              Item.connectionId := t_connectionId transfer;
              Item.status := Queued;
              Item.progress := JS.of_Z 0;
              Item.speed := JS.of_Z 0;
              Item.startTime := None;
              Item.error := None;
              Item.isPaused := false |}]> (objs s);
     queue := queue s ++ [S (queueId s)];
     activeTransfers := activeTransfers s;
     maxConcurrent := maxConcurrent s; isPaused := isPaused s;
     queueId := S (queueId s); running := running s; timers := timers s;
     outbox := outbox s; passes := passes s |}.

(** The queue at the call of [processQueue] in [resumeTransfer]: the item
    is queued again. *)
Definition requeued (transferId : nat) (s : t) : t :=
  update transferId
    (λ it, Item.set_status Queued (Item.set_isPaused false it)) s.

(** The queue at the call of [processQueue] in [cancelTransfer]: the item
    is cancelled and no longer a key of [activeTransfers]. *)
Definition struck (transferId : nat) (s : t) : t :=
  let s1 := if hasStatus Active (objs s) transferId
            then post (Send "cancel-transfer" transferId) s else s in
  let s2 := update transferId (Item.set_status Cancelled) s1 in
  withActive (mapDelete transferId (activeTransfers s2)) s2.

(** The queue at the call of [processQueue] by a timer, [n] timers being
    left. *)
Definition ticked (n : nat) (s : t) : t :=
  {| objs := objs s; queue := queue s; activeTransfers := activeTransfers s;
     maxConcurrent := maxConcurrent s; isPaused := isPaused s;
     queueId := queueId s; running := running s; timers := n;
     outbox := outbox s; passes := passes s |}.

(** An upload of 1000 bytes, and the default queue after five of them. *)
Definition anUpload : Transfer :=
  {| t_type := Upload; t_localPath := "/home/u/a.bin";
     t_remotePath := "/srv/a.bin"; t_size := Some (JS.of_Z 1000);
     t_connectionId := "c2" |}.

Definition fiveUploads : t :=
  run [EvAdd anUpload 0; EvAdd anUpload 1; EvAdd anUpload 2;
       EvAdd anUpload 3; EvAdd anUpload 4] new.

(** Five uploads, the first of which is then paused: the items 2 and 3
    are active, 4 and 5 wait. *)
Definition fiveThenPause : list Event :=
  [EvAdd anUpload 0; EvAdd anUpload 1; EvAdd anUpload 2;
   EvAdd anUpload 3; EvAdd anUpload 4; EvPause 1].

End QueueSpec.

(** ** A first chunk of a transfer *)

Module StepSpec.
Import JS ConnectionManager.

(** The first 64 KiB of a 100000-byte file, one second after the start. *)
Definition firstChunk : Chunk :=
  {| total_transferred := 65536; chunk_total := 100000;
     now1 := 1000; now2 := 1000 |}.

Definition freshStep : StepState :=
  {| lastTime := 0; lastTransferred := 0; startTime := 0;
     totalTransferred := 0 |}.

End StepSpec.

(** ** An upload under way *)

Module EngineSpec.
Import TransferQueue.

(** The item of [QueueSpec.anUpload] once started at clock 0, and a
    registry whose session [c2] is an FTP one. *)
Definition startedUpload : Item.t :=
  Item.set_startTime 0
    (Item.set_status Active
       (Item.mk 1 Upload "/home/u/a.bin" "/srv/a.bin"
          (JS.or (JS.of_Z 1000) (JS.of_Z 0)) "c2" Queued
          (JS.of_Z 0) (JS.of_Z 0) None None false)).

Definition ftpAtC2 : ConnectionManager.t :=
  snd (ConnectionManager.connect "c2"
         (ConnectionManager.mkConfig "ftp" "127.0.0.1" "user" false) None
         ConnectionManager.new).

End EngineSpec.

(** ** Live and paused items *)

Module QueueMoreSpec.
Import TransferQueue.

(** The states in which an item still takes part in scheduling. *)
Definition isLive (st : Status) : Prop :=
  st = Queued ∨ st = Active ∨ st = Paused.

(** The status of an item after a request to pause everything. *)
Definition pausedStatus (st : Status) : Status :=
  match st with
  | Active => Paused
  | _ => st
  end.

(** A global pause, then one upload enqueued: nothing runs. *)
Definition heldUpload : t :=
  run [EvPauseAll; EvAdd QueueSpec.anUpload 0] new.

(** Five uploads, the first of which then completes. *)
Definition firstSettled : list Event :=
  [EvAdd QueueSpec.anUpload 0; EvAdd QueueSpec.anUpload 1;
   EvAdd QueueSpec.anUpload 2; EvAdd QueueSpec.anUpload 3;
   EvAdd QueueSpec.anUpload 4; EvSettle 1 None].

(** [n] rounds of adding [transfer] and pausing the item just added. *)
Definition addAndPause (transfer : Transfer) (n : nat) : list Event :=
  flat_map (λ i, [EvAdd transfer 0; EvPause (S i)]) (seq 0 n).

(** The queue after [n] rounds of adding and pausing: every object is
    paused, and the executions of all of them are still awaited. *)
Record Piled (k n : nat) (s : t) : Prop := mkPiled {
  piled_queueId : queueId s = n;
  piled_queue : queue s = seq 1 n;
  piled_running : running s = seq 1 n;
  piled_isPaused : isPaused s = false;
  piled_max : maxConcurrent s = k;
  piled_inv : QueueSpec.Inv s;
  piled_some : ∀ ref, ref ∈ seq 1 n → is_Some (objs s !! ref);
  piled_objs : ∀ ref it, objs s !! ref = Some it → Item.status it = Paused
}.

End QueueMoreSpec.

(** ** Two directory trees *)

Module SyncSpec.
Import SyncPlan.

(** The actions of a plan of type [kind] on the file [p]. *)
Definition plans (kind : ActionType) (p : string) (actions : list Action.t)
    : Prop :=
  ∃ a, a ∈ actions ∧ Action.type a = kind ∧ Action.file a = p.

(** The two sides hold the same paths, and no file differs in size or is
    newer than the file of its path on the other side. *)
Definition inSync (localFiles remoteFiles : list File) : Prop :=
  (∀ f, f ∈ localFiles → path f ∈ path <$> remoteFiles)
  ∧ (∀ g, g ∈ remoteFiles → path g ∈ path <$> localFiles)
  ∧ ∀ f g, f ∈ localFiles → g ∈ remoteFiles → path f = path g →
      JS.eqb (size f) (size g) = true
      ∧ JS.gt (modified f) (modified g) = false
      ∧ JS.gt (modified g) (modified f) = false.

Definition joinSlash (a b : string) : string := a ++ "/" ++ b.

Definition report : File :=
  {| path := "report.txt"; size := JS.of_Z 10; modified := JS.of_Z 100 |}.

Definition notes : File :=
  {| path := "notes.txt"; size := JS.of_Z 20; modified := JS.of_Z 200 |}.

Definition bothWays : Options :=
  {| direction := "bidirectional"; deleteExtra := true;
     overwriteNewer := true; localPath := "/home/u"; remotePath := "/srv" |}.

Definition newerOnly : Options :=
  {| direction := "bidirectional"; deleteExtra := true;
     overwriteNewer := false; localPath := "/home/u"; remotePath := "/srv" |}.

End SyncSpec.

(** ** The permissions dialog, the log and the bookmarks *)

Module DialogSpec.
Import Permissions.

(** The dialog showing mode 640: owner may read and write, the group
    may read. *)
Definition mode640 : Dialog :=
  {| perm_octal := "640";
     owner_read := false; owner_write := false; owner_execute := false;
     group_read := false; group_write := false; group_execute := false;
     other_read := false; other_write := false; other_execute := false |}.

End DialogSpec.

Module LogSpec.
Import ActivityLogger.

(** The entry [addLog] builds from its arguments. *)
Definition entryOf (idOf : Q) (time type message : string)
    (details : list (string * string)) : LogEntry :=
  {| id := idOf; timestamp := time; type := type; message := message;
     details := details |}.

(** A logger that keeps two entries and holds two. *)
Definition fullLog : t :=
  {| logs := [entryOf 1 "t1" "info" "connected" [];
              entryOf 2 "t2" "upload" "a.bin" []];
     maxLogs := 2; activityLogs := None |}.

End LogSpec.

Module BookmarkSpec.
Import BookmarksManager.

(** No two local bookmarks share a path, and no two remote bookmarks share
    a path and a host. *)
Definition Unique (s : t) : Prop :=
  NoDup (path <$> localBookmarks s)
  ∧ NoDup ((λ b, (path b, host b)) <$> remoteBookmarks s).

(** No bookmark of the store has the id [uuid]. *)
Definition freshId (uuid : string) (s : t) : Prop :=
  (uuid ∉ id <$> localBookmarks s) ∧ (uuid ∉ id <$> remoteBookmarks s).

Definition lastSegment (p : string) : string := p.

Definition home : Request :=
  {| r_name := None; r_path := "/home/u"; r_host := None |}.

Definition oneBookmark : t :=
  snd (addLocalBookmark lastSegment "id-1" "2024-01-01" home new).

Definition someCalls : list Call :=
  [AddLocal "id-2" "2024-01-02" home;
   AddRemote "id-3" "2024-01-03"
     {| r_name := Some "srv"; r_path := "/srv"; r_host := Some "h" |};
   Rename "id-1" "Home" false;
   DeleteLocal "id-2"].

End BookmarkSpec.

(** * Properties *)

(** ** Arithmetic of the number model *)

Module JSFacts.
Import JS.

Lemma Qle_bool_false_flip (p q : Q) :
  Qle_bool p q = false → Qle_bool q p = true.
Proof.
  intros H. apply Qle_bool_iff.
  destruct (Qlt_le_dec q p) as [Hlt | Hle].
  - by apply Qlt_le_weak.
  - apply Qle_bool_iff in Hle. congruence.
Qed.

Lemma Qle_bool_refl (p : Q) : Qle_bool p p = true.
Proof. apply Qle_bool_iff, Qle_refl. Qed.

Lemma or_infinity_not_NaN (v : option num) : or_infinity v ≠ NaN.
Proof.
  destruct v as [[| | |q]|]; cbn; try done.
  unfold or; cbn. by destruct (negb _).
Qed.

Lemma or_infinity_truthy (v : num) :
  truthy v = true → or_infinity (Some v) = v.
Proof. intros H. cbn. unfold or. by rewrite H. Qed.

Lemma or_infinity_falsy (v : num) :
  truthy v = false → or_infinity (Some v) = PInf.
Proof. intros H. cbn. unfold or. by rewrite H. Qed.

Lemma min_le_l (a b : num) : a ≠ NaN → b ≠ NaN → le (min a b) a = true.
Proof.
  destruct a as [| | |p], b as [| | |q]; cbn; try done.
  - intros _ _. apply Qle_bool_refl.
  - intros _ _. destruct (Qle_bool p q) eqn:E; cbn.
    + apply Qle_bool_refl.
    + by apply Qle_bool_false_flip.
Qed.

Lemma min_le_r (a b : num) : a ≠ NaN → b ≠ NaN → le (min a b) b = true.
Proof.
  destruct a as [| | |p], b as [| | |q]; cbn; try done.
  - intros _ _. apply Qle_bool_refl.
  - intros _ _. destruct (Qle_bool p q) eqn:E; cbn; [done |].
    apply Qle_bool_refl.
Qed.

Lemma min_cases (a b : num) : min a b = a ∨ min a b = b.
Proof.
  destruct a as [| | |p], b as [| | |q]; cbn; auto.
  destruct (Qle_bool p q); auto.
Qed.

Lemma is_zero_1000 : is_zero (inject_Z 1000) = false.
Proof. reflexivity. Qed.

(** Milliseconds to seconds. *)
Lemma div_1000 (z : Z) :
  div (of_Z z) (of_Z 1000) = Fin (inject_Z z / inject_Z 1000).
Proof. reflexivity. Qed.

Lemma seconds_pos (z : Z) :
  Qle_bool (inject_Z z / inject_Z 1000) (inject_Z 0) = negb (0 <? z)%Z.
Proof.
  destruct (0 <? z)%Z eqn:E; cbn.
  - apply Z.ltb_lt in E.
    destruct (Qle_bool _ _) eqn:F; [| done].
    apply Qle_bool_iff in F. unfold Qle in F. cbn in F. lia.
  - apply Z.ltb_ge in E. apply Qle_bool_iff. unfold Qle. cbn. lia.
Qed.

Lemma seconds_nonzero (z : Z) :
  (0 < z)%Z → is_zero (inject_Z z / inject_Z 1000) = false.
Proof.
  intros Hz. unfold is_zero.
  destruct (Qeq_bool _ _) eqn:F; [| done].
  apply Qeq_bool_iff in F. unfold Qeq in F. cbn in F. lia.
Qed.

End JSFacts.

(** ** Rounding to binary64 *)

Module RoundingFacts.
Import JS.

Local Open Scope Q_scope.

Lemma pow2_pos (e : Z) : 0 < 2 ^ e.
Proof. by apply Qpower_0_lt. Qed.

Lemma pow2_le (e1 e2 : Z) : (e1 ≤ e2)%Z → 2 ^ e1 <= 2 ^ e2.
Proof. intros H. by apply Qpower_le_compat_l. Qed.

Lemma pow2_lt (e1 e2 : Z) : (e1 < e2)%Z → 2 ^ e1 < 2 ^ e2.
Proof. intros H. by apply Qpower_lt_compat_l. Qed.

Lemma pow2_lt_inv (e1 e2 : Z) : 2 ^ e1 < 2 ^ e2 → (e1 < e2)%Z.
Proof. intros H. by apply (Qpower_lt_compat_l_inv 2). Qed.

Lemma pow2_add (e1 e2 : Z) : 2 ^ (e1 + e2) == 2 ^ e1 * 2 ^ e2.
Proof. by apply Qpower_plus. Qed.

Lemma pow2_Z (e : Z) : (0 ≤ e)%Z → inject_Z (2 ^ e) == 2 ^ e.
Proof. intros H. by rewrite Zpower_Qpower. Qed.

(** [ilog2 a] is the binary exponent of [a]. *)
Lemma ilog2_spec (a : Q) :
  0 < a → 2 ^ ilog2 a <= a ∧ a < 2 ^ (ilog2 a + 1).
Proof.
  intros Ha. destruct a as [n d]. unfold Qlt in Ha. cbn in Ha.
  assert (Hn : (0 < n)%Z) by lia.
  pose proof (Z.log2_spec n Hn) as [Hn1 Hn2].
  pose proof (Z.log2_spec (Z.pos d) (Pos2Z.is_pos d)) as [Hd1 Hd2].
  pose proof (Z.log2_nonneg n) as Hi. pose proof (Z.log2_nonneg (Z.pos d)) as Hj.
  set (i := Z.log2 n) in *. set (j := Z.log2 (Z.pos d)) in *.
  assert (Hq : n # d == inject_Z n / inject_Z (Z.pos d)) by apply Qmake_Qdiv.
  assert (Hdpos : 0 < inject_Z (Z.pos d)) by (unfold Qlt; cbn; lia).
  assert (Hlow : 2 ^ (i - j - 1) <= n # d).
  { rewrite Hq. apply Qle_shift_div_l; [done |].
    apply Qle_trans with (2 ^ (i - j - 1) * 2 ^ (j + 1)).
    - apply Qmult_le_l; [apply pow2_pos |].
      rewrite <- pow2_Z by lia. rewrite <- Zle_Qle. lia.
    - rewrite <- pow2_add. replace (i - j - 1 + (j + 1))%Z with i by lia.
      rewrite <- pow2_Z by lia. rewrite <- Zle_Qle. lia. }
  assert (Hhigh : n # d < 2 ^ (i - j + 1)).
  { rewrite Hq. apply Qlt_shift_div_r; [done |].
    apply Qlt_le_trans with (2 ^ (i - j + 1) * 2 ^ j).
    - rewrite <- pow2_add. replace (i - j + 1 + j)%Z with (i + 1)%Z by lia.
      rewrite <- pow2_Z by lia. rewrite <- Zlt_Qlt. lia.
    - apply Qmult_le_l; [apply pow2_pos |].
      rewrite <- pow2_Z by lia. rewrite <- Zle_Qle. lia. }
  unfold ilog2. cbn [Qnum Qden]. fold i j.
  destruct (Qle_bool (2 ^ (i - j)) (n # d)) eqn:E.
  - apply Qle_bool_iff in E. done.
  - replace (i - j - 1 + 1)%Z with (i - j)%Z by lia. split; [done |].
    apply Qnot_le_lt. intros H. apply Qle_bool_iff in H. congruence.
Qed.

Lemma ilog2_unique (a : Q) (k : Z) :
  2 ^ k <= a → a < 2 ^ (k + 1) → ilog2 a = k.
Proof.
  intros H1 H2.
  assert (Ha : 0 < a) by (eapply Qlt_le_trans; [apply (pow2_pos k) | done]).
  destruct (ilog2_spec a Ha) as [H3 H4].
  assert (k < ilog2 a + 1)%Z
    by (apply pow2_lt_inv; eapply Qle_lt_trans; eassumption).
  assert (ilog2 a < k + 1)%Z
    by (apply pow2_lt_inv; eapply Qle_lt_trans; eassumption).
  lia.
Qed.

Lemma ilog2_mono (a b : Q) : 0 < a → a <= b → (ilog2 a ≤ ilog2 b)%Z.
Proof.
  intros Ha Hab.
  assert (Hb : 0 < b) by (eapply Qlt_le_trans; eassumption).
  destruct (ilog2_spec a Ha) as [H1 _]. destruct (ilog2_spec b Hb) as [_ H2].
  assert (ilog2 a < ilog2 b + 1)%Z; [| lia].
  apply pow2_lt_inv. eapply Qle_lt_trans; [exact H1 |].
  eapply Qle_lt_trans; eassumption.
Qed.

Lemma ulpExp_mono (a b : Q) : 0 < a → a <= b → (ulpExp a ≤ ulpExp b)%Z.
Proof. intros Ha Hab. pose proof (ilog2_mono a b Ha Hab). unfold ulpExp. lia. Qed.

(** *** Rounding to the nearest integer, ties to even *)

Lemma roundHalfEven_cases (x : Q) :
  roundHalfEven x = Qfloor x ∨ roundHalfEven x = (Qfloor x + 1)%Z.
Proof.
  unfold roundHalfEven. destruct (_ ?= _); [destruct (Z.even _) | |]; auto.
Qed.

Lemma roundHalfEven_bounds (x : Q) :
  x - (1 # 2) <= inject_Z (roundHalfEven x)
  ∧ inject_Z (roundHalfEven x) <= x + (1 # 2).
Proof.
  pose proof (Qfloor_le x) as Hf. pose proof (Qlt_floor x) as Hc.
  rewrite inject_Z_plus in Hc. change (inject_Z 1) with 1 in Hc.
  unfold roundHalfEven.
  destruct (Qcompare (x - inject_Z (Qfloor x)) (1 # 2)) eqn:E;
    [apply (proj2 (Qeq_alt _ _)) in E; destruct (Z.even _)
    | apply (proj2 (Qlt_alt _ _)) in E | apply (proj2 (Qgt_alt _ _)) in E];
    rewrite ?inject_Z_plus; change (inject_Z 1) with 1;
    set (f := inject_Z (Qfloor x)) in *; clearbody f; split; lra.
Qed.

Lemma roundHalfEven_Z (z : Z) : roundHalfEven (inject_Z z) = z.
Proof.
  unfold roundHalfEven. rewrite Qfloor_Z.
  assert (H : Qcompare (inject_Z z - inject_Z z) (1 # 2) = Lt).
  { apply (proj1 (Qlt_alt _ _)). set (f := inject_Z z). clearbody f. lra. }
  by rewrite H.
Qed.

Lemma roundHalfEven_mono (x y : Q) :
  x <= y → (roundHalfEven x ≤ roundHalfEven y)%Z.
Proof.
  intros Hxy. pose proof (Qfloor_resp_le x y Hxy) as Hf.
  destruct (Z.eq_dec (Qfloor x) (Qfloor y)) as [Heq | Hne].
  - unfold roundHalfEven. rewrite <- Heq.
    set (f := inject_Z (Qfloor x)).
    destruct (Qcompare (x - f) (1 # 2)) eqn:Ex;
      destruct (Qcompare (y - f) (1 # 2)) eqn:Ey;
      try (destruct (Z.even (Qfloor x))); try lia;
      try apply (proj2 (Qeq_alt _ _)) in Ex; try apply (proj2 (Qlt_alt _ _)) in Ex; try apply (proj2 (Qgt_alt _ _)) in Ex;
      try apply (proj2 (Qeq_alt _ _)) in Ey; try apply (proj2 (Qlt_alt _ _)) in Ey; try apply (proj2 (Qgt_alt _ _)) in Ey;
      exfalso; clearbody f; lra.
  - destruct (roundHalfEven_cases x) as [-> | ->],
      (roundHalfEven_cases y) as [-> | ->]; lia.
Qed.

(** *** The nearest double of a positive rational *)

Lemma scaled_bounds (a : Q) :
  0 < a → a / 2 ^ ulpExp a < 2 ^ 53
  ∧ ((-1074 < ulpExp a)%Z → 2 ^ 52 <= a / 2 ^ ulpExp a).
Proof.
  intros Ha. destruct (ilog2_spec a Ha) as [H1 H2].
  pose proof (pow2_pos (ulpExp a)) as Hp.
  split.
  - apply Qlt_shift_div_r; [done |]. rewrite <- pow2_add.
    eapply Qlt_le_trans; [exact H2 |]. apply pow2_le. unfold ulpExp. lia.
  - intros He. apply Qle_shift_div_l; [done |]. rewrite <- pow2_add.
    eapply Qle_trans; [| exact H1]. apply pow2_le. unfold ulpExp in *. lia.
Qed.

Lemma nearest_upper (a : Q) : 0 < a → nearest a <= 2 ^ (ulpExp a + 53).
Proof.
  intros Ha. destruct (scaled_bounds a Ha) as [H _].
  unfold nearest. rewrite Z.add_comm, pow2_add.
  apply Qmult_le_compat_r; [| apply Qlt_le_weak, pow2_pos].
  rewrite <- (pow2_Z 53) by lia. rewrite <- Zle_Qle.
  rewrite <- (roundHalfEven_Z (2 ^ 53)). apply roundHalfEven_mono.
  rewrite pow2_Z by lia. by apply Qlt_le_weak.
Qed.

Lemma nearest_lower (a : Q) :
  0 < a → (-1074 < ulpExp a)%Z → 2 ^ (ulpExp a + 52) <= nearest a.
Proof.
  intros Ha He. destruct (scaled_bounds a Ha) as [_ H]. specialize (H He).
  unfold nearest. rewrite Z.add_comm, pow2_add.
  apply Qmult_le_compat_r; [| apply Qlt_le_weak, pow2_pos].
  rewrite <- (pow2_Z 52) by lia. rewrite <- Zle_Qle.
  rewrite <- (roundHalfEven_Z (2 ^ 52)). apply roundHalfEven_mono.
  by rewrite pow2_Z by lia.
Qed.

Lemma nearest_nonneg (a : Q) : 0 < a → 0 <= nearest a.
Proof.
  intros Ha. unfold nearest. apply Qmult_le_0_compat;
    [| apply Qlt_le_weak, pow2_pos].
  change 0 with (inject_Z 0). rewrite <- Zle_Qle.
  rewrite <- (roundHalfEven_Z 0). apply roundHalfEven_mono.
  change (inject_Z 0) with 0. apply Qlt_le_weak.
  apply Qlt_shift_div_l; [apply pow2_pos | lra].
Qed.

Lemma nearest_mono (a b : Q) : 0 < a → a <= b → nearest a <= nearest b.
Proof.
  intros Ha Hab.
  assert (Hb : 0 < b) by (eapply Qlt_le_trans; eassumption).
  pose proof (ulpExp_mono a b Ha Hab) as He.
  destruct (Z.eq_dec (ulpExp a) (ulpExp b)) as [Heq | Hne].
  - unfold nearest. rewrite Heq.
    apply Qmult_le_compat_r; [| apply Qlt_le_weak, pow2_pos].
    rewrite <- Zle_Qle. apply roundHalfEven_mono.
    apply Qmult_le_compat_r; [done |].
    apply Qlt_le_weak, Qinv_lt_0_compat, pow2_pos.
  - eapply Qle_trans; [by apply nearest_upper |].
    eapply Qle_trans; [| apply nearest_lower; [done | unfold ulpExp in *; lia]].
    apply pow2_le. lia.
Qed.

(** The order of the values, with the infinities. *)
Lemma round64_pos (q : Q) :
  0 < q →
  round64 q = (if Qle_bool (2 ^ 1024) (nearest q) then PInf else Fin (nearest q)).
Proof. intros H. unfold round64. apply (proj1 (Qgt_alt _ _)) in H. by rewrite H. Qed.

Lemma round64_neg (q : Q) :
  q < 0 →
  round64 q = (if Qle_bool (2 ^ 1024) (nearest (- q)) then NInf
               else Fin (- nearest (- q))).
Proof. intros H. unfold round64. apply (proj1 (Qlt_alt _ _)) in H. by rewrite H. Qed.

Lemma round64_zero (q : Q) : q == 0 → round64 q = Fin 0.
Proof. intros H. unfold round64. apply (proj1 (Qeq_alt _ _)) in H. by rewrite H. Qed.

Lemma Qle_bool_false (p q : Q) : Qle_bool p q = false → q < p.
Proof.
  intros H. apply Qnot_le_lt. intros H'. apply Qle_bool_iff in H'. congruence.
Qed.

(** Rounding is monotone. *)
Lemma round64_mono (p q : Q) : p <= q → le (round64 p) (round64 q) = true.
Proof.
  intros Hpq.
  destruct (Q_dec p 0) as [[Hp | Hp] | Hp], (Q_dec q 0) as [[Hq | Hq] | Hq];
    try (exfalso; lra).
  - rewrite (round64_neg p Hp), (round64_neg q Hq).
    assert (H : nearest (- q) <= nearest (- p)) by (apply nearest_mono; lra).
    destruct (Qle_bool (2 ^ 1024) (nearest (- p))) eqn:E1;
      destruct (Qle_bool (2 ^ 1024) (nearest (- q))) eqn:E2; try reflexivity.
    + apply Qle_bool_iff in E2. apply Qle_bool_false in E1. exfalso. lra.
    + cbn. apply Qle_bool_iff. lra.
  - rewrite (round64_neg p Hp), (round64_pos q Hq).
    destruct (Qle_bool (2 ^ 1024) (nearest (- p)));
      destruct (Qle_bool (2 ^ 1024) (nearest q)); try reflexivity.
    cbn. apply Qle_bool_iff.
    assert (0 <= nearest (- p)) by (apply nearest_nonneg; lra).
    pose proof (nearest_nonneg q Hq). lra.
  - rewrite (round64_neg p Hp), (round64_zero q Hq).
    destruct (Qle_bool (2 ^ 1024) (nearest (- p))); [reflexivity |].
    cbn. apply Qle_bool_iff.
    assert (0 <= nearest (- p)) by (apply nearest_nonneg; lra). lra.
  - rewrite (round64_pos p Hp), (round64_pos q Hq).
    assert (H : nearest p <= nearest q) by (by apply nearest_mono).
    destruct (Qle_bool (2 ^ 1024) (nearest p)) eqn:E1;
      destruct (Qle_bool (2 ^ 1024) (nearest q)) eqn:E2; try reflexivity.
    + apply Qle_bool_iff in E1. apply Qle_bool_false in E2. exfalso. lra.
    + cbn. by apply Qle_bool_iff.
  - rewrite (round64_zero p Hp), (round64_pos q Hq).
    destruct (Qle_bool (2 ^ 1024) (nearest q)); [reflexivity |].
    cbn. apply Qle_bool_iff. by apply nearest_nonneg.
  - rewrite (round64_zero p Hp), (round64_zero q Hq). reflexivity.
Qed.

(** Rounding never gives [NaN], and keeps the sign. *)
Lemma round64_not_NaN (q : Q) : round64 q ≠ NaN.
Proof.
  unfold round64. destruct (Qcompare q 0); [done | |];
    by destruct (Qle_bool _ _).
Qed.

Lemma round64_nonneg (q : Q) : 0 <= q → le (Fin 0) (round64 q) = true.
Proof.
  intros Hq. rewrite <- (round64_zero 0) by reflexivity.
  by apply round64_mono.
Qed.

(** A rational between two rationals that round to finite numbers rounds
    to a finite number between them. *)
Lemma round64_between (lo q hi vl vh : Q) :
  round64 lo = Fin vl → round64 hi = Fin vh → lo <= q → q <= hi →
  ∃ v, round64 q = Fin v ∧ vl <= v ∧ v <= vh.
Proof.
  intros Hlo Hhi H1 H2.
  pose proof (round64_mono lo q H1) as Hl.
  pose proof (round64_mono q hi H2) as Hh.
  rewrite Hlo in Hl. rewrite Hhi in Hh.
  destruct (round64 q) as [| | | v]; try done.
  exists v. split; [done |]. cbn in Hl, Hh.
  by split; apply Qle_bool_iff.
Qed.

(** The integers met in the percent of a transfer are binary64 numbers. *)
Lemma round64_0 : round64 0 = Fin 0.
Proof. reflexivity. Qed.

Lemma round64_1 : ∃ v, round64 1 = Fin v ∧ v == 1.
Proof. eexists. split; [vm_compute; reflexivity | reflexivity]. Qed.

Lemma round64_100 : ∃ v, round64 100 = Fin v ∧ v == 100.
Proof. eexists. split; [vm_compute; reflexivity | reflexivity]. Qed.

(** Rounding at known binary64 values: one tenth, the ties above
    [2 ^ 53] (to the even neighbour), the largest finite number and the
    overflow threshold, the smallest subnormal and half of it. *)
Example round64_known_values :
  eqb (round64 (1 # 10)) (Fin (3602879701896397 # 36028797018963968)) = true
  ∧ eqb (round64 (2 ^ 53 + 1)) (Fin (2 ^ 53)) = true
  ∧ eqb (round64 (2 ^ 53 + 3)) (Fin (2 ^ 53 + 4)) = true
  ∧ eqb (round64 (2 ^ 1024 - 2 ^ 971)) (Fin (2 ^ 1024 - 2 ^ 971)) = true
  ∧ round64 (2 ^ 1024 - 2 ^ 970) = PInf
  ∧ eqb (round64 (2 ^ (-1074))) (Fin (2 ^ (-1074))) = true
  ∧ eqb (round64 (2 ^ (-1075))) (Fin 0) = true.
Proof. by vm_compute. Qed.

(** The values a throttle meets at the boundary of its budget: 9 ms at
    100000 B/s allow a little less than 900 bytes, and 23 of 40 bytes are a
    little less than 57.5 percent. *)
Example rounding_at_the_boundary :
  mul64 (div64 (of_Z 9) (of_Z 1000)) (of_Z 100000)
  = Fin (7916483719987199 # 8796093022208)
  ∧ gt (of_Z 900) (mul64 (div64 (of_Z 9) (of_Z 1000)) (of_Z 100000)) = true
  ∧ round (mul64 (div64 (of_Z 23) (of_Z 40)) (of_Z 100)) = of_Z 57.
Proof. by vm_compute. Qed.

(** *** The error of a rounding *)

Lemma nearest_error (a : Q) :
  0 < a →
  a - (1 # 2) * 2 ^ ulpExp a <= nearest a
  ∧ nearest a <= a + (1 # 2) * 2 ^ ulpExp a.
Proof.
  intros Ha. pose proof (pow2_pos (ulpExp a)) as HP.
  destruct (roundHalfEven_bounds (a / 2 ^ ulpExp a)) as [Hl Hh].
  unfold nearest.
  set (P := 2 ^ ulpExp a) in *.
  set (m := inject_Z (roundHalfEven (a / P))) in *. clearbody m.
  assert (Ha' : a == a / P * P) by (field; lra).
  set (x := a / P) in *. clearbody x. clearbody P.
  assert (H1 : (x - (1 # 2)) * P <= m * P)
    by (apply Qmult_le_compat_r; lra).
  assert (H2 : m * P <= (x + (1 # 2)) * P)
    by (apply Qmult_le_compat_r; lra).
  assert (E1 : (x - (1 # 2)) * P == x * P - (1 # 2) * P) by ring.
  assert (E2 : (x + (1 # 2)) * P == x * P + (1 # 2) * P) by ring.
  rewrite E1 in H1. rewrite E2 in H2. rewrite Ha'. split; lra.
Qed.

(** Half a unit in the last place is at most [2 ^ (-53)] of the number,
    or [2 ^ (-1075)] among the subnormal numbers. *)
Lemma half_ulp (a : Q) :
  0 < a → (1 # 2) * 2 ^ ulpExp a <= a * 2 ^ (-53) + 2 ^ (-1075).
Proof.
  intros Ha. destruct (ilog2_spec a Ha) as [H1 _].
  pose proof (pow2_pos (-53)) as Hu. pose proof (pow2_pos (-1075)) as He.
  assert (Hhalf : ∀ e, (1 # 2) * 2 ^ e == 2 ^ (e - 1)).
  { intros e. unfold Z.sub. rewrite pow2_add.
    change (2 ^ (- (1))) with (1 # 2). set (P := 2 ^ e). ring. }
  rewrite Hhalf.
  destruct (Z.le_gt_cases (ilog2 a - 52) (-1074)) as [Hs | Hn].
  - replace (ulpExp a) with (-1074)%Z by (unfold ulpExp; lia).
    change (-1074 - 1)%Z with (-1075)%Z.
    assert (0 <= a * 2 ^ (-53)) by (apply Qmult_le_0_compat; lra).
    lra.
  - replace (ulpExp a) with (ilog2 a - 52)%Z by (unfold ulpExp; lia).
    replace (ilog2 a - 52 - 1)%Z with (ilog2 a + -53)%Z by lia.
    rewrite pow2_add.
    assert (2 ^ ilog2 a * 2 ^ (-53) <= a * 2 ^ (-53))
      by (apply Qmult_le_compat_r; lra).
    lra.
Qed.

(** A nonnegative rational either overflows, being at least [2 ^ 1023],
    or rounds to a nonnegative number within [2 ^ (-53)] of it, relatively,
    up to [2 ^ (-1075)]. *)
Lemma round64_approx (q : Q) :
  0 <= q →
  (round64 q = PInf ∧ 2 ^ 1023 <= q)
  ∨ ∃ v, round64 q = Fin v ∧ 0 <= v
         ∧ q - (q * 2 ^ (-53) + 2 ^ (-1075)) <= v
         ∧ v <= q + (q * 2 ^ (-53) + 2 ^ (-1075)).
Proof.
  intros Hq. destruct (Qle_lt_or_eq _ _ Hq) as [Hpos | Hz].
  - rewrite (round64_pos q Hpos).
    destruct (nearest_error q Hpos) as [Hl Hh].
    pose proof (half_ulp q Hpos) as Hu.
    pose proof (nearest_nonneg q Hpos) as H0.
    destruct (Qle_bool (2 ^ 1024) (nearest q)) eqn:E.
    + left. split; [done |]. apply Qle_bool_iff in E.
      assert (Hq1 : q * 2 ^ (-53) <= q * (1 # 2)).
      { apply Qmult_le_l; [done |]. by apply Qle_bool_iff. }
      assert (He : 2 ^ (-1075) <= (1 # 2) * 2 ^ 1023)
        by (by apply Qle_bool_iff).
      assert (H2 : 2 ^ 1024 == 2 * 2 ^ 1023) by reflexivity.
      set (A := 2 ^ 1024) in *. set (B := 2 ^ 1023) in *.
      set (qu := q * 2 ^ (-53)) in *. set (η := 2 ^ (-1075)) in *.
      set (h := (1 # 2) * 2 ^ ulpExp q) in *.
      set (n := nearest q) in *.
      clearbody A B qu η h n. lra.
    + right. exists (nearest q). split_and!; [done | done | lra | lra].
  - right. exists 0. rewrite round64_zero by (by symmetry).
    pose proof (pow2_pos (-53)). pose proof (pow2_pos (-1075)).
    split_and!; [done | lra | |].
    + rewrite <- Hz. lra.
    + rewrite <- Hz. lra.
Qed.

Lemma half_ulp_normal (a : Q) :
  2 ^ (-1022) <= a → (1 # 2) * 2 ^ ulpExp a <= a * 2 ^ (-53).
Proof.
  intros Hn.
  assert (Ha : 0 < a) by (eapply Qlt_le_trans; [apply (pow2_pos (-1022)) | done]).
  destruct (ilog2_spec a Ha) as [H1 H2].
  assert (Hl : (-1022 < ilog2 a + 1)%Z).
  { apply pow2_lt_inv. eapply Qle_lt_trans; eassumption. }
  replace (ulpExp a) with (ilog2 a - 52)%Z by (unfold ulpExp; lia).
  assert (Hh : (1 # 2) * 2 ^ (ilog2 a - 52) == 2 ^ ilog2 a * 2 ^ (-53)).
  { rewrite <- pow2_add. replace (ilog2 a + -53)%Z with (ilog2 a - 52 + -1)%Z
      by lia. rewrite pow2_add. change (2 ^ (-1)) with (1 # 2).
    set (P := 2 ^ (ilog2 a - 52)). ring. }
  rewrite Hh. apply Qmult_le_compat_r; [done |].
  apply Qlt_le_weak, pow2_pos.
Qed.

(** A rational of the normal range either overflows or rounds to a number
    within [2 ^ (-53)] of it, relatively. *)
Lemma round64_rel (q : Q) :
  2 ^ (-1022) <= q →
  (round64 q = PInf ∧ 2 ^ 1023 <= q)
  ∨ ∃ v, round64 q = Fin v
         ∧ q - q * 2 ^ (-53) <= v ∧ v <= q + q * 2 ^ (-53).
Proof.
  intros Hn.
  assert (Hpos : 0 < q)
    by (eapply Qlt_le_trans; [apply (pow2_pos (-1022)) | done]).
  destruct (round64_approx q (Qlt_le_weak _ _ Hpos)) as [H | (v & Hv & _)];
    [by left |].
  right. exists v. split; [done |].
  rewrite (round64_pos q Hpos) in Hv.
  destruct (Qle_bool (2 ^ 1024) (nearest q)); [done |].
  injection Hv as <-.
  destruct (nearest_error q Hpos) as [Hl Hh].
  pose proof (half_ulp_normal q Hn) as Hu.
  set (h := (1 # 2) * 2 ^ ulpExp q) in *. set (n := nearest q) in *.
  set (qu := q * 2 ^ (-53)) in *. clearbody h n qu. split; lra.
Qed.

(** The budget of a throttle as the machine computes it: the
    milliseconds divided by 1000, times the cap [r], each operation
    rounded. It is the exact budget up to a relative error below
    [2 ^ (-51)], unless it overflows. *)
Lemma budget64 (ms : Z) (r : Q) :
  (0 <= ms <= 2 ^ 53)%Z → 0 < r →
  (mul64 (div64 (of_Z ms) (of_Z 1000)) (Fin r) = PInf
   ∧ 2 ^ 1022 <= inject_Z ms / inject_Z 1000 * r)
  ∨ ∃ b, mul64 (div64 (of_Z ms) (of_Z 1000)) (Fin r) = Fin b
         ∧ 0 <= b
         ∧ inject_Z ms / inject_Z 1000 * r * (1 - 2 ^ (-52)) - 2 ^ (-1075)
           <= b
         ∧ b <= inject_Z ms / inject_Z 1000 * r * (1 + 3 * 2 ^ (-53))
                + 2 ^ (-1075).
Proof.
  intros [Hms0 Hms1] Hr.
  change (div64 (of_Z ms) (of_Z 1000))
    with (round64 (inject_Z ms / inject_Z 1000)).
  pose proof (pow2_pos (-1075)) as Hη.
  destruct (Z.eq_dec ms 0%Z) as [-> | Hne].
  - right. exists 0. rewrite round64_zero by reflexivity.
    assert (Hm : mul64 (Fin 0) (Fin r) = Fin 0).
    { unfold mul64, mul. cbn [rounded]. apply round64_zero. ring. }
    rewrite Hm. assert (Hz : inject_Z 0 / inject_Z 1000 * r == 0)
      by (unfold Qdiv; change (inject_Z 0) with 0; ring).
    rewrite Hz. split_and!; [done | done | lra | lra].
  - set (el := inject_Z ms / inject_Z 1000) in *.
    assert (Hel : 1 # 1000 <= el).
    { unfold el. apply Qle_shift_div_l; [done |].
      assert (inject_Z 1 <= inject_Z ms) by (rewrite <- Zle_Qle; lia).
      change (inject_Z 1) with 1 in *. change (inject_Z 1000) with 1000.
      lra. }
    assert (Hel2 : el <= 2 ^ 53).
    { unfold el. apply Qle_shift_div_r; [done |].
      assert (inject_Z ms <= inject_Z (2 ^ 53)) by (by rewrite <- Zle_Qle).
      change (inject_Z (2 ^ 53)) with (2 ^ 53) in *.
      change (inject_Z 1000) with 1000.
      assert (0 < 2 ^ 53) by apply pow2_pos. lra. }
    assert (Hn : 2 ^ (-1022) <= el).
    { eapply Qle_trans; [| exact Hel]. by apply Qle_bool_iff. }
    destruct (round64_rel el Hn) as [[_ Hbig] | (v & Hv & Hvl & Hvh)].
    { exfalso. assert (2 ^ 53 < 2 ^ 1023) by (by apply pow2_lt). lra. }
    rewrite Hv. change (mul64 (Fin v) (Fin r)) with (round64 (v * r)).
    change (2 ^ (-53)) with (1 # 9007199254740992) in Hvl, Hvh.
    assert (Hv0 : 0 < v) by lra.
    assert (Hp0 : 0 <= v * r) by (apply Qmult_le_0_compat; lra).
    assert (Hpl : el * r * (1 - (1 # 9007199254740992)) <= v * r).
    { assert (E : el * r * (1 - (1 # 9007199254740992))
                  == (el - el * (1 # 9007199254740992)) * r) by ring.
      rewrite E. apply Qmult_le_compat_r; lra. }
    assert (Hph : v * r <= el * r * (1 + (1 # 9007199254740992))).
    { assert (E : el * r * (1 + (1 # 9007199254740992))
                  == (el + el * (1 # 9007199254740992)) * r) by ring.
      rewrite E. apply Qmult_le_compat_r; lra. }
    assert (Hb0 : 0 <= el * r) by (apply Qmult_le_0_compat; lra).
    set (budget := el * r) in *. set (p := v * r) in *.
    destruct (round64_approx p Hp0) as [[HB Hbig] | (b & HB & Hb & Hbl & Hbh)].
    + left. split; [done |].
      assert (H2 : 2 ^ 1023 == 2 * 2 ^ 1022) by reflexivity.
      assert (0 < 2 ^ 1022) by apply pow2_pos.
      set (A := 2 ^ 1023) in *. set (B := 2 ^ 1022) in *.
      clearbody A B budget p. lra.
    + right. exists b. split_and!; [done | done | |].
      * change (2 ^ (-52)) with (1 # 4503599627370496).
        change (2 ^ (-53)) with (1 # 9007199254740992) in Hbl.
        set (η := 2 ^ (-1075)) in *. clearbody η budget p. lra.
      * change (2 ^ (-53)) with (1 # 9007199254740992) in Hbh |- *.
        set (η := 2 ^ (-1075)) in *. clearbody η budget p. lra.
Qed.

(** A byte count against the budget the machine computes: within the
    exact budget less [2 ^ (-51)] of it the count passes the test, and a
    count that passes is within the exact budget plus [2 ^ (-51)] of it. *)
Lemma budget_test (z ms : Z) (r : Q) :
  (0 <= ms <= 2 ^ 53)%Z → 0 < r →
  (inject_Z z <= inject_Z ms / inject_Z 1000 * r * (1 - 2 ^ (-51)) →
   le (of_Z z) (mul64 (div64 (of_Z ms) (of_Z 1000)) (Fin r)) = true)
  ∧ ((z <= 2 ^ 53)%Z →
     le (of_Z z) (mul64 (div64 (of_Z ms) (of_Z 1000)) (Fin r)) = true →
     inject_Z z <= inject_Z ms / inject_Z 1000 * r * (1 + 2 ^ (-51))).
Proof.
  intros Hms Hr.
  assert (Hb0 : 0 <= inject_Z ms / inject_Z 1000 * r).
  { apply Qmult_le_0_compat; [| lra]. apply Qle_shift_div_l; [done |].
    assert (inject_Z 0 <= inject_Z ms) by (rewrite <- Zle_Qle; lia).
    change (inject_Z 0) with 0 in *. lra. }
  assert (Hη : 2 ^ (-1075) <= 1 # 18014398509481984)
    by (by apply Qle_bool_iff).
  pose proof (pow2_pos (-1075)) as Hη0.
  assert (Hz : (z <= 0)%Z ∨ (1 <= z)%Z) by lia.
  assert (HzQ : (z <= 0)%Z → inject_Z z <= 0).
  { intros H. change 0 with (inject_Z 0). by rewrite <- Zle_Qle. }
  assert (HzQ1 : (1 <= z)%Z → 1 <= inject_Z z).
  { intros H. change 1 with (inject_Z 1). by rewrite <- Zle_Qle. }
  change (2 ^ (-51)) with (1 # 2251799813685248).
  destruct (budget64 ms r Hms Hr) as [[-> Hbig] | (b & -> & Hb & Hbl & Hbh)].
  - split; [done |]. intros Hz53 _.
    assert (inject_Z z <= 2 ^ 53).
    { change (2 ^ 53) with (inject_Z (2 ^ 53)). by rewrite <- Zle_Qle. }
    assert (2 ^ 53 <= 2 ^ 1022) by (by apply pow2_le).
    set (budget := inject_Z ms / inject_Z 1000 * r) in *.
    set (A := 2 ^ 53) in *. set (B := 2 ^ 1022) in *.
    set (zq := inject_Z z) in *. clearbody budget A B zq. lra.
  - change (2 ^ (-52)) with (1 # 4503599627370496) in Hbl.
    change (2 ^ (-53)) with (1 # 9007199254740992) in Hbh.
    set (budget := inject_Z ms / inject_Z 1000 * r) in *.
    set (η := 2 ^ (-1075)) in *.
    unfold of_Z, le. split.
    + intros Hle. apply Qle_bool_iff.
      destruct Hz as [Hz | Hz]; [apply HzQ in Hz | apply HzQ1 in Hz];
        set (zq := inject_Z z) in *; clearbody budget η zq; lra.
    + intros _ Hle%Qle_bool_iff.
      destruct Hz as [Hz | Hz]; [apply HzQ in Hz | apply HzQ1 in Hz];
        set (zq := inject_Z z) in *; clearbody budget η zq; lra.
Qed.

(** A nonnegative number stays one through the quotient by a positive
    rational and the product by 1000. *)
Lemma sub64_nonneg (z : Z) (b : Q) :
  b <= inject_Z z → le (Fin 0) (sub64 (of_Z z) (Fin b)) = true.
Proof.
  intros H. change (sub64 (of_Z z) (Fin b)) with (round64 (inject_Z z + - b)).
  apply round64_nonneg. lra.
Qed.

Lemma div64_nonneg (a : num) (r : Q) :
  0 < r → le (Fin 0) a = true → le (Fin 0) (div64 a (Fin r)) = true.
Proof.
  intros Hr Ha.
  assert (Hz : is_zero r = false).
  { unfold is_zero. destruct (Qeq_bool r 0) eqn:E; [| done].
    apply Qeq_bool_iff in E. lra. }
  assert (Hp : is_pos r = true).
  { unfold is_pos. destruct (Qle_bool r 0) eqn:E; [| done].
    apply Qle_bool_iff in E. lra. }
  destruct a as [| | | d]; try done.
  - unfold div64, div. rewrite Hz. unfold scale_inf. by rewrite Hz, Hp.
  - unfold div64, div. rewrite Hz. cbn [rounded]. apply round64_nonneg.
    cbn in Ha. apply Qle_bool_iff in Ha.
    apply Qle_shift_div_l; [done |]. lra.
Qed.

Lemma mul64_1000_nonneg (a : num) :
  le (Fin 0) a = true → le (Fin 0) (mul64 a (of_Z 1000)) = true.
Proof.
  intros Ha. destruct a as [| | | d]; try done.
  change (mul64 (Fin d) (of_Z 1000)) with (round64 (d * inject_Z 1000)).
  apply round64_nonneg. cbn in Ha. apply Qle_bool_iff in Ha.
  apply Qmult_le_0_compat; [done |]. by apply Qle_bool_iff.
Qed.

Lemma pos_factor (r : Q) : 0 < r → is_zero r = false ∧ is_pos r = true.
Proof.
  intros Hr. split.
  - unfold is_zero. destruct (Qeq_bool r 0) eqn:E; [| done].
    apply Qeq_bool_iff in E. lra.
  - unfold is_pos. destruct (Qle_bool r 0) eqn:E; [| done].
    apply Qle_bool_iff in E. lra.
Qed.

(** The budget under a positive cap is a number. *)
Lemma budget_not_NaN (ms : Z) (r : Q) :
  0 < r → mul64 (div64 (of_Z ms) (of_Z 1000)) (Fin r) ≠ NaN.
Proof.
  intros Hr. destruct (pos_factor r Hr) as [Hz Hp].
  change (div64 (of_Z ms) (of_Z 1000))
    with (round64 (inject_Z ms / inject_Z 1000)).
  destruct (round64 (inject_Z ms / inject_Z 1000)) as [| | | v] eqn:Ev.
  - by apply round64_not_NaN in Ev.
  - unfold mul64, mul, scale_inf. by rewrite Hz, Hp.
  - unfold mul64, mul, scale_inf. by rewrite Hz, Hp.
  - change (mul64 (Fin v) (Fin r)) with (round64 (v * r)).
    apply round64_not_NaN.
Qed.

(** Against a number, [>] is the negation of [<=]. *)
Lemma gt_not_le (a : Q) (b : num) :
  b ≠ NaN → gt (Fin a) b = negb (le (Fin a) b).
Proof. by destruct b. Qed.

End RoundingFacts.


(** ** The limit registry *)

Module SpeedLimitFacts.
Import JS SpeedLimitManager SpeedLimitSpec.

Lemma getLimit_stored (c d : string) (m : t) :
  getLimit c d m = or_infinity (storedCap c d m).
Proof.
  unfold getLimit, storedCap. by destruct (limits m !! c).
Qed.

Lemma storedCap_setLimit (c d : string) (v : num) (m : t) :
  storedCap c d (setLimit c d v m) = Some v.
Proof.
  unfold storedCap, setLimit; cbn.
  rewrite lookup_alter_eq.
  destruct (limits m !! c) as [o|] eqn:E; cbn.
  - rewrite E; cbn. apply lookup_insert_eq.
  - rewrite lookup_insert_eq; cbn. apply lookup_insert_eq.
Qed.

Lemma storedCap_setLimit_other (c d c' d' : string) (v : num) (m : t) :
  (c, d) ≠ (c', d') →
  storedCap c' d' (setLimit c d v m) = storedCap c' d' m.
Proof.
  intros Hne. unfold storedCap, setLimit; cbn.
  destruct (decide (c = c')) as [-> | Hc].
  - rewrite lookup_alter_eq.
    destruct (limits m !! c') as [o|] eqn:E; cbn.
    + rewrite E; cbn. rewrite lookup_insert_ne; [done | congruence].
    + rewrite lookup_insert_eq; cbn. rewrite lookup_insert_ne; [| congruence].
      by rewrite lookup_empty.
  - rewrite lookup_alter_ne by done.
    destruct (limits m !! c) eqn:E; [done |].
    by rewrite lookup_insert_ne.
Qed.

Lemma storedCap_setGlobalLimit (c d d' : string) (v : num) (m : t) :
  storedCap c d (setGlobalLimit d' v m) = storedCap c d m.
Proof. reflexivity. Qed.

Lemma storedGlobalCap_setGlobalLimit (d : string) (v : num) (m : t) :
  storedGlobalCap d (setGlobalLimit d v m) = Some v.
Proof. unfold storedGlobalCap, setGlobalLimit; cbn. apply lookup_insert_eq. Qed.

Lemma storedGlobalCap_setLimit (c d d' : string) (v : num) (m : t) :
  storedGlobalCap d' (setLimit c d v m) = storedGlobalCap d' m.
Proof. reflexivity. Qed.

Lemma storedCap_removeConnection (c d : string) (m : t) :
  storedCap c d (removeConnection c m) = None.
Proof. unfold storedCap, removeConnection; cbn. by rewrite lookup_delete_eq. Qed.

(** [removeConnection] itself evicts the entries of the connection. *)
Lemma getLimit_removeConnection (c d : string) (m : t) :
  getLimit c d (removeConnection c m) = PInf.
Proof. by rewrite getLimit_stored, storedCap_removeConnection. Qed.

Lemma capOrUnbounded_or_infinity (stored : option num) :
  or_infinity stored = capOrUnbounded stored.
Proof. by destruct stored. Qed.

(** C1, as stated, fails for a cap of 0: the registry holds 0 for the
    connection and nothing globally, the minimum of 0 and [+∞] is 0, and
    [getEffectiveLimit] answers [Infinity]. *)
Lemma getEffectiveLimit_zero_cap_counterexample :
  let m := setLimit "c1" "upload" (Fin 0) new in
  storedCap "c1" "upload" m = Some (Fin 0)
  ∧ storedGlobalCap "upload" m = None
  ∧ getEffectiveLimit "c1" "upload" m = PInf
  ∧ min (capAsStated (storedCap "c1" "upload" m))
        (capAsStated (storedGlobalCap "upload" m)) = Fin 0
  ∧ getEffectiveLimit "c1" "upload" m
    ≠ min (capAsStated (storedCap "c1" "upload" m))
          (capAsStated (storedGlobalCap "upload" m)).
Proof. vm_compute. by repeat split. Qed.

(** C1 (amended): for every content of the registry, [getEffectiveLimit]
    is the minimum of the per-connection cap and the global cap of the
    direction, where a cap that is absent or falsy (never set, 0, NaN) counts
    as [+∞]: it is below both caps and equal to one of them, and it is
    [Infinity] when neither is set. *)
Theorem getEffectiveLimit_is_min (m : t) (c d : string) :
  let cc := capOrUnbounded (storedCap c d m) in
  let gc := capOrUnbounded (storedGlobalCap d m) in
  let r := getEffectiveLimit c d m in
  r = min cc gc
  ∧ le r cc = true ∧ le r gc = true ∧ (r = cc ∨ r = gc)
  ∧ (storedCap c d m = None → storedGlobalCap d m = None → r = PInf).
Proof.
  cbn zeta. unfold getEffectiveLimit, globalLimit.
  rewrite getLimit_stored. fold (storedGlobalCap d m).
  rewrite !capOrUnbounded_or_infinity.
  assert (Hc : capOrUnbounded (storedCap c d m) ≠ NaN)
    by (rewrite <- capOrUnbounded_or_infinity; apply JSFacts.or_infinity_not_NaN).
  assert (Hg : capOrUnbounded (storedGlobalCap d m) ≠ NaN)
    by (rewrite <- capOrUnbounded_or_infinity; apply JSFacts.or_infinity_not_NaN).
  split_and!.
  - done.
  - by apply JSFacts.min_le_l.
  - by apply JSFacts.min_le_r.
  - apply JSFacts.min_cases.
  - by intros -> ->.
Qed.

Lemma getEffectiveLimit_is_min_witness :
  getEffectiveLimit "c1" "download" new = PInf.
Proof.
  refine (proj2 (proj2 (proj2 (proj2
            (getEffectiveLimit_is_min new "c1" "download")))) _ _);
    reflexivity.
Defined.

(** After the two setters, with caps that are truthy numbers, the effective
    cap is the smaller of the two values set. *)
Lemma getEffectiveLimit_after_sets (m : t) (c d : string) (v g : num) :
  truthy v = true → truthy g = true →
  getEffectiveLimit c d (setGlobalLimit d g (setLimit c d v m)) = min v g.
Proof.
  intros Hv Hg. unfold getEffectiveLimit, globalLimit.
  fold (storedGlobalCap d (setGlobalLimit d g (setLimit c d v m))).
  rewrite getLimit_stored, storedCap_setGlobalLimit, storedCap_setLimit,
    storedGlobalCap_setGlobalLimit.
  by rewrite !JSFacts.or_infinity_truthy.
Qed.

End SpeedLimitFacts.

(** ** The elapsed-budget throttle *)

Module SpeedLimiterFacts.
Import JS SpeedLimiter SpeedLimiterSpec.

(** The seconds elapsed, as the limiter has them: the quotient rounded. *)
Lemma elapsed_seconds (now : Z) (s : t) :
  elapsed now s = round64 (elapsedSeconds now s).
Proof. reflexivity. Qed.



(** Within the budget the chunk leaves at once: 1024 bytes, one second
    after the start, at 1024 B/s. *)
Example transform_within_budget :
  _transform 1024 1000 (new (Some (of_Z 1024)) None 0 0)
  = (Immediately, add_bytes 1024 (new (Some (of_Z 1024)) None 0 0)).
Proof. by vm_compute. Qed.

End SpeedLimiterFacts.


(** ** Sessions and their speed limits *)

Module ConnectionFacts.
Import JS ConnectionManager ConnectionSpec.

Lemma connectionLimit_getLimit (c d : string) (m : t) :
  isDirection d →
  connectionLimit d (getSpeedLimits c m)
  = SpeedLimitManager.getLimit c d (speedLimitManager m).
Proof. by intros [-> | ->]. Qed.

Lemma globalLimitOf_stored (c d : string) (m : t) :
  isDirection d →
  globalLimitOf d (getSpeedLimits c m)
  = or_infinity (SpeedLimitManager.storedGlobalCap d (speedLimitManager m)).
Proof. by intros [-> | ->]. Qed.

(** C7, as stated, fails for the value 0: it is stored, and read back as
    [Infinity], per connection and globally. *)
Lemma setSpeedLimit_zero_counterexample :
  connectionLimit "upload"
    (getSpeedLimits "c1" (setSpeedLimit "c1" "upload" (Fin 0) new)) = PInf
  ∧ globalLimitOf "download"
      (getSpeedLimits "c1" (setGlobalSpeedLimit "download" (Fin 0) new))
    = PInf
  ∧ connectionLimit "upload"
      (getSpeedLimits "c1" (setSpeedLimit "c1" "upload" (Fin 0) new))
    ≠ Fin 0.
Proof. vm_compute. by repeat split. Qed.

(** C7 (amended): a value that is truthy (a number other than 0 and NaN)
    set with [setSpeedLimit] or [setGlobalSpeedLimit] is read back unchanged
    by [getSpeedLimits], for every connection id and direction; a falsy
    value is read back as [Infinity]. *)
Theorem setSpeedLimit_getSpeedLimits (m : t) (c d : string) (v : num) :
  isDirection d →
  (truthy v = true →
   connectionLimit d (getSpeedLimits c (setSpeedLimit c d v m)) = v
   ∧ globalLimitOf d (getSpeedLimits c (setGlobalSpeedLimit d v m)) = v)
  ∧ (truthy v = false →
     connectionLimit d (getSpeedLimits c (setSpeedLimit c d v m)) = PInf
     ∧ globalLimitOf d (getSpeedLimits c (setGlobalSpeedLimit d v m)) = PInf).
Proof.
  intros Hd.
  rewrite connectionLimit_getLimit, globalLimitOf_stored by done.
  cbn [setSpeedLimit setGlobalSpeedLimit speedLimitManager].
  rewrite SpeedLimitFacts.getLimit_stored, SpeedLimitFacts.storedCap_setLimit,
    SpeedLimitFacts.storedGlobalCap_setGlobalLimit.
  split; intros Hv.
  - by rewrite JSFacts.or_infinity_truthy.
  - by rewrite JSFacts.or_infinity_falsy.
Qed.

Lemma setSpeedLimit_getSpeedLimits_witness :
  connectionLimit "download"
    (getSpeedLimits "c1" (setSpeedLimit "c1" "download" (of_Z 524288) new))
  = of_Z 524288
  ∧ globalLimitOf "download"
      (getSpeedLimits "c1" (setGlobalSpeedLimit "download" (of_Z 524288) new))
    = of_Z 524288.
Proof.
  apply (setSpeedLimit_getSpeedLimits new "c1" "download" (of_Z 524288)).
  - right; reflexivity.
  - reflexivity.
Defined.

(** Setting one direction leaves the other one as it was. *)
Lemma setSpeedLimit_other_direction (m : t) (c d d' : string) (v : num) :
  d ≠ d' →
  SpeedLimitManager.getLimit c d' (speedLimitManager (setSpeedLimit c d v m))
  = SpeedLimitManager.getLimit c d' (speedLimitManager m).
Proof.
  intros Hne. cbn. rewrite !SpeedLimitFacts.getLimit_stored.
  rewrite SpeedLimitFacts.storedCap_setLimit_other; [done | congruence].
Qed.

Lemma disconnect_keeps_limits (c : string) (m m' : t) :
  disconnect c m = Ok m' → speedLimitManager m' = speedLimitManager m.
Proof.
  unfold disconnect. destruct (connections m !! c); [| done].
  by intros [= <-].
Qed.

(** C9 on the code: a cap of 1024 B/s is set for the session [c1], the
    session is disconnected with success, and the registry still holds and
    answers the cap; [removeConnection] is not called. *)
Theorem disconnect_does_not_evict :
  ∃ m', disconnect "c1" (setSpeedLimit "c1" "upload" (of_Z 1024) ftpSession)
        = Ok m'
    ∧ connections m' !! "c1" = None
    ∧ SpeedLimitManager.storedCap "c1" "upload" (speedLimitManager m')
      = Some (of_Z 1024)
    ∧ upload (getSpeedLimits "c1" m') = of_Z 1024
    ∧ upload (getSpeedLimits "c1" m') ≠ PInf.
Proof. eexists. split; [reflexivity |]. vm_compute. by repeat split. Qed.

Lemma unknown_fails (c : string) (m : t) :
  connections m !! c = None → failsNotFound c m.
Proof.
  intros H. unfold failsNotFound, disconnect, listDirectory, downloadFile,
    uploadFile, renameFile, deleteFile, getFileStats, chmod, createDirectory.
  rewrite H. by repeat split.
Qed.

Lemma disconnect_removes (c : string) (m m' : t) :
  disconnect c m = Ok m' → connections m' !! c = None.
Proof.
  unfold disconnect. destruct (connections m !! c); [| done].
  intros [= <-]. cbn. apply lookup_delete_eq.
Qed.

(** *** Progress reports of a transfer *)

Lemma instantSpeed_speedBetween (c : Chunk) (s : StepState) :
  instantSpeed c s
  = speedBetween (now2 c - lastTime s)
      (total_transferred c - lastTransferred s).
Proof.
  unfold instantSpeed, speedBetween.
  rewrite JSFacts.div_1000. cbn [gt of_Z].
  rewrite JSFacts.seconds_pos, negb_involutive.
  destruct (0 <? now2 c - lastTime s)%Z eqn:E; [| done].
  apply Z.ltb_lt in E. unfold of_Z, div.
  by rewrite (JSFacts.seconds_nonzero _ E).
Qed.

Lemma speedBetween_finite (dtMs db : Z) :
  is_finite (speedBetween dtMs db) = true.
Proof. unfold speedBetween. by destruct (0 <? dtMs)%Z. Qed.

Lemma runSteps_speedsFollow (limit fileSize : num) (cb : bool)
    (chunks : list Chunk) (s : StepState) :
  speedsFollow (lastTime s) (lastTransferred s) chunks
    (runSteps limit fileSize cb chunks s).
Proof.
  revert s. induction chunks as [| c cs IH]; intros s; [done |].
  cbn [runSteps]. unfold step.
  destruct (throttleDelay _ _ _) as [d |];
    [exact (IH (mkStepState _ _ _ _)) |].
  destruct cb; [| exact (IH (mkStepState _ _ _ _))].
  cbn [speedsFollow speed]. rewrite instantSpeed_speedBetween.
  split_and!;
    [done | apply speedBetween_finite | exact (IH (mkStepState _ _ _ _))].
Qed.

(** C10: in every progress report of an SFTP download or upload the speed
    is the bytes moved since the previous report divided by the seconds
    since the previous report when that time is positive, and 0 otherwise;
    it is a finite number. *)
Theorem sftp_speed_guarded (c localPath : string) (cb : bool) (sc : Script)
    (m : t) :
  sftpTransfer c sc m →
  speedsFollow (clockLast sc) 0 (chunks sc) (fst (downloadFile c cb sc m))
  ∧ speedsFollow (clockLast sc) 0 (chunks sc)
      (fst (uploadFile c localPath cb sc m)).
Proof.
  intros [(conn & Hc & Hty) [fileSize Hp]].
  unfold downloadFile, uploadFile. rewrite Hc, Hty, Hp. cbn [fst].
  split; apply (runSteps_speedsFollow _ _ _ _ (initStep sc)).
Qed.

Lemma sftp_speed_guarded_witness :
  speedsFollow 0 0 (chunks twoChunks)
    (fst (downloadFile "c2" true twoChunks sftpSession))
  ∧ speedsFollow 0 0 (chunks twoChunks)
      (fst (uploadFile "c2" "/tmp/f" true twoChunks sftpSession)).
Proof.
  apply (sftp_speed_guarded "c2" "/tmp/f" true twoChunks sftpSession).
  split.
  - eexists. split; reflexivity.
  - eexists. reflexivity.
Defined.

(** The second report of [twoChunks]: no time has passed, the speed is 0. *)
Example twoChunks_speeds :
  match fst (downloadFile "c2" true twoChunks sftpSession) with
  | [Reported p1; Reported p2] =>
      eqb (speed p1) (of_Z 5000) = true ∧ speed p2 = of_Z 0
  | _ => False
  end.
Proof. vm_compute. by split. Qed.

(** C4 on the code: a cap of 1024 B/s is in force for both directions and
    a progress callback is passed. On the FTP session a transfer of two
    chunks invokes no callback at all - nothing is throttled, nothing is
    reported -, for a download and for an upload. On the SFTP session the
    same transfer runs [step] once per chunk with that cap: the first chunk
    (50 bytes after 100 ms) is within the budget and is reported with its
    percent, bytes, size, speed and the cap; the second (1000 bytes after
    200 ms) is ahead of the budget and is delayed. *)
Theorem ftp_transfer_skips_callback :
  SpeedLimitManager.getEffectiveLimit "c1" "download"
    (speedLimitManager cappedFtp) = of_Z 1024
  ∧ SpeedLimitManager.getEffectiveLimit "c1" "upload"
      (speedLimitManager cappedFtp) = of_Z 1024
  ∧ downloadFile "c1" true unevenChunks cappedFtp = ([], Ok ())
  ∧ uploadFile "c1" "/tmp/f" true unevenChunks cappedFtp = ([], Ok ())
  ∧ match downloadFile "c2" true unevenChunks cappedSftp with
    | ([Reported p; Throttled delay], Ok _) =>
        percent p = of_Z 5 ∧ transferred p = 50 ∧ total p = of_Z 1000
        ∧ eqb (speed p) (of_Z 500) = true
        ∧ speedLimit p = Some (of_Z 1024)
        ∧ gt delay (of_Z 776) = true ∧ gt (of_Z 777) delay = true
    | _ => False
    end
  ∧ uploadFile "c2" "/tmp/f" true unevenChunks cappedSftp
    = downloadFile "c2" true unevenChunks cappedSftp.
Proof. vm_compute. by repeat split. Qed.

End ConnectionFacts.


(** ** The transfer queue *)

Module QueueFacts.
Import TransferQueue QueueSpec.

Local Open Scope nat_scope.

(** *** Counting active items *)

Lemma countActive_cons (o : gmap nat Item.t) (x : nat) (l : list nat) :
  countActive o (x :: l)
  = (if hasStatus Active o x then 1 else 0) + countActive o l.
Proof.
  unfold countActive. rewrite filter_cons.
  destruct (hasStatus Active o x); by case_decide.
Qed.

Lemma countActive_app (o : gmap nat Item.t) (l1 l2 : list nat) :
  countActive o (l1 ++ l2) = countActive o l1 + countActive o l2.
Proof. unfold countActive. by rewrite filter_app, length_app. Qed.

Lemma countActive_ext (o o' : gmap nat Item.t) (l : list nat) :
  (∀ x, x ∈ l → hasStatus Active o' x = hasStatus Active o x) →
  countActive o' l = countActive o l.
Proof.
  induction l as [| x l IH]; intros H; [done |].
  rewrite !countActive_cons, H, IH; [done | | by left].
  intros y Hy. apply H. by right.
Qed.

Lemma countActive_mono (o o' : gmap nat Item.t) (l : list nat) :
  (∀ x, hasStatus Active o' x → hasStatus Active o x) →
  countActive o' l ≤ countActive o l.
Proof.
  intros H. induction l as [| x l IH]; [done |].
  rewrite !countActive_cons. specialize (H x).
  destruct (hasStatus Active o' x), (hasStatus Active o x); cbn in *;
    first [lia | exfalso; by apply H].
Qed.

Lemma countActive_filter (o : gmap nat Item.t) (P : nat → Prop)
    `{∀ x, Decision (P x)} (l : list nat) :
  countActive o (filter P l) ≤ countActive o l.
Proof.
  induction l as [| x l IH]; [done |].
  rewrite filter_cons. case_decide; rewrite !countActive_cons; lia.
Qed.

(** Items reached without repetition through [l] that are all reachable
    through [k] when active: no more active ones in [l] than in [k]. *)
Lemma countActive_subset (o : gmap nat Item.t) (l k : list nat) :
  NoDup l →
  (∀ x, x ∈ l → hasStatus Active o x → x ∈ k) →
  countActive o l ≤ countActive o k.
Proof.
  intros Hnd Hsub. unfold countActive.
  apply submseteq_length, NoDup_submseteq.
  - by apply NoDup_filter.
  - intros x [Hx Hin]%list_elem_of_filter.
    apply list_elem_of_filter. split; [done |]. by apply Hsub.
Qed.

(** *** Updates in place *)

Lemma hasStatus_alter (st : Status) (f : Item.t → Item.t) (ref x : nat)
    (o : gmap nat Item.t) :
  x ≠ ref → hasStatus st (alter f ref o) x = hasStatus st o x.
Proof. intros Hne. unfold hasStatus. by rewrite lookup_alter_ne. Qed.

Lemma hasStatus_alter_noNew (f : Item.t → Item.t) (ref x : nat)
    (o : gmap nat Item.t) :
  noNewActive f →
  hasStatus Active (alter f ref o) x → hasStatus Active o x.
Proof.
  intros Hf. destruct (decide (x = ref)) as [-> | Hne].
  - unfold hasStatus. rewrite lookup_alter_eq.
    destruct (o !! ref) as [it |]; cbn; [| done].
    intros H%bool_decide_unpack. apply bool_decide_pack. by apply Hf.
  - by rewrite hasStatus_alter.
Qed.

Lemma hasStatus_true (st : Status) (o : gmap nat Item.t) (x : nat) :
  hasStatus st o x ↔ ∃ it, o !! x = Some it ∧ Item.status it = st.
Proof.
  unfold hasStatus. destruct (o !! x) as [it |]; cbn.
  - rewrite bool_decide_spec. split; [by eauto | by intros (? & [= <-] & ?)].
  - split; [done | by intros (? & ? & ?)].
Qed.

(** *** The keys of the map of active transfers *)

Lemma mapSet_elem (key x : nat) (keys : list nat) :
  x ∈ mapSet key keys ↔ x = key ∨ x ∈ keys.
Proof.
  unfold mapSet. case_bool_decide as Hin.
  - split; [by right | by intros [-> | ?]].
  - rewrite elem_of_app, list_elem_of_singleton. tauto.
Qed.

Lemma mapSet_NoDup (key : nat) (keys : list nat) :
  NoDup keys → NoDup (mapSet key keys).
Proof.
  intros Hnd. unfold mapSet. case_bool_decide; [done |].
  apply NoDup_app. split_and!; [done | | apply NoDup_singleton].
  intros x Hx ->%list_elem_of_singleton. done.
Qed.

Lemma mapDelete_elem (key x : nat) (keys : list nat) :
  x ∈ mapDelete key keys ↔ x ≠ key ∧ x ∈ keys.
Proof. unfold mapDelete. by rewrite list_elem_of_filter. Qed.

Lemma mapDelete_NoDup (key : nat) (keys : list nat) :
  NoDup keys → NoDup (mapDelete key keys).
Proof. apply NoDup_filter. Qed.

(** Activating the object at [ref] and recording its key adds at most one
    active entry. *)
Lemma countActive_activate (f : Item.t → Item.t) (ref : nat)
    (o : gmap nat Item.t) (keys : list nat) :
  NoDup keys →
  countActive (alter f ref o) (mapSet ref keys) ≤ S (countActive o keys).
Proof.
  intros Hnd. unfold mapSet. case_bool_decide as Hin.
  - clear Hin. induction Hnd as [| x l Hx Hnd IH]; [cbn; lia |].
    rewrite !countActive_cons.
    destruct (decide (x = ref)) as [-> | Hne].
    + rewrite (countActive_ext o (alter f ref o) l).
      * destruct (hasStatus Active (alter f ref o) ref),
          (hasStatus Active o ref); cbn; lia.
      * intros y Hy. apply hasStatus_alter. by intros ->.
    + rewrite hasStatus_alter by done. lia.
  - rewrite countActive_app, countActive_cons.
    rewrite (countActive_ext o (alter f ref o) keys).
    + unfold countActive at 2. cbn.
      destruct (hasStatus Active (alter f ref o) ref); cbn; lia.
    + intros y Hy. apply hasStatus_alter. by intros ->.
Qed.

(** *** The invariant of the queue *)

Lemma Inv_init (k : nat) : Inv (init k).
Proof.
  constructor; cbn; try done.
  - intros ref [it Hit]. by rewrite lookup_empty in Hit.
  - intros ref Hin. by apply elem_of_nil in Hin.
  - constructor.
  - constructor.
  - lia.
Qed.

(** Only the objects, the backlog, the active map, the bound and the id
    counter matter. *)
Lemma Inv_frame (s s' : t) :
  objs s' = objs s → queue s' = queue s →
  activeTransfers s' = activeTransfers s →
  maxConcurrent s' = maxConcurrent s → queueId s' = queueId s →
  Inv s → Inv s'.
Proof.
  intros Ho Hq Ha Hm Hi [H1 H2 H3 H4 H5 H6 H7].
  constructor; rewrite ?Ho, ?Hq, ?Ha, ?Hm, ?Hi; done.
Qed.

Lemma Inv_update (ref : nat) (f : Item.t → Item.t) (s : t) :
  keepsId f → noNewActive f → Inv s → Inv (update ref f s).
Proof.
  intros Hid Hna [H1 H2 H3 H4 H5 H6 H7]. constructor; cbn; try done.
  - intros r it. destruct (decide (r = ref)) as [-> | Hne].
    + rewrite lookup_alter_eq.
      destruct (objs s !! ref) as [it0 |] eqn:E; cbn; [| done].
      intros [= <-]. rewrite Hid. by apply H1.
    + rewrite lookup_alter_ne by done. apply H1.
  - intros r Hr. apply H2. destruct (decide (r = ref)) as [-> | Hne].
    + rewrite lookup_alter_eq in Hr. by apply fmap_is_Some in Hr.
    + by rewrite lookup_alter_ne in Hr.
  - intros r Hr. apply H6. by apply hasStatus_alter_noNew in Hr.
  - etransitivity; [| exact H7]. apply countActive_mono.
    intros x. by apply hasStatus_alter_noNew.
Qed.

Lemma Inv_mapDelete (key : nat) (s : t) :
  ¬ hasStatus Active (objs s) key →
  Inv s → Inv (withActive (mapDelete key (activeTransfers s)) s).
Proof.
  intros Hkey [H1 H2 H3 H4 H5 H6 H7]. constructor; cbn; try done.
  - by apply mapDelete_NoDup.
  - intros r Hr. apply mapDelete_elem. split; [| by apply H6].
    by intros ->.
  - etransitivity; [| exact H7]. apply countActive_filter.
Qed.

(** A state obtained by activating the object at [ref] while there is room
    for one more. *)
Lemma Inv_activate (ref : nat) (f : Item.t → Item.t) (s s' : t) :
  keepsId f →
  countActive (objs s) (activeTransfers s) < maxConcurrent s →
  objs s' = alter f ref (objs s) → queue s' = queue s →
  activeTransfers s' = mapSet ref (activeTransfers s) →
  maxConcurrent s' = maxConcurrent s → queueId s' = queueId s →
  Inv s → Inv s'.
Proof.
  intros Hid Hlt Ho Hq Ha Hm Hi [H1 H2 H3 H4 H5 H6 H7].
  constructor; rewrite ?Ho, ?Hq, ?Ha, ?Hm, ?Hi; try done.
  - intros r it. destruct (decide (r = ref)) as [-> | Hne].
    + rewrite lookup_alter_eq.
      destruct (objs s !! ref) as [it0 |] eqn:E; cbn; [| done].
      intros [= <-]. rewrite Hid. by apply H1.
    + rewrite lookup_alter_ne by done. apply H1.
  - intros r Hr. apply H2. destruct (decide (r = ref)) as [-> | Hne].
    + rewrite lookup_alter_eq in Hr. by apply fmap_is_Some in Hr.
    + by rewrite lookup_alter_ne in Hr.
  - by apply mapSet_NoDup.
  - intros r Hr. apply mapSet_elem.
    destruct (decide (r = ref)) as [-> | Hne]; [by left | right].
    apply H6. by rewrite hasStatus_alter in Hr.
  - pose proof (countActive_activate f ref (objs s) (activeTransfers s) H5).
    lia.
Qed.

(** *** Looking items up *)

Lemma eligible_true (o : gmap nat Item.t) (ref : nat) :
  eligible o ref = true
  ↔ ∃ it, o !! ref = Some it ∧ Item.status it = Queued
          ∧ Item.isPaused it = false.
Proof.
  unfold eligible. destruct (o !! ref) as [it |]; cbn.
  - rewrite andb_true_iff, bool_decide_eq_true, negb_true_iff.
    split; [by eauto | by intros (? & [= <-] & ? & ?)].
  - split; [done | by intros (? & ? & ?)].
Qed.

Lemma nextTransfer_Some (s : t) (ref : nat) :
  nextTransfer s = Some ref →
  isPaused s = false
  ∧ countActive (objs s) (activeTransfers s) < maxConcurrent s
  ∧ List.find (eligible (objs s)) (queue s) = Some ref.
Proof.
  unfold nextTransfer. destruct (isPaused s); [done |].
  destruct (maxConcurrent s <=? _) eqn:E; [done |].
  apply Nat.leb_gt in E. done.
Qed.

Lemma find_first {A} (p : A → bool) (l : list A) (x : A) :
  List.find p l = Some x →
  ∃ l1 l2, l = l1 ++ x :: l2 ∧ p x = true ∧ ∀ y, y ∈ l1 → p y = false.
Proof.
  induction l as [| a l IH]; cbn; [done |].
  destruct (p a) eqn:E.
  - intros [= ->]. exists [], l. split_and!; [done | done |].
    intros y Hy. by apply elem_of_nil in Hy.
  - intros (l1 & l2 & -> & Hx & Hl1)%IH. exists (a :: l1), l2.
    split_and!; [done | done |].
    intros y [-> | Hy]%elem_of_cons; [done | by apply Hl1].
Qed.

Lemma find_None_all {A} (p : A → bool) (l : list A) :
  List.find p l = None → ∀ y, y ∈ l → p y = false.
Proof.
  induction l as [| a l IH]; cbn.
  - intros _ y Hy. by apply elem_of_nil in Hy.
  - destruct (p a) eqn:E; [done |].
    intros H y [-> | Hy]%elem_of_cons; [done | by apply IH].
Qed.

Lemma findById_Some (transferId ref : nat) (s : t) :
  findById transferId s = Some ref →
  ref ∈ queue s
  ∧ ∃ it, objs s !! ref = Some it ∧ Item.id it = transferId.
Proof.
  unfold findById. intros (l1 & l2 & Hq & Hp & _)%find_first.
  split.
  - rewrite Hq, elem_of_app, elem_of_cons. auto.
  - destruct (objs s !! ref) as [it |]; [| done].
    exists it. split; [done |]. by apply Nat.eqb_eq.
Qed.

Lemma findById_ref (transferId ref : nat) (s : t) :
  Inv s → findById transferId s = Some ref → ref = transferId.
Proof.
  intros HI (_ & it & Hit & <-)%findById_Some.
  symmetry. by apply (inv_ids s HI).
Qed.

(** *** Every operation keeps the invariant *)

Lemma Inv_processQueue (now : Z) (s : t) : Inv s → Inv (processQueue now s).
Proof.
  intros HI. unfold processQueue.
  destruct (nextTransfer s) as [ref |] eqn:E.
  - apply nextTransfer_Some in E as (_ & Hlt & Hfind).
    apply find_first in Hfind as (_ & _ & _ & Hel & _).
    apply eligible_true in Hel as (it & Hit & _ & _).
    cbn [update objs]. rewrite lookup_alter_eq, Hit.
    cbn [fmap option_fmap option_map].
    eapply (Inv_activate ref
              (λ it0, Item.set_startTime now (Item.set_status Active it0)));
      [| exact Hlt | | | | | | exact HI]; cbn; try done.
    by rewrite (inv_ids s HI ref it Hit).
  - by eapply Inv_frame; [.. | exact HI].
Qed.

Lemma hasStatus_alter_eq (st : Status) (f : Item.t → Item.t) (ref : nat)
    (o : gmap nat Item.t) :
  hasStatus st (alter f ref o) ref
  = match o !! ref with
    | Some it => bool_decide (Item.status (f it) = st)
    | None => false
    end.
Proof. unfold hasStatus. rewrite lookup_alter_eq. by destruct (o !! ref). Qed.

Lemma Inv_settle (ref : nat) (reply : option string) (s : t) :
  Inv s → Inv (settle ref reply s).
Proof.
  intros HI. unfold settle. case_bool_decide; [| done].
  set (s1 := match reply with
             | None => update ref _ s
             | Some msg => update ref _ s
             end).
  assert (Inv s1 ∧ ¬ hasStatus Active (objs s1) ref) as [HI1 Hna].
  { subst s1. destruct reply as [msg |]; (split; [by apply Inv_update |]);
      cbn [update objs]; rewrite hasStatus_alter_eq;
      destruct (objs s !! ref); cbn; by intros []. }
  assert (match objs s1 !! ref with
          | Some it => Item.id it
          | None => ref
          end = ref) as ->.
  { destruct (objs s1 !! ref) as [it |] eqn:E; [| done].
    by apply (inv_ids s1 HI1). }
  eapply Inv_frame; [.. | exact (Inv_mapDelete ref s1 Hna HI1)]; done.
Qed.

Lemma Inv_timerFires (now : Z) (s : t) : Inv s → Inv (timerFires now s).
Proof.
  intros HI. unfold timerFires. destruct (timers s); [done |].
  apply Inv_processQueue. by eapply Inv_frame; [.. | exact HI].
Qed.

Lemma Inv_post (msg : Ipc) (s : t) : Inv s → Inv (post msg s).
Proof. intros HI. by eapply Inv_frame; [.. | exact HI]. Qed.

Lemma Inv_setPaused (b : bool) (s : t) : Inv s → Inv (setPaused b s).
Proof. intros HI. by eapply Inv_frame; [.. | exact HI]. Qed.

Lemma Inv_addTransfer (transfer : Transfer) (now : Z) (s : t) :
  Inv s → Inv (snd (addTransfer transfer now s)).
Proof.
  intros [H1 H2 H3 H4 H5 H6 H7]. unfold addTransfer. cbn [snd].
  apply Inv_processQueue.
  assert (Hnew : objs s !! S (queueId s) = None).
  { destruct (objs s !! S (queueId s)) eqn:E; [| done].
    assert (S (queueId s) ≤ queueId s) by (apply H2; by eexists). lia. }
  assert (Hst : ∀ it r,
            hasStatus Active (<[S (queueId s) := it]> (objs s)) r →
            Item.status it = Queued → hasStatus Active (objs s) r).
  { intros it r Hr Hq. unfold hasStatus in *.
    destruct (decide (r = S (queueId s))) as [-> | Hne].
    - rewrite lookup_insert_eq in Hr. cbn in Hr.
      apply bool_decide_unpack in Hr. congruence.
    - by rewrite lookup_insert_ne in Hr. }
  constructor; cbn.
  - intros r it. destruct (decide (r = S (queueId s))) as [-> | Hne].
    + rewrite lookup_insert_eq. by intros [= <-].
    + rewrite lookup_insert_ne by done. apply H1.
  - intros r Hr. destruct (decide (r = S (queueId s))) as [-> | Hne]; [lia |].
    rewrite lookup_insert_ne in Hr by done. apply H2 in Hr. lia.
  - intros r [Hr | ->%list_elem_of_singleton]%elem_of_app; [| lia].
    apply H3 in Hr. lia.
  - apply StronglySorted_app. split_and!; [| done | repeat constructor].
    intros x1 x2 Hx1 ->%list_elem_of_singleton. apply H3 in Hx1. lia.
  - done.
  - intros r Hr. apply H6. by eapply Hst.
  - etransitivity; [| exact H7]. apply countActive_mono.
    intros x Hx. by eapply Hst.
Qed.

Lemma Inv_pauseTransfer (transferId : nat) (s : t) :
  Inv s → Inv (pauseTransfer transferId s).
Proof.
  intros HI. unfold pauseTransfer.
  destruct (findById transferId s) as [ref |]; [| done].
  destruct (hasStatus Active (objs s) ref); [| done].
  by apply Inv_post, Inv_update.
Qed.

Lemma Inv_resumeTransfer (transferId : nat) (now : Z) (s : t) :
  Inv s → Inv (resumeTransfer transferId now s).
Proof.
  intros HI. unfold resumeTransfer.
  destruct (findById transferId s) as [ref |]; [| done].
  destruct (hasStatus Paused (objs s) ref); [| done].
  by apply Inv_processQueue, Inv_update.
Qed.

Lemma Inv_cancelTransfer (transferId : nat) (now : Z) (s : t) :
  Inv s → Inv (cancelTransfer transferId now s).
Proof.
  intros HI. unfold cancelTransfer.
  destruct (findById transferId s) as [ref |] eqn:E; [| done].
  apply (findById_ref _ _ _ HI) in E as ->.
  set (s1 := if hasStatus Active (objs s) transferId then _ else s).
  assert (HI1 : Inv s1).
  { subst s1. destruct (hasStatus Active (objs s) transferId); [| done].
    by apply Inv_post. }
  apply Inv_processQueue, Inv_mapDelete; [| by apply Inv_update].
  cbn [update objs]. rewrite hasStatus_alter_eq.
  destruct (objs s1 !! transferId); cbn; by intros [].
Qed.

Lemma Inv_fold {A} (g : t → A → t) (l : list A) (s : t) :
  (∀ s x, Inv s → Inv (g s x)) → Inv s → Inv (fold_left g l s).
Proof.
  intros Hg. revert s. induction l as [| x l IH]; intros s HI; cbn; [done |].
  by apply IH, Hg.
Qed.

Lemma Inv_pauseAll (s : t) : Inv s → Inv (pauseAll s).
Proof.
  intros HI. unfold pauseAll. apply Inv_fold; [| by apply Inv_setPaused].
  intros s' x HI'. unfold pauseIfActive.
  destruct (objs s' !! x) as [it |]; [| done].
  case_bool_decide; [| done]. by apply Inv_pauseTransfer.
Qed.

Lemma Inv_resumeAll (now : Z) (s : t) : Inv s → Inv (resumeAll now s).
Proof.
  intros HI. unfold resumeAll. apply Inv_fold; [| by apply Inv_setPaused].
  intros s' x HI'. unfold resumeIfPaused.
  destruct (objs s' !! x) as [it |]; [| done].
  case_bool_decide; [| done]. by apply Inv_resumeTransfer.
Qed.

Lemma StronglySorted_filter_lt (P : nat → Prop) `{∀ x, Decision (P x)}
    (l : list nat) :
  StronglySorted lt l → StronglySorted lt (filter P l).
Proof.
  induction 1 as [| x l Hl IH Hx]; [constructor |].
  rewrite filter_cons. case_decide; [| done].
  constructor; [done |].
  apply Forall_forall. intros y [_ Hy]%list_elem_of_filter.
  by eapply Forall_forall in Hx.
Qed.

Lemma Inv_clearCompleted (s : t) : Inv s → Inv (clearCompleted s).
Proof.
  intros [H1 H2 H3 H4 H5 H6 H7]. constructor; cbn; try done.
  - intros r [_ Hr]%list_elem_of_filter. by apply H3.
  - by apply StronglySorted_filter_lt.
Qed.

Lemma Inv_onTransferProgress (transferId : nat) (percent speed : option JS.num)
    (s : t) :
  Inv s → Inv (onTransferProgress transferId percent speed s).
Proof.
  intros HI. unfold onTransferProgress.
  destruct (findById transferId s) as [ref |]; [| done].
  apply Inv_update; [done | | done]. intros it Hit. exact Hit.
Qed.

Lemma Inv_handle (s : t) (ev : Event) : Inv s → Inv (handle s ev).
Proof.
  intros HI. destruct ev; cbn [handle].
  - by apply Inv_addTransfer.
  - by apply Inv_pauseTransfer.
  - by apply Inv_resumeTransfer.
  - by apply Inv_cancelTransfer.
  - by apply Inv_pauseAll.
  - by apply Inv_resumeAll.
  - by apply Inv_clearCompleted.
  - by apply Inv_timerFires.
  - by apply Inv_settle.
  - by apply Inv_onTransferProgress.
Qed.

Lemma Inv_run (events : list Event) (s : t) : Inv s → Inv (run events s).
Proof. apply Inv_fold. intros s' ev. apply Inv_handle. Qed.

(** *** [maxConcurrent] is never written *)

Lemma processQueue_maxConcurrent (now : Z) (s : t) :
  maxConcurrent (processQueue now s) = maxConcurrent s.
Proof.
  unfold processQueue. destruct (nextTransfer s) as [ref |]; [| done].
  by destruct (objs _ !! ref).
Qed.

Lemma pauseTransfer_maxConcurrent (transferId : nat) (s : t) :
  maxConcurrent (pauseTransfer transferId s) = maxConcurrent s.
Proof.
  unfold pauseTransfer. destruct (findById transferId s) as [ref |]; [| done].
  by destruct (hasStatus Active (objs s) ref).
Qed.

Lemma resumeTransfer_maxConcurrent (transferId : nat) (now : Z) (s : t) :
  maxConcurrent (resumeTransfer transferId now s) = maxConcurrent s.
Proof.
  unfold resumeTransfer. destruct (findById transferId s) as [ref |]; [| done].
  destruct (hasStatus Paused (objs s) ref); [| done].
  by rewrite processQueue_maxConcurrent.
Qed.

Lemma fold_maxConcurrent {A} (g : t → A → t) (l : list A) (s : t) :
  (∀ s x, maxConcurrent (g s x) = maxConcurrent s) →
  maxConcurrent (fold_left g l s) = maxConcurrent s.
Proof.
  intros Hg. revert s. induction l as [| x l IH]; intros s; cbn; [done |].
  by rewrite IH, Hg.
Qed.

Lemma handle_maxConcurrent (s : t) (ev : Event) :
  maxConcurrent (handle s ev) = maxConcurrent s.
Proof.
  destruct ev; cbn [handle].
  - unfold addTransfer; cbn [snd]. by rewrite processQueue_maxConcurrent.
  - apply pauseTransfer_maxConcurrent.
  - apply resumeTransfer_maxConcurrent.
  - unfold cancelTransfer. destruct (findById transferId s) as [ref |]; [| done].
    rewrite processQueue_maxConcurrent. cbn.
    by destruct (hasStatus Active (objs s) ref).
  - unfold pauseAll. rewrite fold_maxConcurrent; [done |].
    intros s' x. unfold pauseIfActive. destruct (objs s' !! x); [| done].
    case_bool_decide; [| done]. apply pauseTransfer_maxConcurrent.
  - unfold resumeAll. rewrite fold_maxConcurrent; [done |].
    intros s' x. unfold resumeIfPaused. destruct (objs s' !! x); [| done].
    case_bool_decide; [| done]. apply resumeTransfer_maxConcurrent.
  - done.
  - unfold timerFires. destruct (timers s); [done |].
    by rewrite processQueue_maxConcurrent.
  - unfold settle. case_bool_decide; [| done]. cbn. by destruct reply.
  - unfold onTransferProgress. by destruct (findById transferId s).
Qed.

Lemma run_maxConcurrent (events : list Event) (s : t) :
  maxConcurrent (run events s) = maxConcurrent s.
Proof. apply fold_maxConcurrent. intros s' ev. apply handle_maxConcurrent. Qed.

Lemma StronglySorted_lt_NoDup (l : list nat) : StronglySorted lt l → NoDup l.
Proof.
  induction 1 as [| x l Hl IH Hx]; constructor; [| done].
  intros Hin. eapply Forall_forall in Hx; [| exact Hin]. lia.
Qed.

(** C2: whatever happens to a queue created with [maxConcurrent = k]
    (transfers added, paused, resumed, cancelled, settled, cleared, timers
    firing, progress arriving), after every event the number of items of
    the backlog whose status is ['active'] is at most [k]; the default queue
    has [k = 3]. *)
Theorem active_never_exceeds_maxConcurrent (k : nat) (events : list Event) :
  countActive (objs (run events (init k))) (queue (run events (init k))) ≤ k
  ∧ countActive (objs (run events new)) (queue (run events new)) ≤ 3.
Proof.
  assert (Hk : ∀ n, countActive (objs (run events (init n)))
                      (queue (run events (init n))) ≤ n).
  { intros n. pose proof (Inv_run events (init n) (Inv_init n)) as HI.
    pose proof (run_maxConcurrent events (init n)) as Hm. cbn in Hm.
    pose proof (inv_bound _ HI) as Hb. rewrite Hm in Hb.
    etransitivity; [| exact Hb].
    apply countActive_subset.
    - apply StronglySorted_lt_NoDup, (inv_sorted _ HI).
    - intros x _ Hx. by apply (inv_active _ HI). }
  split; [apply Hk | apply (Hk 3)].
Qed.

(** The bound is reached: five uploads on the default queue leave three
    active and two queued, and a settled transfer promotes the next one. *)
Example five_uploads_three_active :
  map (λ i, statusOf i fiveUploads) [1; 2; 3; 4; 5]
  = [Some Active; Some Active; Some Active; Some Queued; Some Queued]
  ∧ map (λ i, statusOf i (run [EvSettle 1 None; EvTimer 200] fiveUploads))
      [1; 2; 3; 4; 5]
    = [Some Completed; Some Active; Some Active; Some Active; Some Queued].
Proof. by vm_compute. Qed.

(** *** Scheduling passes *)

Lemma processQueue_passes (now : Z) (s : t) :
  passes (processQueue now s) = S (passes s).
Proof.
  unfold processQueue. destruct (nextTransfer s) as [ref |]; [| done].
  by destruct (objs _ !! ref).
Qed.

Lemma statusOf_Some (transferId : nat) (st : Status) (s : t) :
  statusOf transferId s = Some st →
  ∃ ref, findById transferId s = Some ref ∧ hasStatus st (objs s) ref.
Proof.
  unfold statusOf. destruct (findById transferId s) as [ref |]; [| done].
  cbn. intros H. exists ref. split; [done |].
  apply hasStatus_true. destruct (objs s !! ref) as [it |]; [| done].
  cbn in H. exists it. split; [done | congruence].
Qed.

Lemma processQueue_idle (now : Z) (s : t) :
  nextTransfer s = None →
  objs (processQueue now s) = objs s
  ∧ running (processQueue now s) = running s
  ∧ activeTransfers (processQueue now s) = activeTransfers s.
Proof. intros Hn. unfold processQueue. by rewrite Hn. Qed.

(** In a sorted backlog the first eligible reference is the least one. *)
Lemma first_eligible_least (o : gmap nat Item.t) (l1 l2 : list nat)
    (ref : nat) :
  StronglySorted lt (l1 ++ ref :: l2) →
  (∀ r, r ∈ l1 → eligible o r = false) →
  ∀ r, r ∈ l1 ++ ref :: l2 → eligible o r = true → ref ≤ r.
Proof.
  intros (_ & _ & Hs)%StronglySorted_app Hl1 r Hr Hel.
  apply elem_of_app in Hr as [Hr | Hr].
  - apply Hl1 in Hr. congruence.
  - apply elem_of_cons in Hr as [-> | Hr]; [done |].
    apply StronglySorted_inv in Hs as [_ Hall].
    eapply Forall_forall in Hall; [| exact Hr]. lia.
Qed.

Lemma nextTransfer_None (s : t) :
  nextTransfer s = None →
  isPaused s = true
  ∨ maxConcurrent s ≤ countActive (objs s) (activeTransfers s)
  ∨ ∀ r, r ∈ queue s → eligible (objs s) r = false.
Proof.
  unfold nextTransfer. destruct (isPaused s); [by left |].
  destruct (maxConcurrent s <=? _) eqn:E.
  - intros _. right. left. by apply Nat.leb_le.
  - intros H. right. right. by apply find_None_all.
Qed.

(** A pass on a queue that satisfies the invariant. *)
Lemma pass_selects (now : Z) (p : t) : Inv p → passSelects now p.
Proof.
  intros HI. destruct (nextTransfer p) as [ref |] eqn:Hn.
  - left. exists ref.
    pose proof Hn as (_ & _ & Hfind)%nextTransfer_Some.
    apply find_first in Hfind as (l1 & l2 & Hq & Hel & Hl1).
    apply eligible_true in Hel as (it & Hit & Hst & Hp).
    assert (Hin : ref ∈ queue p).
    { rewrite Hq, elem_of_app, elem_of_cons. auto. }
    unfold startsEarliest, processQueue. rewrite Hn.
    cbn [update objs]. rewrite lookup_alter_eq, Hit.
    cbn [fmap option_fmap option_map]. cbn.
    rewrite lookup_alter_eq, Hit. cbn.
    pose proof (inv_ids p HI ref it Hit) as Hid.
    split_and!.
    + done.
    + eexists _, _. split_and!; try done; by repeat split.
    + intros r itr Hr Hitr Hs Hpr.
      pose proof (inv_sorted p HI) as Hsorted. rewrite Hq in Hsorted, Hr.
      apply (first_eligible_least (objs p) l1 l2 ref Hsorted Hl1 r Hr).
      apply eligible_true. by exists itr.
    + intros r Hr. by rewrite lookup_alter_ne.
    + done.
    + done.
    + rewrite Hid. apply mapSet_elem. by left.
  - right. unfold startsNothing.
    destruct (processQueue_idle now p Hn) as (Ho & Hr & Ha).
    split_and!; try done.
    + unfold processQueue. by rewrite Hn.
    + apply nextTransfer_None in Hn as [H | [H | H]]; [by left | by auto |].
      right. right. intros r it Hin Hit Hs.
      specialize (H r Hin). unfold eligible in H. rewrite Hit in H.
      rewrite Hs in H. rewrite bool_decide_eq_true_2 in H by done.
      cbn in H. by apply negb_false_iff in H.
Qed.

Lemma runs_pass (now : Z) (p : t) :
  Inv p → runsPass now p (processQueue now p).
Proof.
  intros HI. split_and!; [done | apply processQueue_passes |].
  by apply pass_selects.
Qed.

(** *** The queue at each call of [processQueue] *)

Lemma Inv_enqueued (transfer : Transfer) (s : t) :
  Inv s → Inv (enqueued transfer s).
Proof.
  intros [H1 H2 H3 H4 H5 H6 H7].
  assert (Hnew : objs s !! S (queueId s) = None).
  { destruct (objs s !! S (queueId s)) eqn:E; [| done].
    assert (S (queueId s) ≤ queueId s) by (apply H2; by eexists). lia. }
  assert (Hst : ∀ it r,
            hasStatus Active (<[S (queueId s) := it]> (objs s)) r →
            Item.status it = Queued → hasStatus Active (objs s) r).
  { intros it r Hr Hq. unfold hasStatus in *.
    destruct (decide (r = S (queueId s))) as [-> | Hne].
    - rewrite lookup_insert_eq in Hr. cbn in Hr.
      apply bool_decide_unpack in Hr. congruence.
    - by rewrite lookup_insert_ne in Hr. }
  constructor; cbn.
  - intros r it. destruct (decide (r = S (queueId s))) as [-> | Hne].
    + rewrite lookup_insert_eq. by intros [= <-].
    + rewrite lookup_insert_ne by done. apply H1.
  - intros r Hr. destruct (decide (r = S (queueId s))) as [-> | Hne]; [lia |].
    rewrite lookup_insert_ne in Hr by done. apply H2 in Hr. lia.
  - intros r [Hr | ->%list_elem_of_singleton]%elem_of_app; [| lia].
    apply H3 in Hr. lia.
  - apply StronglySorted_app. split_and!; [| done | repeat constructor].
    intros x1 x2 Hx1 ->%list_elem_of_singleton. apply H3 in Hx1. lia.
  - done.
  - intros r Hr. apply H6. by eapply Hst.
  - etransitivity; [| exact H7]. apply countActive_mono.
    intros x Hx. by eapply Hst.
Qed.

Lemma Inv_requeued (transferId : nat) (s : t) :
  Inv s → Inv (requeued transferId s).
Proof. intros HI. by apply Inv_update. Qed.

Lemma Inv_struck (transferId : nat) (s : t) :
  Inv s → Inv (struck transferId s).
Proof.
  intros HI. unfold struck. cbv zeta.
  set (s1 := if hasStatus Active (objs s) transferId then _ else s).
  assert (HI1 : Inv s1).
  { subst s1. destruct (hasStatus Active (objs s) transferId); [| done].
    by apply Inv_post. }
  apply Inv_mapDelete; [| by apply Inv_update].
  cbn [update objs]. rewrite hasStatus_alter_eq.
  destruct (objs s1 !! transferId); cbn; by intros [].
Qed.

Lemma Inv_ticked (n : nat) (s : t) : Inv s → Inv (ticked n s).
Proof. intros HI. by eapply Inv_frame; [.. | exact HI]. Qed.

Lemma resumeTransfer_pass (transferId : nat) (now : Z) (s : t) :
  Inv s → statusOf transferId s = Some Paused →
  resumeTransfer transferId now s = processQueue now (requeued transferId s).
Proof.
  intros HI (ref & Hf & Hst)%statusOf_Some.
  pose proof (findById_ref _ _ _ HI Hf) as ->.
  unfold resumeTransfer. rewrite Hf.
  apply Is_true_true in Hst. by rewrite Hst.
Qed.

Lemma cancelTransfer_pass (transferId : nat) (st : Status) (now : Z)
    (s : t) :
  Inv s → statusOf transferId s = Some st →
  cancelTransfer transferId now s = processQueue now (struck transferId s).
Proof.
  intros HI (ref & Hf & _)%statusOf_Some.
  pose proof (findById_ref _ _ _ HI Hf) as ->.
  unfold cancelTransfer. by rewrite Hf.
Qed.

(** C6: in every state [s] a queue can reach, every scheduling pass
    selects first in, first out. A pass that starts a transfer starts an
    item of the backlog that is queued and not paused and has the least id
    among those - the earliest enqueued -, makes it active, records the
    clock as its start time and begins its execution; a pass starts
    nothing only when the queue is paused, [maxConcurrent] items are
    active or no item is queued and not paused. This holds of the pass run
    by [addTransfer] once the new item is in the backlog, of the pass run
    by [resumeTransfer] once the paused item is queued again (also when
    [resumeAll] calls it, after any part of its loop), of the pass run by
    [cancelTransfer] once the item is cancelled, and of the pass run by
    the timer that a settled transfer (completed or error) sets; each of
    these operations runs exactly one pass. *)
Theorem scheduling_pass_fifo (k : nat) (events : list Event) (now : Z) :
  let s := run events (init k) in
  (∀ transfer,
     runsPass now (enqueued transfer s) (snd (addTransfer transfer now s)))
  ∧ (∀ transferId, statusOf transferId s = Some Paused →
       runsPass now (requeued transferId s)
         (resumeTransfer transferId now s))
  ∧ (∀ transferId st, statusOf transferId s = Some st →
       runsPass now (struck transferId s) (cancelTransfer transferId now s))
  ∧ (∀ ref reply, ref ∈ running s →
       timers (settle ref reply s) = S (timers s))
  ∧ (∀ n, timers s = S n →
       runsPass now (ticked n s) (timerFires now s)
       ∧ timers (timerFires now s) = n)
  ∧ (∀ refs transferId,
       let p := fold_left (resumeIfPaused now) refs (setPaused false s) in
       statusOf transferId p = Some Paused →
       runsPass now (requeued transferId p)
         (resumeTransfer transferId now p)).
Proof.
  intros s. pose proof (Inv_run events (init k) (Inv_init k)) as HI.
  fold s in HI. split_and!.
  - intros transfer. apply (runs_pass now (enqueued transfer s)).
    by apply Inv_enqueued.
  - intros transferId Hst. rewrite (resumeTransfer_pass _ _ _ HI Hst).
    by apply runs_pass, Inv_requeued.
  - intros transferId st Hst. rewrite (cancelTransfer_pass _ _ _ _ HI Hst).
    by apply runs_pass, Inv_struck.
  - intros ref reply Hin. unfold settle.
    rewrite bool_decide_eq_true_2 by done. cbn. by destruct reply.
  - intros n Hn.
    assert (Ht : timerFires now s = processQueue now (ticked n s))
      by (unfold timerFires; by rewrite Hn).
    rewrite Ht. split; [by apply runs_pass, Inv_ticked |].
    unfold processQueue. cbn.
    destruct (nextTransfer _) as [ref |]; [| done].
    by destruct (alter _ ref (objs s) !! ref).
  - intros refs transferId p Hst.
    assert (HIp : Inv p).
    { apply Inv_fold; [| by apply Inv_setPaused].
      intros s' x HI'. unfold resumeIfPaused.
      destruct (objs s' !! x) as [it |]; [| done].
      case_bool_decide; [| done]. by apply Inv_resumeTransfer. }
    rewrite (resumeTransfer_pass _ _ _ HIp Hst).
    by apply runs_pass, Inv_requeued.
Qed.

(** Item 2 of five uploads is cancelled while item 1 is paused: the pass
    of [cancelTransfer] runs on a backlog whose first three items are
    paused, cancelled and active. *)
Lemma scheduling_pass_fifo_witness :
  runsPass 50 (struck 2 (run fiveThenPause (init 3)))
    (cancelTransfer 2 50 (run fiveThenPause (init 3))).
Proof.
  pose proof (scheduling_pass_fifo 3 fiveThenPause 50) as H.
  cbv zeta in H. destruct H as (_ & _ & H & _).
  refine (H 2 Active _). vm_compute. reflexivity.
Defined.

(** That pass starts item 4, the earliest of the two that wait, with the
    clock as its start time; item 5 still waits. When item 1 is resumed
    instead, the pass starts item 1 again, ahead of 4 and 5. *)
Example pass_skips_ineligible :
  map (λ i, statusOf i (run (fiveThenPause ++ [EvCancel 2 50]) (init 3)))
    [1; 2; 3; 4; 5]
  = [Some Paused; Some Cancelled; Some Active; Some Active; Some Queued]
  ∧ (Item.startTime
       <$> objs (run (fiveThenPause ++ [EvCancel 2 50]) (init 3)) !! 4)
    = Some (Some 50%Z)
  ∧ map (λ i, statusOf i (run (fiveThenPause ++ [EvResume 1 60]) (init 3)))
      [1; 2; 3; 4; 5]
    = [Some Active; Some Active; Some Active; Some Queued; Some Queued]
  ∧ (Item.startTime
       <$> objs (run (fiveThenPause ++ [EvResume 1 60]) (init 3)) !! 1)
    = Some (Some 60%Z).
Proof. by vm_compute. Qed.

(** *** Status changes *)

Lemma find_ext {A} (p q : A → bool) (l : list A) :
  (∀ x, p x = q x) → List.find p l = List.find q l.
Proof.
  intros H. induction l as [| a l IH]; cbn; [done |].
  by rewrite H, IH.
Qed.

(** The status of an item is unchanged by an update in place that keeps ids
    and touches an object of another status only. *)
Lemma statusOf_alter (transferId ref : nat) (f : Item.t → Item.t)
    (st : Status) (s s' : t) :
  keepsId f →
  objs s' = alter f ref (objs s) → queue s' = queue s →
  ¬ hasStatus st (objs s) ref →
  statusOf transferId s = Some st → statusOf transferId s' = Some st.
Proof.
  intros Hid Ho Hq Hne Hst.
  assert (Hf : findById transferId s' = findById transferId s).
  { unfold findById. rewrite Hq, Ho. apply find_ext. intros x.
    destruct (decide (x = ref)) as [-> | Hx].
    - rewrite lookup_alter_eq. destruct (objs s !! ref); cbn; [| done].
      by rewrite Hid.
    - by rewrite lookup_alter_ne. }
  pose proof Hst as (r & Hr & Hhas)%statusOf_Some.
  unfold statusOf in *. rewrite Hf, Hr in *. cbn in *. rewrite Ho.
  destruct (decide (r = ref)) as [-> | Hx]; [done |].
  by rewrite lookup_alter_ne.
Qed.

Lemma statusOf_frame (transferId : nat) (s s' : t) :
  objs s' = objs s → queue s' = queue s →
  statusOf transferId s' = statusOf transferId s.
Proof. intros Ho Hq. unfold statusOf, findById. by rewrite Ho, Hq. Qed.

Lemma terminal_not (st st' : Status) (o : gmap nat Item.t) (ref : nat) :
  isTerminal st → st' = Active ∨ st' = Paused ∨ st' = Queued →
  hasStatus st' o ref → ¬ hasStatus st o ref.
Proof.
  intros Hterm Hlive (it & Hit & Hs')%hasStatus_true
    (it' & Hit' & Hs)%hasStatus_true.
  rewrite Hit in Hit'. injection Hit' as <-.
  destruct Hterm as [-> | [-> | ->]], Hlive as [-> | [-> | ->]]; congruence.
Qed.

Lemma processQueue_keeps_terminal (transferId : nat) (st : Status) (now : Z)
    (s : t) :
  isTerminal st →
  statusOf transferId s = Some st →
  statusOf transferId (processQueue now s) = Some st.
Proof.
  intros Hterm Hst. destruct (nextTransfer s) as [ref |] eqn:Hn.
  - pose proof Hn as (_ & _ & Hfind)%nextTransfer_Some.
    apply find_first in Hfind as (_ & _ & _ & Hel & _).
    apply eligible_true in Hel as (it & Hit & Hq & _).
    eapply (statusOf_alter transferId ref
              (λ it0, Item.set_startTime now (Item.set_status Active it0)));
      [done | | | | exact Hst].
    + unfold processQueue. rewrite Hn. cbn [update objs].
      by rewrite lookup_alter_eq, Hit.
    + unfold processQueue. rewrite Hn. cbn [update objs].
      by rewrite lookup_alter_eq, Hit.
    + apply (terminal_not st Queued); [done | auto |].
      apply hasStatus_true. eauto.
  - rewrite <- Hst. apply statusOf_frame.
    + by apply (processQueue_idle now) in Hn as (? & _).
    + unfold processQueue. by rewrite Hn.
Qed.

(** The part of C3 that holds: an item in a terminal state is not changed
    by a pause or resume request, whichever item the request names. *)
Lemma pause_resume_keep_terminal (transferId other : nat) (st : Status)
    (now : Z) (s : t) :
  isTerminal st →
  statusOf transferId s = Some st →
  statusOf transferId (pauseTransfer other s) = Some st
  ∧ statusOf transferId (resumeTransfer other now s) = Some st.
Proof.
  intros Hterm Hst. split.
  - unfold pauseTransfer. destruct (findById other s) as [ref |]; [| done].
    destruct (hasStatus Active (objs s) ref) eqn:E; [| done].
    eapply (statusOf_alter transferId ref
              (λ it, Item.set_status Paused (Item.set_isPaused true it)));
      [done | done | done | | exact Hst].
    apply (terminal_not st Active); [done | auto | by rewrite E].
  - unfold resumeTransfer. destruct (findById other s) as [ref |]; [| done].
    destruct (hasStatus Paused (objs s) ref) eqn:E; [| done].
    apply processQueue_keeps_terminal; [done |].
    eapply (statusOf_alter transferId ref
              (λ it, Item.set_status Queued (Item.set_isPaused false it)));
      [done | done | done | | exact Hst].
    apply (terminal_not st Paused); [done | auto | by rewrite E].
Qed.

(** C3 on the code: [cancelTransfer] has no guard on the status. An upload
    is added, starts and completes; a later cancel request turns
    ['completed'] into ['cancelled']. And an upload cancelled while active
    becomes ['completed'] when the reply of its execution arrives, the
    terminal state ['cancelled'] being overwritten. Neither change is an
    edge of the state machine. *)
Theorem cancel_overwrites_terminal :
  let done_ := run [EvAdd anUpload 0; EvSettle 1 None] new in
  let cancelled_ := run [EvAdd anUpload 0; EvCancel 1 10] new in
  statusOf 1 done_ = Some Completed
  ∧ statusOf 1 (cancelTransfer 1 20 done_) = Some Cancelled
  ∧ statusOf 1 cancelled_ = Some Cancelled
  ∧ statusOf 1 (settle 1 None cancelled_) = Some Completed.
Proof. by vm_compute. Qed.

(** *** Unknown transfer ids *)

Lemma unknown_transfer_ignored (transferId : nat) (now : Z) (s : t) :
  findById transferId s = None →
  pauseTransfer transferId s = s
  ∧ resumeTransfer transferId now s = s
  ∧ cancelTransfer transferId now s = s.
Proof.
  intros H. unfold pauseTransfer, resumeTransfer, cancelTransfer.
  by rewrite H.
Qed.

End QueueFacts.


(** ** Unknown ids *)

Module ErrorFacts.
Import ConnectionManager ConnectionSpec ConnectionFacts.

(** C8, as stated, fails for transfer ids: on a queue holding the single
    item 1, pause, resume and cancel requests for the id 99 return normally
    and leave the queue, its items and its outbox as they were. Nor does
    [setSpeedLimit] reject the id of a session that does not exist. *)
Lemma unknown_transfer_id_counterexample :
  let q := snd (TransferQueue.addTransfer QueueSpec.anUpload 0
                  TransferQueue.new) in
  TransferQueue.findById 99 q = None
  ∧ TransferQueue.pauseTransfer 99 q = q
  ∧ TransferQueue.resumeTransfer 99 5 q = q
  ∧ TransferQueue.cancelTransfer 99 5 q = q
  ∧ connections new !! "nobody" = None
  ∧ upload (getSpeedLimits "nobody"
              (setSpeedLimit "nobody" "upload" (JS.of_Z 2048) new))
    = JS.of_Z 2048.
Proof.
  cbn zeta.
  assert (H : TransferQueue.findById 99
                (snd (TransferQueue.addTransfer QueueSpec.anUpload 0
                        TransferQueue.new)) = None)
    by (vm_compute; reflexivity).
  pose proof (QueueFacts.unknown_transfer_ignored 99 5 _ H) as (H1 & H2 & H3).
  split; [exact H |]. split; [exact H1 |]. split; [exact H2 |].
  split; [exact H3 |]. split; vm_compute; reflexivity.
Qed.

(** C8 (amended): every session operation ([disconnect], [listDirectory],
    [downloadFile], [uploadFile], [renameFile], [deleteFile],
    [getFileStats], [chmod], [createDirectory]) called with an id that is
    not registered, or that has been disconnected, throws the error
    ['Connection not found']; a pause, resume or cancel request for an
    unknown transfer id is ignored and leaves the queue unchanged. *)
Theorem unknown_ids (m : t) (c : string) (q : TransferQueue.t)
    (transferId : nat) (now : Z) :
  (connections m !! c = None → failsNotFound c m)
  ∧ (∀ m', disconnect c m = Ok m' → failsNotFound c m')
  ∧ (TransferQueue.findById transferId q = None →
     TransferQueue.pauseTransfer transferId q = q
     ∧ TransferQueue.resumeTransfer transferId now q = q
     ∧ TransferQueue.cancelTransfer transferId now q = q).
Proof.
  split_and!.
  - apply unknown_fails.
  - intros m' Hd. by apply unknown_fails, (disconnect_removes c m).
  - apply QueueFacts.unknown_transfer_ignored.
Qed.

Lemma unknown_ids_witness :
  failsNotFound "c9" ftpSession
  ∧ failsNotFound "c1" afterDisconnect
  ∧ TransferQueue.pauseTransfer 99 QueueSpec.fiveUploads
    = QueueSpec.fiveUploads.
Proof.
  split_and!.
  - refine (proj1 (unknown_ids ftpSession "c9" TransferQueue.new 1 0) _).
    vm_compute. reflexivity.
  - refine (proj1 (proj2 (unknown_ids ftpSession "c1" TransferQueue.new 1 0))
              afterDisconnect _).
    vm_compute. reflexivity.
  - refine (proj1 (proj2 (proj2 (unknown_ids ftpSession "c1"
                                   QueueSpec.fiveUploads 99 0)) _)).
    vm_compute. reflexivity.
Defined.

(** After a successful disconnect the id answers as an unknown one. *)
Example disconnected_session_not_found :
  match disconnect "c1" ftpSession with
  | Ok m' =>
      listDirectory "c1" (Ok ["a.txt"]) m' = Throw NotFound
      ∧ chmod "c1" None m' = Throw NotFound
      ∧ disconnect "c1" m' = Throw NotFound
  | Throw _ => False
  end.
Proof. by vm_compute. Qed.

End ErrorFacts.


(** * Further properties of the engine *)

(** ** The limit registry as a store *)

Module RegistryFacts.
Import JS SpeedLimitManager SpeedLimitSpec SpeedLimitFacts.

Lemma truthy_or_infinity (v : option num) : truthy (or_infinity v) = true.
Proof.
  destruct v as [x |]; [| done]. cbn. unfold or.
  by destruct (truthy x) eqn:E.
Qed.

Lemma truthy_min (a b : num) :
  truthy a = true → truthy b = true → truthy (min a b) = true.
Proof. intros Ha Hb. by destruct (JSFacts.min_cases a b) as [-> | ->]. Qed.

Lemma min_PInf_l (b : num) : b ≠ NaN → min PInf b = b.
Proof. by destruct b. Qed.

(** X1: A cap set for one connection and direction is visible there and
    nowhere else: the other direction of the connection, every other
    connection and the global caps read as before, and a second write
    replaces the first. *)
Theorem setLimit_isolated (m : t) (c d c' d' : string) (v w : num) :
  (c, d) ≠ (c', d') →
  getLimit c' d' (setLimit c d v m) = getLimit c' d' m
  ∧ globalLimit d' (setLimit c d v m) = globalLimit d' m
  ∧ getLimit c' d' (setGlobalLimit d v m) = getLimit c' d' m
  ∧ getLimit c d (setLimit c d w (setLimit c d v m))
    = getLimit c d (setLimit c d w m).
Proof.
  intros Hne. rewrite !getLimit_stored. split_and!.
  - by rewrite SpeedLimitFacts.storedCap_setLimit_other.
  - done.
  - done.
  - by rewrite !SpeedLimitFacts.storedCap_setLimit.
Qed.

Lemma setLimit_isolated_witness :
  getLimit "c2" "upload"
    (setLimit "c1" "upload" (of_Z 4096) (setLimit "c2" "upload" (of_Z 512) new))
  = getLimit "c2" "upload" (setLimit "c2" "upload" (of_Z 512) new).
Proof.
  refine (proj1 (setLimit_isolated
            (setLimit "c2" "upload" (of_Z 512) new)
            "c1" "upload" "c2" "upload" (of_Z 4096) (of_Z 1) _)).
  discriminate.
Defined.

(** X2: The effective cap is never 0 and never [NaN], whatever was stored, so
    the throttle never divides by a zero cap; and once a truthy global cap
    [g] is set for a direction, no connection gets more than [g] in that
    direction. *)
Theorem effective_limit_truthy (m : t) (c d : string) (g : num) :
  truthy (getEffectiveLimit c d m) = true
  ∧ getEffectiveLimit c d m ≠ NaN
  ∧ (truthy g = true →
     le (getEffectiveLimit c d (setGlobalLimit d g m)) g = true).
Proof.
  assert (Ht : ∀ m', truthy (getEffectiveLimit c d m') = true).
  { intros m'. unfold getEffectiveLimit, globalLimit.
    rewrite getLimit_stored. apply truthy_min; apply truthy_or_infinity. }
  split_and!.
  - apply Ht.
  - intros H. specialize (Ht m). by rewrite H in Ht.
  - intros Hg. unfold getEffectiveLimit, globalLimit.
    fold (storedGlobalCap d (setGlobalLimit d g m)).
    rewrite SpeedLimitFacts.storedGlobalCap_setGlobalLimit.
    rewrite (JSFacts.or_infinity_truthy g Hg), getLimit_stored.
    apply JSFacts.min_le_r.
    + apply JSFacts.or_infinity_not_NaN.
    + intros ->. done.
Qed.

Lemma effective_limit_truthy_witness :
  le (getEffectiveLimit "c1" "download"
        (setGlobalLimit "download" (of_Z 1024)
           (setLimit "c1" "download" (of_Z 8192) new)))
     (of_Z 1024) = true.
Proof.
  refine (proj2 (proj2 (effective_limit_truthy
            (setLimit "c1" "download" (of_Z 8192) new)
            "c1" "download" (of_Z 1024))) _).
  reflexivity.
Defined.

(** X3: [removeConnection] forgets the caps of that connection only: its
    effective cap falls back to the global one, and every other connection
    keeps its caps. *)
Theorem removeConnection_evicts (m : t) (c c' d : string) :
  getLimit c d (removeConnection c m) = PInf
  ∧ getEffectiveLimit c d (removeConnection c m) = globalLimit d m
  ∧ globalLimit d (removeConnection c m) = globalLimit d m
  ∧ (c' ≠ c → getLimit c' d (removeConnection c m) = getLimit c' d m).
Proof.
  split_and!.
  - apply SpeedLimitFacts.getLimit_removeConnection.
  - unfold getEffectiveLimit.
    rewrite SpeedLimitFacts.getLimit_removeConnection.
    apply min_PInf_l, JSFacts.or_infinity_not_NaN.
  - done.
  - intros Hne. unfold getLimit, removeConnection; cbn.
    by rewrite lookup_delete_ne.
Qed.

Lemma removeConnection_evicts_witness :
  getLimit "c2" "upload"
    (removeConnection "c1"
       (setLimit "c2" "upload" (of_Z 512)
          (setLimit "c1" "upload" (of_Z 4096) new)))
  = getLimit "c2" "upload"
      (setLimit "c2" "upload" (of_Z 512)
         (setLimit "c1" "upload" (of_Z 4096) new)).
Proof.
  refine (proj2 (proj2 (proj2 (removeConnection_evicts
            (setLimit "c2" "upload" (of_Z 512)
               (setLimit "c1" "upload" (of_Z 4096) new))
            "c1" "c2" "upload"))) _).
  discriminate.
Defined.

End RegistryFacts.


(** ** The limiter over a whole stream *)

Module ThrottleFacts.
Import JS SpeedLimiter SpeedLimiterSpec.

Lemma pos_not_zero (r : Q) : (0 < r)%Q → is_zero r = false.
Proof.
  intros Hr. unfold is_zero. destruct (Qeq_bool r 0) eqn:E; [| done].
  apply Qeq_bool_iff in E. rewrite E in Hr. by apply Qlt_irrefl in Hr.
Qed.

Lemma Qle_bool_false_lt (p q : Q) : Qle_bool p q = false → (q < p)%Q.
Proof.
  intros H. destruct (Qlt_le_dec q p) as [Hlt | Hle]; [done |].
  apply Qle_bool_iff in Hle. congruence.
Qed.

(** The budget test of [_transform] under a finite cap. *)
Lemma transform_finite_cap (len now : Z) (s : t) (r : Q) :
  maxBytesPerSecond s = Fin r →
  _transform len now s
  = (if le (of_Z (totalBytes s + len))
          (mul64 (div64 (of_Z (now - startTime s)) (of_Z 1000)) (Fin r))
     then Immediately
     else After (mul64 (div64 (sub64 (of_Z (totalBytes s + len))
                                (mul64 (div64 (of_Z (now - startTime s))
                                          (of_Z 1000)) (Fin r)))
                          (Fin r))
                   (of_Z 1000)),
     add_bytes len s).
Proof.
  intros Hr. unfold _transform, expectedBytes, elapsed. rewrite Hr.
  by destruct (le _ _).
Qed.

(** The wait computed from a budget that the count exceeds is not
    negative. *)
Lemma wait_nonneg (z ms : Z) (r : Q) :
  (0 < r)%Q →
  le (of_Z z) (mul64 (div64 (of_Z ms) (of_Z 1000)) (Fin r)) = false →
  le (of_Z 0)
    (mul64 (div64 (sub64 (of_Z z)
                     (mul64 (div64 (of_Z ms) (of_Z 1000)) (Fin r)))
              (Fin r))
       (of_Z 1000)) = true.
Proof.
  intros Hr Hle.
  apply RoundingFacts.mul64_1000_nonneg, RoundingFacts.div64_nonneg;
    [done |].
  destruct (mul64 (div64 (of_Z ms) (of_Z 1000)) (Fin r)) as [| | | b] eqn:E;
    try done.
  - by apply RoundingFacts.budget_not_NaN in E.
  - apply RoundingFacts.sub64_nonneg.
    apply Qlt_le_weak, Qle_bool_false_lt. exact Hle.
Qed.

(** X4: Under a positive cap [r] the test of [_transform] is the budget
    test, up to the rounding of the budget to binary64: a chunk that
    brings the count to at most [elapsed * r] less [2 ^ (-51)] of it is
    emitted at once, one emitted at once brings the count to at most
    [elapsed * r] plus [2 ^ (-51)] of it, and the wait of a delayed one
    is not negative. The limiter counts the chunk in either case. Clock
    readings and counts are within [2 ^ 53]. *)
Theorem transform_respects_budget (len now : Z) (s : t) (r : Q) :
  maxBytesPerSecond s = Fin r → (0 < r)%Q →
  (0 <= now - startTime s <= 2 ^ 53)%Z →
  (totalBytes s + len <= 2 ^ 53)%Z →
  let sent := inject_Z (totalBytes s + len) in
  let budget := (elapsedSeconds now s * r)%Q in
  ((sent <= budget * (1 - 2 ^ (-51)))%Q →
   fst (_transform len now s) = Immediately)
  ∧ (fst (_transform len now s) = Immediately →
     (sent <= budget * (1 + 2 ^ (-51)))%Q)
  ∧ (∀ wait, fst (_transform len now s) = After wait →
       le (of_Z 0) wait = true
       ∧ (budget * (1 - 2 ^ (-51)) < sent)%Q)
  ∧ snd (_transform len now s) = add_bytes len s.
Proof.
  intros Hr Hpos Hms Hz sent budget.
  destruct (RoundingFacts.budget_test (totalBytes s + len)
              (now - startTime s) r Hms Hpos) as [Hin Hout].
  fold sent in Hin, Hout. change (inject_Z (now - startTime s) / inject_Z 1000
                                  * r)%Q with budget in Hin, Hout.
  rewrite (transform_finite_cap len now s r Hr).
  pose proof (wait_nonneg (totalBytes s + len) (now - startTime s) r Hpos)
    as Hw.
  destruct (le (of_Z (totalBytes s + len))
              (mul64 (div64 (of_Z (now - startTime s)) (of_Z 1000)) (Fin r)))
    eqn:E; cbn [fst snd].
  - split_and!; [done | intros _; by apply Hout | done | done].
  - split_and!; [| done | | done].
    + intros H. apply Hin in H. congruence.
    + intros wait [= <-]. split; [by apply Hw |].
      apply Qnot_le_lt. intros H. apply Hin in H. congruence.
Qed.

Lemma transform_respects_budget_witness :
  fst (_transform 4096 1000 (new (Some (of_Z 1024)) None 0 0))
  ≠ Immediately
  ∧ ∀ wait,
      fst (_transform 4096 1000 (new (Some (of_Z 1024)) None 0 0))
      = After wait →
      le (of_Z 0) wait = true.
Proof.
  assert (H1 : (0 <= 1000 - startTime (new (Some (of_Z 1024)) None 0 0)
                <= 2 ^ 53)%Z) by (cbn; lia).
  assert (H2 : (totalBytes (new (Some (of_Z 1024)) None 0 0) + 4096
                <= 2 ^ 53)%Z) by (cbn; lia).
  pose proof (transform_respects_budget 4096 1000
                (new (Some (of_Z 1024)) None 0 0) (inject_Z 1024)
                eq_refl eq_refl H1 H2) as H.
  cbv zeta in H. destruct H as (_ & Hout & Hwait & _). split.
  - intros E. apply Hout in E. revert E. by vm_compute.
  - intros wait E. by apply Hwait.
Defined.

(** A chunk at the boundary of the budget: at 100000 bytes per second, 9
    ms after the start, 900 bytes are the exact budget; the limiter, whose
    budget is the product of two rounded numbers, delays them. At 307.2
    bytes per second, the cap being the binary64 number nearest to it,
    3072 bytes after 10 s exceed the exact budget and are emitted at
    once. *)
Example transform_at_the_boundary :
  (∃ wait, fst (_transform 900 9 (new (Some (of_Z 100000)) None 0 0))
           = After wait)
  ∧ (inject_Z 900 == elapsedSeconds 9 (new (Some (of_Z 100000)) None 0 0)
                     * inject_Z 100000)%Q
  ∧ ∃ cap, round64 (3072 # 10) = Fin cap
           ∧ fst (_transform 3072 10000 (new (Some (Fin cap)) None 0 0))
             = Immediately
           ∧ (elapsedSeconds 10000 (new (Some (Fin cap)) None 0 0) * cap
              < inject_Z 3072)%Q.
Proof.
  split_and!.
  - eexists. by vm_compute.
  - by vm_compute.
  - eexists. split; [by vm_compute |]. split; by vm_compute.
Qed.

Lemma run_cons (len now : Z) (rest : list (Z * Z)) (s : t) :
  LimitedStream.run ((len, now) :: rest) s
  = (fst (_transform len now s)
       :: fst (LimitedStream.run rest (snd (_transform len now s))),
     snd (LimitedStream.run rest (snd (_transform len now s)))).
Proof.
  cbn. destruct (_transform len now s) as [e s1]. cbn.
  by destruct (LimitedStream.run rest s1).
Qed.

Lemma transform_cap (len now : Z) (s : t) :
  maxBytesPerSecond (snd (_transform len now s)) = maxBytesPerSecond s.
Proof.
  unfold _transform. destruct (maxBytesPerSecond s) eqn:E; try done;
    by destruct (le _ _).
Qed.

Lemma transform_total (len now : Z) (s : t) :
  maxBytesPerSecond s ≠ PInf →
  totalBytes (snd (_transform len now s)) = (totalBytes s + len)%Z.
Proof.
  intros Hcap. unfold _transform.
  destruct (maxBytesPerSecond s) eqn:E; try done; by destruct (le _ _).
Qed.

(** X5: Byte accounting over a stream: one emission per chunk; under a cap
    [totalBytes] ends as the sum of the chunk lengths added to its start
    value, whether chunks were delayed or not; without a cap every chunk is
    emitted at once and the limiter is left exactly as it was. A limiter
    built without [maxBytesPerSecond], or with 0 or [NaN], has no cap. *)
Theorem stream_accounting (chunks : list (Z * Z)) (s : t) :
  length (fst (LimitedStream.run chunks s)) = length chunks
  ∧ (maxBytesPerSecond s ≠ PInf →
     totalBytes (snd (LimitedStream.run chunks s))
     = (totalBytes s + foldr Z.add 0 (chunks.*1))%Z)
  ∧ (maxBytesPerSecond s = PInf →
     LimitedStream.run chunks s
     = (replicate (length chunks) Immediately, s))
  ∧ (∀ optMax optChunk now1 now2,
       (∀ v, optMax = Some v → truthy v = false) →
       maxBytesPerSecond (new optMax optChunk now1 now2) = PInf).
Proof.
  split_and!.
  - revert s. induction chunks as [| [len now] rest IH]; intros s; [done |].
    rewrite run_cons. cbn. by rewrite IH.
  - revert s. induction chunks as [| [len now] rest IH]; intros s Hcap.
    + cbn. lia.
    + rewrite run_cons. cbn [snd fmap list_fmap foldr fst].
      rewrite IH by (by rewrite transform_cap).
      rewrite transform_total by done. lia.
  - revert s. induction chunks as [| [len now] rest IH]; intros s Hcap;
      [done |].
    rewrite run_cons.
    assert (Ht : _transform len now s = (Immediately, s))
      by (unfold _transform; by rewrite Hcap).
    rewrite Ht. cbn [fst snd]. by rewrite IH.
  - intros optMax optChunk now1 now2 Hf. cbn.
    destruct optMax as [v |]; [| done].
    by apply JSFacts.or_infinity_falsy, Hf.
Qed.

Lemma stream_accounting_witness :
  totalBytes (snd (LimitedStream.run [(4096, 10); (4096, 20); (100, 5000)]
                     (new (Some (of_Z 1024)) None 0 0)))
  = (0 + foldr Z.add 0 ([(4096, 10); (4096, 20); (100, 5000)].*1))%Z.
Proof.
  refine (proj1 (proj2 (stream_accounting
            [(4096, 10); (4096, 20); (100, 5000)]
            (new (Some (of_Z 1024)) None 0 0))) _).
  discriminate.
Defined.

End ThrottleFacts.


(** ** Sessions: registration, capabilities, chunks *)

Module SessionFacts.
Import JS ConnectionManager ConnectionSpec.

(** X6: [connect] registers a session exactly when it returns an id: the id
    is the one drawn, the entry carries the configuration and the kind of
    the protocol (['ftp'] and ['ftps'] share one kind), every other session
    and the limit registry are as before. When it throws - a failed
    handshake or an unknown protocol - the manager is unchanged, and an
    unknown protocol is rejected whatever the transport does. *)
Theorem connect_registers (connectionId : string) (cfg : Config)
    (transport : option string) (m : t) :
  match connect connectionId cfg transport m with
  | (Ok i, m') =>
      i = connectionId ∧ transport = None
      ∧ (∃ ty, connections m' !! connectionId
               = Some {| id := connectionId; type := ty; config := cfg |}
               ∧ (ty = sftp ↔ protocol cfg = "sftp"))
      ∧ (∀ c', c' ≠ connectionId →
           connections m' !! c' = connections m !! c')
      ∧ speedLimitManager m' = speedLimitManager m
  | (Throw _, m') => m' = m
  end
  ∧ (transport = None →
     protocol cfg = "ftp" ∨ protocol cfg = "ftps" ∨ protocol cfg = "sftp" →
     fst (connect connectionId cfg transport m) = Ok connectionId)
  ∧ (protocol cfg ≠ "ftp" → protocol cfg ≠ "ftps" → protocol cfg ≠ "sftp" →
     connect connectionId cfg transport m
     = (Throw ("Unsupported protocol: " +:+ protocol cfg), m)).
Proof.
  unfold connect. split_and!.
  - case_bool_decide as H1; [| case_bool_decide as H2].
    + destruct transport; [done |]. split_and!; try done.
      * exists ftp. cbn. rewrite lookup_insert_eq. split; [done |].
        split; [done |]. intros Hs. destruct H1 as [H1 | H1];
          rewrite H1 in Hs; discriminate.
      * intros c' Hne. cbn. by rewrite lookup_insert_ne.
    + destruct transport; [done |]. split_and!; try done.
      * exists sftp. cbn. by rewrite lookup_insert_eq.
      * intros c' Hne. cbn. by rewrite lookup_insert_ne.
    + done.
  - intros -> Hp. case_bool_decide as H1; [done |].
    case_bool_decide as H2; [done |]. tauto.
  - intros H1 H2 H3. rewrite bool_decide_eq_false_2 by tauto.
    by rewrite bool_decide_eq_false_2.
Qed.

Lemma connect_registers_witness :
  fst (connect "c7" (mkConfig "ftps" "example.org" "u" false) None new)
  = Ok "c7".
Proof.
  refine (proj1 (proj2 (connect_registers "c7"
            (mkConfig "ftps" "example.org" "u" false) None new)) eq_refl _).
  right. left. reflexivity.
Defined.

(** X7: [disconnect] succeeds exactly for a registered id, and then removes
    that session and nothing else: every other session still resolves, and a
    second [disconnect] of the id throws the error of an unknown
    connection. *)
Theorem disconnect_exact (c : string) (m : t) :
  (disconnect c m = Throw NotFound ↔ connections m !! c = None)
  ∧ (∀ m', disconnect c m = Ok m' →
       connections m' !! c = None
       ∧ (∀ c', c' ≠ c → connections m' !! c' = connections m !! c')
       ∧ disconnect c m' = Throw NotFound).
Proof.
  unfold disconnect. split.
  - by destruct (connections m !! c).
  - intros m'. destruct (connections m !! c); [| done].
    intros [= <-]. cbn. rewrite lookup_delete_eq. split_and!; try done.
    intros c' Hne. by rewrite lookup_delete_ne.
Qed.

(** The registry with the two example sessions [c1] (FTP) and [c2]
    (SFTP). *)
Lemma disconnect_exact_witness :
  ∃ m', disconnect "c1" ftpSession = Ok m'
        ∧ connections m' !! "c1" = None
        ∧ disconnect "c1" m' = Throw NotFound.
Proof.
  destruct (disconnect "c1" ftpSession) as [m' | e] eqn:E;
    [| vm_compute in E; discriminate E].
  exists m'. split; [reflexivity |].
  destruct (proj2 (disconnect_exact "c1" ftpSession) m' E) as (H1 & _ & H3).
  by split.
Defined.

(** X8: Capabilities by kind of session. On an FTP session [renameFile],
    [getFileStats] and [chmod] throw without consulting the transport: the
    outcome is the same whatever the server would answer. On an SFTP
    session each of them succeeds exactly when the transport does. *)
Theorem capabilities_by_kind (c : string) (conn : Connection) (m : t)
    (tr tr' : option string) :
  connections m !! c = Some conn →
  match type conn with
  | ftp =>
      renameFile c tr m = renameFile c tr' m
      ∧ chmod c tr m = chmod c tr' m
      ∧ (∀ (reply reply' : unit + string),
           getFileStats c reply m = getFileStats c reply' m)
      ∧ renameFile c tr m ≠ Ok ()
      ∧ chmod c tr m ≠ Ok ()
      ∧ (deleteFile c tr m = Ok () ↔ tr = None)
  | sftp =>
      (renameFile c tr m = Ok () ↔ tr = None)
      ∧ (chmod c tr m = Ok () ↔ tr = None)
      ∧ (deleteFile c tr m = Ok () ↔ tr = None)
      ∧ (∀ msg, tr = Some msg →
           renameFile c tr m = Throw ("Rename failed: " +:+ msg)
           ∧ chmod c tr m = Throw ("Failed to change permissions: " +:+ msg)
           ∧ deleteFile c tr m = Throw ("Delete failed: " +:+ msg))
  end.
Proof.
  intros Hc. unfold renameFile, chmod, getFileStats, deleteFile.
  rewrite Hc. destruct (type conn).
  - split_and!; try done. by destruct tr.
  - split_and!; try (by destruct tr). by intros msg ->.
Qed.

Lemma capabilities_by_kind_witness :
  renameFile "c1" None ftpSession = renameFile "c1" (Some "550") ftpSession
  ∧ chmod "c1" None ftpSession = chmod "c1" (Some "550") ftpSession
  ∧ (∀ (reply reply' : unit + string),
       getFileStats "c1" reply ftpSession = getFileStats "c1" reply' ftpSession)
  ∧ renameFile "c1" None ftpSession ≠ Ok ()
  ∧ chmod "c1" None ftpSession ≠ Ok ()
  ∧ (deleteFile "c1" None ftpSession = Ok () ↔ None = (None : option string)).
Proof.
  exact (capabilities_by_kind "c1"
           {| id := "c1"; type := ftp;
              config := mkConfig "ftp" "127.0.0.1" "user" false |}
           ftpSession None (Some "550") eq_refl).
Defined.

(** *** Percent, chunk size and throttle of a step *)

Lemma percentOf_pos_total (c : Chunk) :
  (0 < chunk_total c)%Z →
  percentOf c
  = round (mul64 (round64 (inject_Z (total_transferred c)
                           / inject_Z (chunk_total c)))
                 (of_Z 100)).
Proof.
  intros Hpos. unfold percentOf, div64, of_Z, div.
  assert (Hz : is_zero (inject_Z (chunk_total c)) = false).
  { unfold is_zero. destruct (Qeq_bool _ _) eqn:E; [| done].
    apply Qeq_bool_iff in E. unfold Qeq in E. cbn in E. lia. }
  by rewrite Hz.
Qed.

Lemma inject_Z_pos (b : Z) : (0 < b)%Z → (0 < inject_Z b)%Q.
Proof. intros H. unfold Qlt. cbn. lia. Qed.

Lemma inject_Z_nonneg (a : Z) : (0 <= a)%Z → (0 <= inject_Z a)%Q.
Proof. intros H. unfold Qle. cbn. lia. Qed.

Lemma inject_Z_le (a b : Z) : (a <= b)%Z → (inject_Z a <= inject_Z b)%Q.
Proof. intros H. unfold Qle. cbn. lia. Qed.

Lemma ratio_bounds (a b : Z) :
  (0 <= a <= b)%Z → (0 < b)%Z →
  (0 <= inject_Z a / inject_Z b <= 1)%Q.
Proof.
  intros [Ha Hab] Hb.
  pose proof (inject_Z_pos b Hb) as HbQ.
  pose proof (inject_Z_nonneg a Ha) as HaQ.
  pose proof (inject_Z_le a b Hab) as HabQ.
  split.
  - apply Qle_shift_div_l; [done |]. lra.
  - apply Qle_shift_div_r; [done |]. lra.
Qed.

(** [Math.round] and the product by 100 keep the order. *)
Lemma round_mono (a b : num) : le a b = true → le (round a) (round b) = true.
Proof.
  destruct a as [| | | p], b as [| | | q]; try done.
  unfold round, of_Z, le. intros H%Qle_bool_iff.
  apply Qle_bool_iff, inject_Z_le, Qfloor_resp_le. lra.
Qed.

Lemma mul64_100_mono (p q : Q) :
  (p <= q)%Q →
  le (mul64 (round64 p) (of_Z 100)) (mul64 (round64 q) (of_Z 100)) = true.
Proof.
  intros Hpq. pose proof (RoundingFacts.round64_mono p q Hpq) as Hle.
  pose proof (RoundingFacts.round64_not_NaN p) as Hp.
  pose proof (RoundingFacts.round64_not_NaN q) as Hq.
  destruct (round64 p) as [| | | x], (round64 q) as [| | | y]; try done.
  - change (mul64 NInf (of_Z 100)) with NInf.
    change (mul64 (Fin y) (of_Z 100)) with (round64 (y * inject_Z 100)).
    pose proof (RoundingFacts.round64_not_NaN (y * inject_Z 100)).
    by destruct (round64 _).
  - change (mul64 PInf (of_Z 100)) with PInf.
    change (mul64 (Fin x) (of_Z 100)) with (round64 (x * inject_Z 100)).
    pose proof (RoundingFacts.round64_not_NaN (x * inject_Z 100)).
    by destruct (round64 _).
  - change (mul64 (Fin x) (of_Z 100)) with (round64 (x * inject_Z 100)).
    change (mul64 (Fin y) (of_Z 100)) with (round64 (y * inject_Z 100)).
    apply RoundingFacts.round64_mono. cbn in Hle.
    apply Qle_bool_iff in Hle. apply Qmult_le_compat_r; [done |].
    by apply Qle_bool_iff.
Qed.

Lemma percent_mono (p q : Q) :
  (p <= q)%Q →
  le (round (mul64 (round64 p) (of_Z 100)))
     (round (mul64 (round64 q) (of_Z 100))) = true.
Proof. intros H. by apply round_mono, mul64_100_mono. Qed.

Lemma of_Z_le (a b : Z) : le (of_Z a) (of_Z b) = true → (a <= b)%Z.
Proof.
  unfold of_Z, le. intros H%Qle_bool_iff. unfold Qle in H. cbn in H. lia.
Qed.

(** X9: The percent of a step for a file of positive size, with
    [0 <= transferred <= total]: a whole number between 0 and 100, 0 at the
    start and 100 when everything is transferred, and it never decreases as
    bytes arrive. For an empty file (0 of 0 bytes) it is [NaN]. *)
Theorem percent_bounds (c c' : Chunk) :
  (0 < chunk_total c)%Z →
  (0 <= total_transferred c <= chunk_total c)%Z →
  (∃ z, percentOf c = of_Z z ∧ (0 <= z <= 100)%Z
        ∧ (total_transferred c = 0%Z → z = 0%Z)
        ∧ (total_transferred c = chunk_total c → z = 100%Z))
  ∧ (chunk_total c' = chunk_total c →
     (total_transferred c <= total_transferred c')%Z →
     le (percentOf c) (percentOf c') = true)
  ∧ percentOf {| total_transferred := 0; chunk_total := 0;
                 now1 := now1 c; now2 := now2 c |} = NaN.
Proof.
  intros Hpos Hb.
  assert (P0 : round (mul64 (round64 0) (of_Z 100)) = of_Z 0)
    by (by vm_compute).
  assert (P1 : round (mul64 (round64 1) (of_Z 100)) = of_Z 100)
    by (by vm_compute).
  pose proof (ratio_bounds _ _ Hb Hpos) as [Hlo Hhi].
  set (x := (inject_Z (total_transferred c) / inject_Z (chunk_total c))%Q)
    in *.
  pose proof (percent_mono 0 x Hlo) as H0. rewrite P0 in H0.
  pose proof (percent_mono x 1 Hhi) as H1. rewrite P1 in H1.
  split_and!.
  - rewrite (percentOf_pos_total c Hpos). fold x.
    destruct (mul64 (round64 x) (of_Z 100)) as [| | | v] eqn:Ev; try done.
    exists (Qfloor (v + (1 # 2))). split; [done |].
    change (round (Fin v)) with (of_Z (Qfloor (v + (1 # 2)))) in H0, H1.
    apply of_Z_le in H0, H1. split_and!; [done | done | |].
    + intros Ht.
      assert (Hx : (x <= 0)%Q).
      { unfold x. rewrite Ht. unfold Qdiv. change (inject_Z 0) with 0%Q.
        lra. }
      pose proof (percent_mono x 0 Hx) as H2. rewrite P0, Ev in H2.
      apply of_Z_le in H2. lia.
    + intros Ht.
      assert (Hx : (1 <= x)%Q).
      { unfold x. rewrite Ht. apply Qle_shift_div_l;
          [by apply inject_Z_pos |]. lra. }
      pose proof (percent_mono 1 x Hx) as H2. rewrite P1, Ev in H2.
      apply of_Z_le in H2. lia.
  - intros Ht Hle. rewrite (percentOf_pos_total c Hpos).
    rewrite (percentOf_pos_total c') by (by rewrite Ht).
    rewrite Ht. apply percent_mono.
    pose proof (inject_Z_pos _ Hpos) as HbQ.
    unfold Qdiv. apply Qmult_le_compat_r.
    + by apply inject_Z_le.
    + apply Qlt_le_weak, Qinv_lt_0_compat, HbQ.
  - reflexivity.
Qed.

(** 23 of 40 bytes are reported as 57 percent: the quotient 0.575 is
    not a binary64 number, and its product by 100 falls below 57.5. *)
Example percent_of_23_of_40 :
  percentOf {| total_transferred := 23; chunk_total := 40;
               now1 := 0; now2 := 0 |} = of_Z 57.
Proof. by vm_compute. Qed.

Lemma percent_bounds_witness :
  ∃ z, percentOf {| total_transferred := 333; chunk_total := 1000;
                    now1 := 0; now2 := 0 |} = of_Z z
       ∧ (0 <= z <= 100)%Z
       ∧ ((333 = 0)%Z → z = 0%Z)
       ∧ ((333 = 1000)%Z → z = 100%Z).
Proof.
  refine (proj1 (percent_bounds
            {| total_transferred := 333; chunk_total := 1000;
               now1 := 0; now2 := 0 |}
            {| total_transferred := 333; chunk_total := 1000;
               now1 := 0; now2 := 0 |} _ _)); cbn; lia.
Defined.

End SessionFacts.


(** ** The throttle and the chunk size of a step *)

Module StepFacts.
Import JS ConnectionManager ConnectionSpec.

Lemma step_outcome (limit fileSize : num) (cb : bool) (c : Chunk)
    (s : StepState) :
  fst (step limit fileSize cb c s)
  = match throttleDelay limit (startTime s) c with
    | Some delay => Throttled delay
    | None =>
        if cb then
          Reported {| percent := percentOf c;
                      transferred := total_transferred c;
                      total := fileSize;
                      speed := speedBetween (now2 c - lastTime s)
                                 (total_transferred c - lastTransferred s);
                      speedLimit := appliedCap limit |}
        else Silent
    end.
Proof.
  unfold step. cbn [startTime]. destruct (throttleDelay _ _ _); [done |].
  destruct cb; [| done]. cbn [fst].
  by rewrite ConnectionFacts.instantSpeed_speedBetween.
Qed.

(** The budget test of [step] under a positive cap. *)
Lemma throttleDelay_finite_cap (r : Q) (start : Z) (c : Chunk) :
  (0 < r)%Q →
  throttleDelay (Fin r) start c
  = if le (of_Z (total_transferred c))
         (mul64 (div64 (of_Z (now1 c - start)) (of_Z 1000)) (Fin r))
    then None
    else Some (mul64 (div64 (sub64 (of_Z (total_transferred c))
                               (mul64 (div64 (of_Z (now1 c - start))
                                         (of_Z 1000)) (Fin r)))
                         (Fin r))
                  (of_Z 1000)).
Proof.
  intros Hr. unfold throttleDelay, of_Z at 1 4.
  rewrite RoundingFacts.gt_not_le
    by apply (RoundingFacts.budget_not_NaN _ _ Hr).
  by destruct (le _ _).
Qed.

(** X10: Under a positive cap [r] the test of a step is the budget test,
    up to the rounding of the budget to binary64: a step whose bytes
    exceed [elapsed * r] plus [2 ^ (-51)] of it is throttled, a throttled
    step has bytes above [elapsed * r] less [2 ^ (-51)] of it, and its
    delay is not negative. Without a cap no step is ever throttled. Clock
    readings and counts are within [2 ^ 53]. *)
Theorem step_throttle_budget (r : Q) (fileSize : num) (cb : bool) (c : Chunk)
    (s : StepState) :
  (0 < r)%Q →
  (0 <= now1 c - startTime s <= 2 ^ 53)%Z →
  (total_transferred c <= 2 ^ 53)%Z →
  let sent := inject_Z (total_transferred c) in
  let budget :=
    (inject_Z (now1 c - startTime s) / inject_Z 1000 * r)%Q in
  ((budget * (1 + 2 ^ (-51)) < sent)%Q →
   ∃ delay, fst (step (Fin r) fileSize cb c s) = Throttled delay)
  ∧ (∀ delay, fst (step (Fin r) fileSize cb c s) = Throttled delay →
       (budget * (1 - 2 ^ (-51)) < sent)%Q ∧ le (of_Z 0) delay = true)
  ∧ (∀ delay, fst (step PInf fileSize cb c s) ≠ Throttled delay).
Proof.
  intros Hpos Hms Hz sent budget.
  destruct (RoundingFacts.budget_test (total_transferred c)
              (now1 c - startTime s) r Hms Hpos) as [Hin Hout].
  specialize (Hout Hz). fold sent in Hin, Hout.
  change (inject_Z (now1 c - startTime s) / inject_Z 1000 * r)%Q
    with budget in Hin, Hout.
  pose proof (ThrottleFacts.wait_nonneg (total_transferred c)
                (now1 c - startTime s) r Hpos) as Hw.
  rewrite !step_outcome, throttleDelay_finite_cap by done.
  destruct (le (of_Z (total_transferred c))
              (mul64 (div64 (of_Z (now1 c - startTime s)) (of_Z 1000))
                 (Fin r))) eqn:E.
  - split_and!.
    + intros H. specialize (Hout eq_refl).
      exfalso. apply (Qlt_not_le _ _ H Hout).
    + intros delay. by destruct cb.
    + intros delay. cbn. by destruct cb.
  - split_and!.
    + intros _. by eexists.
    + intros delay [= <-]. split; [| by apply Hw].
      apply Qnot_le_lt. intros H. apply Hin in H. congruence.
    + intros delay. cbn. by destruct cb.
Qed.

Lemma step_throttle_budget_witness :
  ∃ delay,
    fst (step (Fin (inject_Z 1024)) (of_Z 100000) true
           StepSpec.firstChunk StepSpec.freshStep) = Throttled delay
    ∧ le (of_Z 0) delay = true.
Proof.
  assert (H1 : (0 <= now1 StepSpec.firstChunk
                     - startTime StepSpec.freshStep <= 2 ^ 53)%Z)
    by (cbn; lia).
  assert (H2 : (total_transferred StepSpec.firstChunk <= 2 ^ 53)%Z)
    by (cbn; lia).
  pose proof (step_throttle_budget (inject_Z 1024) (of_Z 100000) true
                StepSpec.firstChunk StepSpec.freshStep eq_refl H1 H2) as H.
  cbv zeta in H. destruct H as (Hover & Hthr & _).
  destruct Hover as [delay Hd]; [by vm_compute |].
  exists delay. split; [done |]. by apply (Hthr delay).
Defined.

(** A step at the boundary of the budget: at 100000 bytes per second, 9
    ms after the start, 900 bytes are the exact budget, and the step is
    throttled. *)
Example step_at_the_boundary :
  (∃ delay,
     fst (step (of_Z 100000) (of_Z 1000) true
            {| total_transferred := 900; chunk_total := 1000;
               now1 := 9; now2 := 9 |} StepSpec.freshStep)
     = Throttled delay)
  ∧ (inject_Z 900 == inject_Z (9 - 0) / inject_Z 1000 * inject_Z 100000)%Q.
Proof. split; [eexists |]; by vm_compute. Qed.

(** X11: The chunk size asked of the SFTP library: 65536 bytes without a cap;
    under a cap [r] the smaller of 65536 and a tenth of [r] - never above
    65536, positive for a positive cap, and exactly [r / 10] up to
    655360 B/s, with no lower bound: below 10 B/s it is less than one
    byte. *)
Theorem chunk_size_bounds (limit : num) :
  limit ≠ NaN →
  le (chunkSizeFor limit) (of_Z 65536) = true
  ∧ (limit = PInf → chunkSizeFor limit = of_Z 65536)
  ∧ (∀ r, limit = Fin r →
       ∃ q, chunkSizeFor limit = Fin q
            ∧ (q <= r / 10)%Q
            ∧ ((r <= 655360)%Q → (q == r / 10)%Q)
            ∧ ((0 < r)%Q → (0 < q)%Q)
            ∧ ((0 < r)%Q → (r < 10)%Q → (q < 1)%Q)).
Proof.
  assert (Hfin : ∀ r, chunkSizeFor (Fin r)
                      = if Qle_bool (inject_Z 65536) (r / inject_Z 10)
                        then Fin (inject_Z 65536)
                        else Fin (r / inject_Z 10)) by reflexivity.
  intros Hn. split_and!.
  - destruct limit as [| | | r]; try done. rewrite Hfin.
    destruct (Qle_bool (inject_Z 65536) (r / inject_Z 10)) eqn:E.
    + apply JSFacts.Qle_bool_refl.
    + by apply JSFacts.Qle_bool_false_flip.
  - by intros ->.
  - intros r ->. rewrite Hfin.
    assert (H10 : (inject_Z 10 == 10)%Q) by reflexivity.
    assert (H64 : (inject_Z 65536 == 65536)%Q) by reflexivity.
    assert (Hd : (r / inject_Z 10 == r * (1 # 10))%Q)
      by (rewrite H10; field).
    assert (Hd' : (r / 10 == r * (1 # 10))%Q) by field.
    destruct (Qle_bool (inject_Z 65536) (r / inject_Z 10)) eqn:E.
    + apply Qle_bool_iff in E. rewrite Hd, H64 in E.
      eexists. split; [reflexivity |]. rewrite H64, Hd'.
      split_and!; intros; lra.
    + apply ThrottleFacts.Qle_bool_false_lt in E. rewrite Hd, H64 in E.
      eexists. split; [reflexivity |]. rewrite Hd, Hd'.
      split_and!; intros; lra.
Qed.

Lemma chunk_size_bounds_witness :
  le (chunkSizeFor (of_Z 5)) (of_Z 65536) = true
  ∧ (of_Z 5 = PInf → chunkSizeFor (of_Z 5) = of_Z 65536)
  ∧ (∀ r, of_Z 5 = Fin r →
       ∃ q, chunkSizeFor (of_Z 5) = Fin q
            ∧ (q <= r / 10)%Q
            ∧ ((r <= 655360)%Q → (q == r / 10)%Q)
            ∧ ((0 < r)%Q → (0 < q)%Q)
            ∧ ((0 < r)%Q → (r < 10)%Q → (q < 1)%Q)).
Proof. apply (chunk_size_bounds (of_Z 5)). discriminate. Defined.

End StepFacts.


(** ** The speed limits of the settings dialog *)

Module SettingsFacts.
Import JS ConnectionManager SpeedSettings.

Lemma truthy_mul_1024 (v : num) :
  truthy v = true → truthy (mul v (of_Z 1024)) = true.
Proof.
  destruct v as [| | | q]; try done. cbn. intros Hq.
  apply negb_true_iff in Hq. apply negb_true_iff.
  unfold is_zero in *. destruct (Qeq_bool (q * _) 0) eqn:E; [| done].
  apply Qeq_bool_iff in E. apply Qmult_integral in E as [E | E].
  - apply Qeq_bool_iff in E. congruence.
  - discriminate.
Qed.

Lemma convertToBytes_truthy (parsed : num) (unit : string) :
  truthy (convertToBytes (fieldValue parsed) unit) = true
  ∧ (truthy parsed = false
     → convertToBytes (fieldValue parsed) unit = PInf).
Proof.
  unfold convertToBytes, fieldValue, or.
  destruct (truthy parsed) eqn:Ht.
  - split; [| done].
    assert (Hz : eqb parsed (of_Z 0) = false).
    { destruct parsed as [| | | q]; try done. cbn in *.
      by apply negb_true_iff in Ht. }
    rewrite Hz. case_bool_decide; by repeat apply truthy_mul_1024.
  - done.
Qed.

(** X12: Whatever is typed into the speed limit fields, the value the dialog
    sends is never falsy: an empty, malformed or zero field becomes
    [Infinity] (no limit), any other number is scaled to bytes. Hence
    [getSpeedLimits] reads back exactly the four values applied, for the
    connection and globally. *)
Theorem applySettings_read_back (form : Form) (c : string) (m : t) :
  getSpeedLimits c (applySettings form (Some c) m)
  = mkSpeedLimits (bytesOf (connectionUpload form))
      (bytesOf (connectionDownload form))
      (bytesOf (globalUpload form))
      (bytesOf (globalDownload form))
  ∧ (∀ field, truthy (bytesOf field) = true)
  ∧ (∀ unit, bytesOf (NaN, unit) = PInf ∧ bytesOf (of_Z 0, unit) = PInf).
Proof.
  assert (Ht : ∀ field, truthy (bytesOf field) = true)
    by (intros [p u]; apply convertToBytes_truthy).
  split_and!; [| done | done].
  unfold getSpeedLimits, applySettings. f_equal.
  - rewrite SpeedLimitFacts.getLimit_stored. cbn.
    rewrite SpeedLimitFacts.storedCap_setLimit_other by done.
    rewrite SpeedLimitFacts.storedCap_setLimit.
    apply JSFacts.or_infinity_truthy, Ht.
  - rewrite SpeedLimitFacts.getLimit_stored. cbn.
    rewrite SpeedLimitFacts.storedCap_setLimit.
    apply JSFacts.or_infinity_truthy, Ht.
  - cbn. rewrite lookup_insert_ne by done. rewrite lookup_insert_eq.
    apply JSFacts.or_infinity_truthy, Ht.
  - cbn. rewrite lookup_insert_eq.
    apply JSFacts.or_infinity_truthy, Ht.
Qed.

(** X13: What the dialog shows for a positive cap read back converts to the
    same number of bytes when applied again, in either unit; [Infinity]
    leaves the field alone. *)
Theorem displayLimit_converts_back (r : Q) :
  (0 < r)%Q →
  (∃ v unit r',
     displayLimit (Fin r) = Some (Fin v, unit)
     ∧ bytesOf (Fin v, unit) = Fin r' ∧ (r' == r)%Q
     ∧ (unit = "MB/s" ↔ (1048576 <= r)%Q))
  ∧ displayLimit PInf = None.
Proof.
  intros Hr. split; [| done].
  assert (H1024 : (inject_Z 1024 == 1024)%Q) by reflexivity.
  assert (Hdisp : displayLimit (Fin r)
                  = if Qle_bool (inject_Z 1024) (r / inject_Z 1024)
                    then Some (Fin (r / inject_Z 1024 / inject_Z 1024), "MB/s")
                    else Some (Fin (r / inject_Z 1024), "KB/s"))
    by reflexivity.
  assert (Hd : (r / inject_Z 1024 == r * (1 # 1024))%Q)
    by (rewrite H1024; field).
  assert (Hconv : ∀ v u, (0 < v)%Q →
            bytesOf (Fin v, u)
            = if bool_decide (u = "MB/s")
              then Fin (v * inject_Z 1024 * inject_Z 1024)
              else Fin (v * inject_Z 1024)).
  { intros v u Hv. unfold bytesOf, convertToBytes, fieldValue, or. cbn.
    pose proof (ThrottleFacts.pos_not_zero v Hv) as Hz.
    rewrite Hz. cbn [negb]. unfold eqb, of_Z. unfold is_zero in Hz.
    change (inject_Z 0) with 0%Q. rewrite Hz.
    by case_bool_decide. }
  rewrite Hdisp. destruct (Qle_bool _ _) eqn:E.
  - apply Qle_bool_iff in E. rewrite Hd, H1024 in E.
    eexists _, _, _. split; [reflexivity |]. split.
    + rewrite Hconv; [reflexivity |].
      apply Qlt_shift_div_l; [reflexivity |].
      apply Qlt_shift_div_l; [reflexivity |]. lra.
    + split; [field |]. split; [intros _; lra | done].
  - apply ThrottleFacts.Qle_bool_false_lt in E. rewrite Hd, H1024 in E.
    eexists _, _, _. split; [reflexivity |]. split.
    + rewrite Hconv; [reflexivity |].
      apply Qlt_shift_div_l; [reflexivity |]. lra.
    + split; [field |]. split; [done | intros; lra].
Qed.

Lemma displayLimit_converts_back_witness :
  ∃ v unit r',
    displayLimit (Fin (inject_Z 2097152)) = Some (Fin v, unit)
    ∧ bytesOf (Fin v, unit) = Fin r' ∧ (r' == inject_Z 2097152)%Q
    ∧ (unit = "MB/s" ↔ (1048576 <= inject_Z 2097152)%Q).
Proof.
  exact (proj1 (displayLimit_converts_back (inject_Z 2097152) eq_refl)).
Defined.

End SettingsFacts.


(** ** A transfer end to end *)

Module EngineFacts.
Import TransferQueue QueueSpec QueueFacts.

Local Open Scope nat_scope.

(** In a state of the invariant an item of the backlog is found under its
    own id. *)
Lemma findById_self (x : nat) (s : t) :
  Inv s → x ∈ queue s → is_Some (objs s !! x) → findById x s = Some x.
Proof.
  intros HI Hin [it Hit].
  destruct (findById x s) as [r |] eqn:E.
  - f_equal. by apply (findById_ref x r s HI).
  - unfold findById in E. eapply find_None_all in E; [| exact Hin].
    cbn in E. rewrite Hit in E.
    rewrite (inv_ids s HI x it Hit) in E. by rewrite Nat.eqb_refl in E.
Qed.

Lemma settle_outcome (ref : nat) (reply : option string) (it : Item.t)
    (s : t) :
  Inv s → ref ∈ queue s → ref ∈ running s → objs s !! ref = Some it →
  statusOf ref (settle ref reply s)
  = Some (match reply with None => Completed | Some _ => Error end)
  ∧ objs (settle ref reply s) !! ref
    = Some (match reply with
            | None => Item.set_progress (JS.of_Z 100)
                        (Item.set_status Completed it)
            | Some msg => Item.set_error msg (Item.set_status Error it)
            end)
  ∧ timers (settle ref reply s) = S (timers s).
Proof.
  intros HI Hq Hr Hit.
  pose proof (Inv_settle ref reply s HI) as HI'.
  assert (Hobj : objs (settle ref reply s) !! ref
                 = Some (match reply with
                         | None => Item.set_progress (JS.of_Z 100)
                                     (Item.set_status Completed it)
                         | Some msg =>
                             Item.set_error msg (Item.set_status Error it)
                         end)).
  { unfold settle. rewrite bool_decide_eq_true_2 by done.
    destruct reply; cbn; by rewrite lookup_alter_eq, Hit. }
  assert (Hqueue : queue (settle ref reply s) = queue s).
  { unfold settle. rewrite bool_decide_eq_true_2 by done.
    by destruct reply. }
  split_and!.
  - unfold statusOf. rewrite (findById_self ref _ HI').
    + cbn. rewrite Hobj. by destruct reply.
    + by rewrite Hqueue.
    + by rewrite Hobj.
  - done.
  - unfold settle. rewrite bool_decide_eq_true_2 by done. by destruct reply.
Qed.

(** X14: A transfer whose session id is not registered in the main process -
    never connected, or disconnected while the item waited - ends in
    ['error'] with the message ['Connection not found']: no progress
    message is sent, the item keeps its progress, and the next scheduling
    pass is scheduled. This holds for uploads and downloads, in every state
    the queue can reach. *)
Theorem transfer_on_unknown_session (k : nat) (events : list Event)
    (ref : nat) (it : Item.t) (sc : ConnectionManager.Script)
    (m : ConnectionManager.t) :
  let s := run events (init k) in
  ref ∈ queue s → ref ∈ running s → objs s !! ref = Some it →
  ConnectionManager.connections m !! Item.connectionId it = None →
  Engine.serve it sc m
  = ([], MainProcess.Failure ConnectionManager.NotFound)
  ∧ statusOf ref (Engine.complete ref sc m s) = Some Error
  ∧ objs (Engine.complete ref sc m s) !! ref
    = Some (Item.set_error ConnectionManager.NotFound
              (Item.set_status Error it))
  ∧ timers (Engine.complete ref sc m s) = S (timers s).
Proof.
  intros s Hq Hr Hit Hc.
  pose proof (Inv_run events (init k) (Inv_init k)) as HI. fold s in HI.
  assert (Hserve : Engine.serve it sc m
                   = ([], MainProcess.Failure ConnectionManager.NotFound)).
  { unfold Engine.serve, MainProcess.uploadFileWithProgress,
      MainProcess.downloadFileWithProgress,
      ConnectionManager.uploadFile, ConnectionManager.downloadFile.
    rewrite Hc. by destruct (Item.type it). }
  split; [done |].
  unfold Engine.complete. rewrite Hit, Hserve. cbn [Engine.receive fold_left].
  apply (settle_outcome ref (Some ConnectionManager.NotFound) it s);
    assumption.
Qed.

Lemma transfer_on_unknown_session_witness :
  statusOf 1 (Engine.complete 1 ConnectionSpec.twoChunks
                ConnectionManager.new
                (run [EvAdd anUpload 0] (init 3)))
  = Some Error.
Proof.
  pose proof (transfer_on_unknown_session 3 [EvAdd anUpload 0] 1
                EngineSpec.startedUpload
                ConnectionSpec.twoChunks ConnectionManager.new) as H.
  cbv zeta in H.
  refine (proj1 (proj2 (H _ _ _ _))).
  - vm_compute. left.
  - vm_compute. left.
  - vm_compute. reflexivity.
  - vm_compute. reflexivity.
Defined.

(** X15: On an FTP or FTPS session a transfer that succeeds sends no progress
    message at all: the item stays at the progress it had while the file
    moves, and jumps to 100 with status ['completed'] when the reply
    arrives. *)
Theorem ftp_transfer_silent (k : nat) (events : list Event)
    (ref : nat) (it : Item.t) (sc : ConnectionManager.Script)
    (m : ConnectionManager.t) (conn : ConnectionManager.Connection)
    (fileSize : JS.num) :
  let s := run events (init k) in
  ref ∈ queue s → ref ∈ running s → objs s !! ref = Some it →
  ConnectionManager.connections m !! Item.connectionId it = Some conn →
  ConnectionManager.type conn = ConnectionManager.ftp →
  ConnectionManager.probe sc = inl fileSize →
  ConnectionManager.final sc = None →
  Engine.serve it sc m = ([], MainProcess.Success)
  ∧ statusOf ref (Engine.complete ref sc m s) = Some Completed
  ∧ objs (Engine.complete ref sc m s) !! ref
    = Some (Item.set_progress (JS.of_Z 100) (Item.set_status Completed it)).
Proof.
  intros s Hq Hr Hit Hc Hty Hp Hf.
  pose proof (Inv_run events (init k) (Inv_init k)) as HI. fold s in HI.
  assert (Hserve : Engine.serve it sc m = ([], MainProcess.Success)).
  { unfold Engine.serve, MainProcess.uploadFileWithProgress,
      MainProcess.downloadFileWithProgress,
      ConnectionManager.uploadFile, ConnectionManager.downloadFile,
      ConnectionManager.finish.
    rewrite Hc, Hty, Hp, Hf. by destruct (Item.type it). }
  split; [done |].
  unfold Engine.complete. rewrite Hit, Hserve. cbn [Engine.receive fold_left].
  pose proof (settle_outcome ref None it s HI Hq Hr Hit) as (? & ? & _).
  done.
Qed.

Lemma ftp_transfer_silent_witness :
  Engine.serve EngineSpec.startedUpload ConnectionSpec.twoChunks
    EngineSpec.ftpAtC2 = ([], MainProcess.Success)
  ∧ statusOf 1 (Engine.complete 1 ConnectionSpec.twoChunks
                  EngineSpec.ftpAtC2 (run [EvAdd anUpload 0] (init 3)))
    = Some Completed.
Proof.
  pose proof (ftp_transfer_silent 3 [EvAdd anUpload 0] 1
                EngineSpec.startedUpload ConnectionSpec.twoChunks
                EngineSpec.ftpAtC2
                (ConnectionManager.mkConnection "c2" ConnectionManager.ftp
                   (ConnectionManager.mkConfig "ftp" "127.0.0.1" "user"
                      false))
                (JS.of_Z 1000)) as H.
  cbv zeta in H.
  assert (H' := H).
  refine ((λ H1 H2 H3 H4,
             conj (proj1 (H' H1 H2 H3 H4 eq_refl eq_refl eq_refl))
                  (proj1 (proj2 (H' H1 H2 H3 H4 eq_refl eq_refl eq_refl))))
            _ _ _ _).
  - vm_compute. left.
  - vm_compute. left.
  - vm_compute. reflexivity.
  - vm_compute. reflexivity.
Defined.

End EngineFacts.


(** ** More on the transfer queue *)

Module QueueMoreFacts.
Import TransferQueue QueueSpec QueueFacts QueueMoreSpec.

Local Open Scope nat_scope.

Lemma findById_absent (x : nat) (s : t) :
  Inv s → x ∉ queue s → findById x s = None.
Proof.
  intros HI Hx. destruct (findById x s) as [r |] eqn:E; [| done].
  pose proof (findById_ref x r s HI E) as ->.
  by apply findById_Some in E as [Hin _].
Qed.

Lemma statusOf_self (x : nat) (s : t) :
  Inv s → x ∈ queue s →
  statusOf x s = Item.status <$> objs s !! x.
Proof.
  intros HI Hin. unfold statusOf.
  destruct (objs s !! x) as [it |] eqn:Hit.
  - rewrite (EngineFacts.findById_self x s HI Hin) by (by rewrite Hit).
    cbn. by rewrite Hit.
  - destruct (findById x s) as [r |] eqn:E; [| done].
    pose proof (findById_ref x r s HI E) as ->. cbn. by rewrite Hit.
Qed.

Lemma statusOf_in_queue (x : nat) (st : Status) (s : t) :
  Inv s → statusOf x s = Some st →
  x ∈ queue s ∧ ∃ it, objs s !! x = Some it ∧ Item.status it = st.
Proof.
  intros HI (r & Hf & Hst)%statusOf_Some.
  pose proof (findById_ref x r s HI Hf) as ->.
  apply findById_Some in Hf as [Hin _]. split; [done |].
  by apply hasStatus_true.
Qed.

Lemma isFinished_terminal (o : gmap nat Item.t) (x : nat) (it : Item.t) :
  o !! x = Some it →
  (isFinished o x = true ↔ isTerminal (Item.status it)).
Proof.
  intros Hit. unfold isFinished, hasStatus, isTerminal. rewrite Hit.
  destruct (Item.status it); cbn; split; intros H; try done;
    try (destruct H as [H | [H | H]]; discriminate); auto.
Qed.

Lemma filter_idem {A} (P : A → Prop) `{∀ x, Decision (P x)} (l : list A) :
  filter P (filter P l) = filter P l.
Proof.
  induction l as [| a l IH]; [done |].
  rewrite (filter_cons P a l). case_decide; [| done].
  rewrite filter_cons_True by done. by rewrite IH.
Qed.

(** X16: [clearCompleted], in every state the queue can reach: the items
    that are queued, active or paused stay in the backlog with their
    status, the completed, failed and cancelled ones are no longer found,
    and no object, active entry or running execution is touched. Clearing
    twice is clearing once. *)
Theorem clearCompleted_keeps_live (k : nat) (events : list Event) :
  let s := run events (init k) in
  (∀ transferId st, statusOf transferId s = Some st →
     (isLive st → statusOf transferId (clearCompleted s) = Some st)
     ∧ (isTerminal st → statusOf transferId (clearCompleted s) = None))
  ∧ objs (clearCompleted s) = objs s
  ∧ activeTransfers (clearCompleted s) = activeTransfers s
  ∧ running (clearCompleted s) = running s
  ∧ clearCompleted (clearCompleted s) = clearCompleted s.
Proof.
  intros s. pose proof (Inv_run events (init k) (Inv_init k)) as HI.
  fold s in HI. pose proof (Inv_clearCompleted s HI) as HI'.
  split_and!; try done.
  - intros x st Hst.
    pose proof (statusOf_in_queue x st s HI Hst) as (Hin & it & Hit & Hs).
    split.
    + intros Hlive. rewrite statusOf_self; [by cbn; rewrite Hit; cbn; f_equal |
        done |].
      cbn. apply list_elem_of_filter. split; [| done].
      apply negb_prop_intro. intros Hfin%Is_true_eq_true.
      apply (isFinished_terminal _ _ _ Hit) in Hfin. rewrite Hs in Hfin.
      destruct Hlive as [-> | [-> | ->]], Hfin as [? | [? | ?]]; discriminate.
    + intros Hterm. unfold statusOf.
      rewrite findById_absent; [done | done |].
      cbn. intros [Hn _]%list_elem_of_filter.
      apply negb_prop_elim in Hn. apply Hn, Is_true_eq_left.
      apply (isFinished_terminal _ _ _ Hit). by rewrite Hs.
  - unfold clearCompleted. cbn. f_equal. apply filter_idem.
Qed.

Lemma clearCompleted_keeps_live_witness :
  statusOf 2 (clearCompleted (run firstSettled (init 3))) = Some Active
  ∧ statusOf 1 (clearCompleted (run firstSettled (init 3))) = None.
Proof.
  pose proof (clearCompleted_keeps_live 3 firstSettled) as H.
  cbv zeta in H. destruct H as (H & _).
  split.
  - refine (proj1 (H 2 Active _) _).
    + vm_compute. reflexivity.
    + right. left. reflexivity.
  - refine (proj2 (H 1 Completed _) _).
    + vm_compute. reflexivity.
    + left. reflexivity.
Defined.

(** *** Ids *)

Lemma processQueue_queue (now : Z) (s : t) :
  queue (processQueue now s) = queue s
  ∧ queueId (processQueue now s) = queueId s.
Proof.
  unfold processQueue. destruct (nextTransfer s) as [ref |]; [| done].
  by destruct (objs _ !! ref).
Qed.

(** X17: The id [addTransfer] returns is new: in every state the queue can
    reach it is larger than the id of every item ever created - still in
    the backlog or cleared - and the new item is in the backlog afterwards,
    queued or already active. *)
Theorem addTransfer_fresh_id (k : nat) (events : list Event)
    (transfer : Transfer) (now : Z) :
  let s := run events (init k) in
  let id := fst (addTransfer transfer now s) in
  let s' := snd (addTransfer transfer now s) in
  objs s !! id = None
  ∧ (∀ r, r ∈ queue s → r < id)
  ∧ (∀ r it, objs s !! r = Some it → Item.id it < id)
  ∧ id ∈ queue s'
  ∧ (statusOf id s' = Some Queued ∨ statusOf id s' = Some Active).
Proof.
  intros s id s'.
  pose proof (Inv_run events (init k) (Inv_init k)) as HI. fold s in HI.
  pose proof (Inv_addTransfer transfer now s HI) as HI'. fold s' in HI'.
  assert (Hid : id = S (queueId s)) by done.
  assert (Hq : queue s' = queue s ++ [id]).
  { unfold s', addTransfer. cbn [snd].
    by rewrite (proj1 (processQueue_queue _ _)). }
  assert (Hin : id ∈ queue s').
  { rewrite Hq, elem_of_app, list_elem_of_singleton. by right. }
  split_and!.
  - destruct (objs s !! id) eqn:E; [| done].
    assert (id ≤ queueId s) by (apply (inv_fresh s HI); by eexists). lia.
  - intros r Hr. apply (inv_queue_le s HI) in Hr. lia.
  - intros r it Hit. rewrite (inv_ids s HI r it Hit).
    assert (r ≤ queueId s) by (apply (inv_fresh s HI); by eexists). lia.
  - done.
  - rewrite (statusOf_self id s' HI' Hin).
    unfold s', addTransfer. cbn [snd]. fold id. unfold processQueue.
    set (s0 := mk _ _ _ _ _ _ _ _ _ _).
    destruct (nextTransfer s0) as [ref |] eqn:Hn.
    + cbn [update objs]. rewrite lookup_alter_eq.
      apply nextTransfer_Some in Hn as (_ & _ & Hf).
      apply find_first in Hf as (_ & _ & _ & Hel & _).
      apply eligible_true in Hel as (it & Hit & _).
      rewrite Hit. cbn -[id].
      destruct (decide (id = ref)) as [<- | Hne].
      * right. by rewrite lookup_alter_eq, lookup_insert_eq.
      * left. rewrite lookup_alter_ne by done. by rewrite lookup_insert_eq.
    + left. cbn -[id]. by rewrite lookup_insert_eq.
Qed.

(** *** Pausing and resuming everything *)

(** X18: [resumeAll] runs a scheduling pass only through the items it resumes:
    when no item of the backlog is paused it merely clears the global flag.
    No pass runs, so a queued item - one enqueued during the global pause,
    say - stays queued although the queue is no longer paused and has room. *)
Theorem resumeAll_without_paused (now : Z) (s : t) :
  (∀ ref, ref ∈ queue s → ¬ hasStatus Paused (objs s) ref) →
  resumeAll now s = setPaused false s
  ∧ passes (resumeAll now s) = passes s
  ∧ running (resumeAll now s) = running s
  ∧ objs (resumeAll now s) = objs s.
Proof.
  intros Hnone.
  assert (H : resumeAll now s = setPaused false s); [| by rewrite H].
  unfold resumeAll. cbn [queue setPaused].
  assert (Hfold : ∀ l s0,
            (∀ x, x ∈ l → resumeIfPaused now s0 x = s0) →
            fold_left (resumeIfPaused now) l s0 = s0).
  { induction l as [| x l IH]; intros s0 Hl; [done |].
    cbn. rewrite Hl by (by left). apply IH. intros y Hy. apply Hl.
    by right. }
  apply Hfold. intros x Hx. unfold resumeIfPaused. cbn [objs setPaused].
  destruct (objs s !! x) as [it |] eqn:Hit; [| done].
  case_bool_decide as Hp; [| done].
  exfalso. apply (Hnone x Hx). apply hasStatus_true. eauto.
Qed.

Lemma resumeAll_without_paused_witness :
  resumeAll 50 heldUpload = setPaused false heldUpload
  ∧ passes (resumeAll 50 heldUpload) = passes heldUpload
  ∧ running (resumeAll 50 heldUpload) = running heldUpload
  ∧ objs (resumeAll 50 heldUpload) = objs heldUpload.
Proof.
  refine (resumeAll_without_paused 50 heldUpload _).
  intros ref Hin Hp.
  assert (Hq : queue heldUpload = [1]) by (vm_compute; reflexivity).
  rewrite Hq in Hin. apply list_elem_of_singleton in Hin. subst ref.
  vm_compute in Hp. exact Hp.
Defined.

(** The upload held back stays queued after [resumeAll], with the queue
    idle and unpaused. *)
Example held_upload_stalls :
  statusOf 1 (resumeAll 50 heldUpload) = Some Queued
  ∧ isPaused (resumeAll 50 heldUpload) = false
  ∧ running (resumeAll 50 heldUpload) = []
  ∧ timers (resumeAll 50 heldUpload) = 0
  ∧ nextTransfer (resumeAll 50 heldUpload) = Some 1.
Proof. by vm_compute. Qed.

Lemma pauseIfActive_step (s : t) (x : nat) :
  Inv s → x ∈ queue s →
  pauseIfActive s x
  = if hasStatus Active (objs s) x
    then post (Send "pause-transfer" x)
           (update x (λ it, Item.set_status Paused
                              (Item.set_isPaused true it)) s)
    else s.
Proof.
  intros HI Hin. unfold pauseIfActive, hasStatus.
  destruct (objs s !! x) as [it |] eqn:Hit; [| done].
  case_bool_decide as Hst; [| done].
  rewrite (inv_ids s HI x it Hit). unfold pauseTransfer.
  rewrite (EngineFacts.findById_self x s HI Hin) by (by rewrite Hit).
  unfold hasStatus. rewrite Hit. by rewrite bool_decide_eq_true_2.
Qed.

Lemma pauseIfActive_status (s : t) (x ref : nat) :
  Inv s → x ∈ queue s →
  Item.status <$> objs (pauseIfActive s x) !! ref
  = (if decide (ref = x) then pausedStatus else λ st, st)
      <$> (Item.status <$> objs s !! ref).
Proof.
  intros HI Hin. rewrite (pauseIfActive_step s x HI Hin).
  unfold hasStatus. destruct (objs s !! x) as [it |] eqn:Hit.
  - case_bool_decide as Hst; cbn.
    + destruct (decide (ref = x)) as [-> | Hne].
      * rewrite lookup_alter_eq, Hit. cbn. by rewrite Hst.
      * rewrite lookup_alter_ne by done. by destruct (objs s !! ref).
    + destruct (decide (ref = x)) as [-> | Hne].
      * rewrite Hit. cbn. by destruct (Item.status it).
      * by destruct (objs s !! ref).
  - cbn. destruct (decide (ref = x)) as [-> | Hne].
    + by rewrite Hit.
    + by destruct (objs s !! ref).
Qed.

Lemma pauseIfActive_frame (s : t) (x : nat) :
  Inv s → x ∈ queue s →
  queue (pauseIfActive s x) = queue s
  ∧ isPaused (pauseIfActive s x) = isPaused s
  ∧ running (pauseIfActive s x) = running s
  ∧ Inv (pauseIfActive s x).
Proof.
  intros HI Hin. rewrite (pauseIfActive_step s x HI Hin).
  destruct (hasStatus Active (objs s) x); [| done].
  split_and!; try done. by apply Inv_post, Inv_update.
Qed.

Lemma pausedStatus_idem (st : Status) :
  pausedStatus (pausedStatus st) = pausedStatus st.
Proof. by destruct st. Qed.

Lemma fold_pause (l : list nat) (s : t) :
  Inv s → (∀ x, x ∈ l → x ∈ queue s) →
  queue (fold_left pauseIfActive l s) = queue s
  ∧ isPaused (fold_left pauseIfActive l s) = isPaused s
  ∧ running (fold_left pauseIfActive l s) = running s
  ∧ Inv (fold_left pauseIfActive l s)
  ∧ ∀ ref, Item.status <$> objs (fold_left pauseIfActive l s) !! ref
           = (if decide (ref ∈ l) then pausedStatus else λ st, st)
               <$> (Item.status <$> objs s !! ref).
Proof.
  revert s. induction l as [| x l IH]; intros s HI Hl.
  - cbn. split_and!; try done. intros ref.
    rewrite decide_False by apply not_elem_of_nil.
    by destruct (objs s !! ref).
  - cbn [fold_left].
    assert (Hx : x ∈ queue s) by (apply Hl; by left).
    pose proof (pauseIfActive_frame s x HI Hx) as (Hq & Hp & Hr & HI1).
    destruct (IH (pauseIfActive s x) HI1) as (Hq' & Hp' & Hr' & HI2 & Hst).
    { intros y Hy. rewrite Hq. apply Hl. by right. }
    split_and!; try congruence.
    intros ref. rewrite Hst, (pauseIfActive_status s x ref HI Hx).
    destruct (objs s !! ref) as [it |]; [| done]. cbn.
    destruct (decide (ref = x)) as [-> | Hne].
    + rewrite (decide_True (P := x ∈ x :: l)) by (by left).
      destruct (decide (x ∈ l)); [by rewrite pausedStatus_idem | done].
    + destruct (decide (ref ∈ l)) as [Hin | Hnin].
      * by rewrite (decide_True (P := ref ∈ x :: l)) by (by right).
      * rewrite (decide_False (P := ref ∈ x :: l)); [done |].
        by intros [? | ?]%elem_of_cons.
Qed.

Lemma countActive_zero (o : gmap nat Item.t) (l : list nat) :
  (∀ x, x ∈ l → ¬ hasStatus Active o x) → countActive o l = 0.
Proof.
  induction l as [| x l IH]; intros H; [done |].
  rewrite countActive_cons, IH.
  - destruct (hasStatus Active o x) eqn:E; [| done].
    exfalso. apply (H x); [by left | by rewrite E].
  - intros y Hy. apply H. by right.
Qed.

(** X19: [pauseAll], in every state the queue can reach: every active item of
    the backlog becomes paused and every other item keeps its status, so
    no item is active afterwards; the queue is marked paused and no
    scheduling pass starts anything until it is resumed. The executions
    in flight are not touched. *)
Theorem pauseAll_pauses_every_active (k : nat) (events : list Event) :
  let s := run events (init k) in
  (∀ transferId st, statusOf transferId s = Some st →
     statusOf transferId (pauseAll s) = Some (pausedStatus st))
  ∧ countActive (objs (pauseAll s)) (queue (pauseAll s)) = 0
  ∧ isPaused (pauseAll s) = true
  ∧ nextTransfer (pauseAll s) = None
  ∧ running (pauseAll s) = running s.
Proof.
  intros s. pose proof (Inv_run events (init k) (Inv_init k)) as HI.
  fold s in HI.
  pose proof (fold_pause (queue s) (setPaused true s)
                (Inv_setPaused true s HI) (λ x H, H))
    as (Hq & Hp & Hr & HI' & Hst).
  change (fold_left pauseIfActive (queue s) (setPaused true s))
    with (pauseAll s) in *.
  cbn [queue isPaused running objs setPaused] in *.
  split_and!; try done.
  - intros x st Hx.
    pose proof (statusOf_in_queue x st s HI Hx) as (Hin & it & Hit & Hs).
    rewrite (statusOf_self x (pauseAll s) HI') by (by rewrite Hq).
    rewrite Hst, Hit, decide_True by done. cbn. by rewrite Hs.
  - apply countActive_zero. intros x Hx (it & Hit & Hact)%hasStatus_true.
    rewrite Hq in Hx. specialize (Hst x). rewrite Hit in Hst.
    rewrite decide_True in Hst by done.
    destruct (objs s !! x) as [it0 |]; [| done]. cbn in Hst.
    injection Hst as Hst. rewrite Hact in Hst. by destruct (Item.status it0).
  - unfold nextTransfer. by rewrite Hp.
Qed.

Lemma pauseAll_pauses_every_active_witness :
  statusOf 2 (pauseAll (run firstSettled (init 3))) = Some Paused
  ∧ statusOf 1 (pauseAll (run firstSettled (init 3))) = Some Completed.
Proof.
  pose proof (pauseAll_pauses_every_active 3 firstSettled) as H.
  cbv zeta in H. destruct H as (H & _).
  split.
  - refine (H 2 Active _). vm_compute. reflexivity.
  - refine (H 1 Completed _). vm_compute. reflexivity.
Defined.

(** *** Executions in flight *)

Lemma run_app (l1 l2 : list Event) (s : t) :
  run (l1 ++ l2) s = run l2 (run l1 s).
Proof. apply fold_left_app. Qed.

Lemma addAndPause_S (transfer : Transfer) (n : nat) :
  addAndPause transfer (S n)
  = addAndPause transfer n ++ [EvAdd transfer 0; EvPause (S n)].
Proof.
  unfold addAndPause. by rewrite seq_S, flat_map_app.
Qed.

Lemma find_last {A} (p : A → bool) (l : list A) (x : A) :
  (∀ y, y ∈ l → p y = false) → p x = true →
  List.find p (l ++ [x]) = Some x.
Proof.
  intros Hl Hx. induction l as [| a l IH]; cbn.
  - by rewrite Hx.
  - rewrite (Hl a) by (by left). apply IH. intros y Hy. apply Hl. by right.
Qed.

Lemma Piled_step (transfer : Transfer) (k n : nat) (s : t) :
  1 ≤ k → Piled k n s →
  Piled k (S n) (run [EvAdd transfer 0; EvPause (S n)] s).
Proof.
  intros Hk [Hid Hq Hr Hp Hm HI Hsome Hobjs].
  cbn [run fold_left handle].
  set (start := λ it, Item.set_startTime 0 (Item.set_status Active it)).
  set (s1 := snd (addTransfer transfer 0 s)).
  pose proof (Inv_addTransfer transfer 0 s HI) as HI1. fold s1 in HI1.
  assert (Hs1 : (∃ it0, objs s1 = alter start (S n) (<[S n := it0]> (objs s)))
                ∧ queue s1 = seq 1 n ++ [S n]
                ∧ running s1 = seq 1 n ++ [S n]
                ∧ queueId s1 = S n ∧ isPaused s1 = false
                ∧ maxConcurrent s1 = k).
  { unfold s1, addTransfer. cbn [snd].
    set (s0 := mk _ _ _ _ _ _ _ _ _ _).
    assert (Hnext : nextTransfer s0 = Some (S n)).
    { unfold nextTransfer. cbn [isPaused s0 maxConcurrent objs
        activeTransfers queue]. rewrite Hp, Hm.
      rewrite countActive_zero.
      - destruct k; [lia |]. cbn [Nat.leb]. rewrite Hq, Hid.
        apply find_last.
        + intros y Hy. unfold eligible.
          assert (y ≠ S n) by (apply elem_of_seq in Hy; lia).
          rewrite lookup_insert_ne by done.
          destruct (objs s !! y) as [it |] eqn:E; [| done].
          by rewrite (Hobjs y it E).
        + unfold eligible. by rewrite lookup_insert_eq.
      - intros x _ (it & Hit & Hact)%hasStatus_true. rewrite Hid in Hit.
        destruct (decide (x = S n)) as [-> | Hne].
        + rewrite lookup_insert_eq in Hit. by injection Hit as <-.
        + rewrite lookup_insert_ne in Hit by done.
          apply Hobjs in Hit. congruence. }
    unfold processQueue. rewrite Hnext. cbn [update objs queueId s0].
    rewrite Hid, lookup_alter_eq, lookup_insert_eq. cbn.
    rewrite ?Hid, Hq, Hr. split_and!; [by eexists | done ..]. }
  destruct Hs1 as ([it0 Ho1] & Hq1 & Hr1 & Hid1 & Hp1 & Hm1).
  clearbody s1.
  assert (Hin : S n ∈ queue s1).
  { rewrite Hq1, elem_of_app, list_elem_of_singleton. by right. }
  assert (Hit1 : objs s1 !! S n = Some (start it0)).
  { by rewrite Ho1, lookup_alter_eq, lookup_insert_eq. }
  assert (Hpause : pauseTransfer (S n) s1
                   = post (Send "pause-transfer" (S n))
                       (update (S n)
                          (λ it, Item.set_status Paused
                                   (Item.set_isPaused true it)) s1)).
  { unfold pauseTransfer.
    rewrite (EngineFacts.findById_self (S n) s1 HI1 Hin)
      by (by rewrite Hit1).
    unfold hasStatus. by rewrite Hit1. }
  rewrite Hpause. constructor; cbn -[seq].
  - done.
  - by rewrite Hq1, seq_S.
  - by rewrite Hr1, seq_S.
  - done.
  - done.
  - by apply Inv_post, Inv_update.
  - intros ref Href. rewrite Ho1.
    destruct (decide (ref = S n)) as [-> | Hne].
    + rewrite !lookup_alter_eq, lookup_insert_eq. by eexists.
    + rewrite !lookup_alter_ne, lookup_insert_ne by done. apply Hsome.
      apply elem_of_seq in Href. apply elem_of_seq. lia.
  - intros ref it. rewrite Ho1.
    destruct (decide (ref = S n)) as [-> | Hne].
    + rewrite !lookup_alter_eq, lookup_insert_eq. cbn. by intros [= <-].
    + rewrite !lookup_alter_ne, lookup_insert_ne by done. apply Hobjs.
Qed.

Lemma Piled_rounds (transfer : Transfer) (k n : nat) :
  1 ≤ k → Piled k n (run (addAndPause transfer n) (init k)).
Proof.
  intros Hk. induction n as [| n IH].
  - constructor; cbn; try done.
    + apply Inv_init.
    + intros ref Href. by apply elem_of_nil in Href.
  - rewrite addAndPause_S, run_app. by apply Piled_step.
Qed.

(** X20: [maxConcurrent] bounds the items whose status is ['active'], not the
    executions in flight: [pauseTransfer] frees the slot of an item while
    the request sent for it is still awaited. For every limit [k >= 1],
    every transfer and every [n], after [n] rounds of [addTransfer] and
    [pauseTransfer] of the item just added, [n] executions are awaited at
    once, no item is active and every item is paused. *)
Theorem executions_not_bounded (transfer : Transfer) (k n : nat) :
  1 ≤ k →
  length (running (run (addAndPause transfer n) (init k))) = n
  ∧ countActive (objs (run (addAndPause transfer n) (init k)))
      (queue (run (addAndPause transfer n) (init k))) = 0
  ∧ ∀ transferId, 1 ≤ transferId ≤ n →
      statusOf transferId (run (addAndPause transfer n) (init k))
      = Some Paused.
Proof.
  intros Hk.
  destruct (Piled_rounds transfer k n Hk)
    as [Hid Hq Hr Hp Hm HI Hsome Hobjs].
  split_and!.
  - by rewrite Hr, length_seq.
  - apply countActive_zero. intros x _ (it & Hit & Hact)%hasStatus_true.
    apply Hobjs in Hit. congruence.
  - intros x Hx.
    assert (Hin : x ∈ queue (run (addAndPause transfer n) (init k))).
    { rewrite Hq. apply elem_of_seq. lia. }
    rewrite (statusOf_self x _ HI Hin).
    destruct (Hsome x) as [it Hit]; [apply elem_of_seq; lia |].
    rewrite Hit. cbn. f_equal. by apply (Hobjs x).
Qed.

Lemma executions_not_bounded_witness :
  length (running (run (addAndPause anUpload 4) (init 1))) = 4
  ∧ countActive (objs (run (addAndPause anUpload 4) (init 1)))
      (queue (run (addAndPause anUpload 4) (init 1))) = 0
  ∧ ∀ transferId, 1 ≤ transferId ≤ 4 →
      statusOf transferId (run (addAndPause anUpload 4) (init 1))
      = Some Paused.
Proof. refine (executions_not_bounded anUpload 1 4 _). lia. Defined.

End QueueMoreFacts.


(** ** The synchronisation plan *)

Module SyncFacts.
Import SyncPlan SyncSpec.

Lemma mapOf_snoc (files : list File) (f : File) :
  mapOf (files ++ [f]) = <[path f := f]> (mapOf files).
Proof. unfold mapOf. by rewrite foldl_snoc. Qed.

Lemma mapOf_Some (files : list File) (p : string) (g : File) :
  mapOf files !! p = Some g → g ∈ files ∧ path g = p.
Proof.
  induction files as [| f files IH] using rev_ind; [done |].
  rewrite mapOf_snoc. destruct (decide (path f = p)) as [<- | Hne].
  - rewrite lookup_insert_eq. intros [= <-]. split; [| done].
    apply elem_of_app. right. by left.
  - rewrite lookup_insert_ne by done. intros [Hin Hp]%IH. split; [| done].
    apply elem_of_app. by left.
Qed.

Lemma mapOf_None (files : list File) (p : string) :
  mapOf files !! p = None ↔ p ∉ path <$> files.
Proof.
  induction files as [| f files IH] using rev_ind.
  - split; [| done]. intros _ H. by apply elem_of_nil in H.
  - rewrite mapOf_snoc, fmap_app, elem_of_app. cbn.
    rewrite list_elem_of_singleton.
    destruct (decide (path f = p)) as [<- | Hne].
    + rewrite lookup_insert_eq. split; [done |]. intros H. exfalso.
      apply H. by right.
    + rewrite lookup_insert_ne by done. rewrite IH. split.
      * intros H [H1 | H1]; [by apply H | by apply Hne].
      * intros H H1. apply H. by left.
Qed.

Lemma mapOf_is_Some (files : list File) (p : string) :
  p ∈ path <$> files → is_Some (mapOf files !! p).
Proof.
  intros Hin. destruct (mapOf files !! p) eqn:E; [by eexists |].
  by apply mapOf_None in E.
Qed.

Lemma transferAction_type join kind options others f a :
  transferAction join kind options others f = Some a →
  Action.type a = kind ∧ Action.file a = path f.
Proof.
  unfold transferAction. destruct (others !! path f).
  - destruct (isDifferent _ _ _); [| done]. by intros [= <-].
  - by intros [= <-].
Qed.

Lemma deleteRemoteAction_Some join options localMap g a :
  deleteRemoteAction join options localMap g = Some a ↔
  localMap !! path g = None
  ∧ a = Action.mk ActDeleteRemote (path g) "Not in source" None
          (Some (join (remotePath options) (path g))).
Proof.
  unfold deleteRemoteAction. destruct (localMap !! path g).
  - split; [done | by intros [? _]].
  - split; [by intros [= <-] | by intros [_ ->]].
Qed.

Lemma deleteLocalAction_Some join options remoteMap f a :
  deleteLocalAction join options remoteMap f = Some a ↔
  remoteMap !! path f = None
  ∧ a = Action.mk ActDeleteLocal (path f) "Not in source"
          (Some (join (localPath options) (path f))) None.
Proof.
  unfold deleteLocalAction. destruct (remoteMap !! path f).
  - split; [done | by intros [? _]].
  - split; [by intros [= <-] | by intros [_ ->]].
Qed.

(** The four parts of a plan, in the order they are appended. *)
Lemma compareSyncFiles_parts join localFiles remoteFiles options a :
  a ∈ compareSyncFiles join localFiles remoteFiles options ↔
  ((direction options = "upload" ∨ direction options = "bidirectional")
   ∧ a ∈ omap (transferAction join ActUpload options (mapOf remoteFiles))
            localFiles)
  ∨ (direction options = "upload" ∧ deleteExtra options = true
     ∧ a ∈ omap (deleteRemoteAction join options (mapOf localFiles))
              remoteFiles)
  ∨ ((direction options = "download" ∨ direction options = "bidirectional")
     ∧ a ∈ omap (transferAction join ActDownload options (mapOf localFiles))
              remoteFiles)
  ∨ (direction options = "download" ∧ deleteExtra options = true
     ∧ a ∈ omap (deleteLocalAction join options (mapOf remoteFiles))
              localFiles).
Proof.
  unfold compareSyncFiles. cbv zeta.
  destruct (String.eqb_spec (direction options) "upload") as [Hu | Hu];
    destruct (String.eqb_spec (direction options) "download") as [Hd | Hd];
    destruct (String.eqb_spec (direction options) "bidirectional")
      as [Hb | Hb];
    destruct (deleteExtra options); cbn [orb andb];
    rewrite ?elem_of_app, ?elem_of_nil; try congruence;
    intuition congruence.
Qed.

(** X21: A plan deletes a remote file exactly when the direction is
    ['upload'], [deleteExtra] is set, and the path is listed on the remote
    side and not on the local side; it deletes a local file exactly when
    the direction is ['download'], [deleteExtra] is set, and the path is
    listed locally and not remotely. In particular a bidirectional plan
    deletes nothing. *)
Theorem deletions_characterised join localFiles remoteFiles options p :
  (plans ActDeleteRemote p
     (compareSyncFiles join localFiles remoteFiles options)
   ↔ direction options = "upload" ∧ deleteExtra options = true
     ∧ p ∈ path <$> remoteFiles ∧ p ∉ path <$> localFiles)
  ∧ (plans ActDeleteLocal p
       (compareSyncFiles join localFiles remoteFiles options)
     ↔ direction options = "download" ∧ deleteExtra options = true
       ∧ p ∈ path <$> localFiles ∧ p ∉ path <$> remoteFiles).
Proof.
  unfold plans. split; split.
  - intros (a & Hin & Hty & Hfile).
    apply compareSyncFiles_parts in Hin
      as [[_ Hin] | [(Hu & Hx & Hin) | [[_ Hin] | (_ & _ & Hin)]]];
      apply list_elem_of_omap in Hin as (f & Hf & Ha).
    + apply transferAction_type in Ha as [Ha _]. congruence.
    + apply deleteRemoteAction_Some in Ha as [Hnone ->]. cbn in Hfile.
      subst p. split_and!; [done | done | | by apply mapOf_None].
      by apply list_elem_of_fmap_2.
    + apply transferAction_type in Ha as [Ha _]. congruence.
    + apply deleteLocalAction_Some in Ha as [_ ->]. done.
  - intros (Hu & Hx & (g & -> & Hg)%list_elem_of_fmap & Hnot).
    exists (Action.mk ActDeleteRemote (path g) "Not in source" None
              (Some (join (remotePath options) (path g)))).
    split_and!; [| reflexivity | reflexivity].
    apply compareSyncFiles_parts. right. left. split_and!; [done | done |].
    apply list_elem_of_omap. exists g. split; [done |].
    apply deleteRemoteAction_Some. split; [by apply mapOf_None | done].
  - intros (a & Hin & Hty & Hfile).
    apply compareSyncFiles_parts in Hin
      as [[_ Hin] | [(_ & _ & Hin) | [[_ Hin] | (Hd & Hx & Hin)]]];
      apply list_elem_of_omap in Hin as (f & Hf & Ha).
    + apply transferAction_type in Ha as [Ha _]. congruence.
    + apply deleteRemoteAction_Some in Ha as [_ ->]. done.
    + apply transferAction_type in Ha as [Ha _]. congruence.
    + apply deleteLocalAction_Some in Ha as [Hnone ->]. cbn in Hfile.
      subst p. split_and!; [done | done | | by apply mapOf_None].
      by apply list_elem_of_fmap_2.
  - intros (Hd & Hx & (f & -> & Hf)%list_elem_of_fmap & Hnot).
    exists (Action.mk ActDeleteLocal (path f) "Not in source"
              (Some (join (localPath options) (path f))) None).
    split_and!; [| reflexivity | reflexivity].
    apply compareSyncFiles_parts. do 3 right. split_and!; [done | done |].
    apply list_elem_of_omap. exists f. split; [done |].
    apply deleteLocalAction_Some. split; [by apply mapOf_None | done].
Qed.

Lemma omap_nil {A B} (f : A → option B) (l : list A) :
  (∀ x, x ∈ l → f x = None) → omap f l = [].
Proof.
  induction l as [| x l IH]; intros H; [done |].
  cbn. rewrite (H x) by (by left). apply IH. intros y Hy. apply H. by right.
Qed.

Lemma transferAction_same join kind options others f g :
  overwriteNewer options = false →
  others !! path f = Some g →
  JS.eqb (size f) (size g) = true →
  JS.gt (modified f) (modified g) = false →
  transferAction join kind options others f = None.
Proof.
  intros Ho Hg Hsz Hgt. unfold transferAction, isDifferent.
  by rewrite Hg, Ho, Hsz, Hgt.
Qed.

Lemma eqb_sym (a b : JS.num) : JS.eqb a b = JS.eqb b a.
Proof.
  destruct a as [| | | p], b as [| | | q]; try done. cbn.
  destruct (Qeq_bool p q) eqn:E.
  - symmetry. apply Qeq_bool_iff. symmetry. by apply Qeq_bool_iff.
  - destruct (Qeq_bool q p) eqn:E'; [| done].
    apply Qeq_bool_iff in E'. symmetry in E'. apply Qeq_bool_iff in E'.
    congruence.
Qed.

(** X22: When [overwriteNewer] is off and the two sides are in sync (the
    same paths, and no file differs in size from, or is newer than, the
    file of its path on the other side), the plan is empty, whatever the
    direction and [deleteExtra]. *)
Theorem in_sync_no_actions join localFiles remoteFiles options :
  overwriteNewer options = false →
  inSync localFiles remoteFiles →
  compareSyncFiles join localFiles remoteFiles options = [].
Proof.
  intros Ho (Hl & Hr & Hsame).
  assert (Hup : omap (transferAction join ActUpload options
                        (mapOf remoteFiles)) localFiles = []).
  { apply omap_nil. intros f Hf.
    destruct (mapOf_is_Some remoteFiles (path f) (Hl f Hf)) as [g Hg].
    pose proof (mapOf_Some _ _ _ Hg) as [Hgin Hgp].
    destruct (Hsame f g Hf Hgin (eq_sym Hgp)) as (Hsz & Hgt & _).
    by apply transferAction_same with g. }
  assert (Hdown : omap (transferAction join ActDownload options
                          (mapOf localFiles)) remoteFiles = []).
  { apply omap_nil. intros g Hg.
    destruct (mapOf_is_Some localFiles (path g) (Hr g Hg)) as [f Hf].
    pose proof (mapOf_Some _ _ _ Hf) as [Hfin Hfp].
    destruct (Hsame f g Hfin Hg Hfp) as (Hsz & _ & Hgt).
    apply transferAction_same with f; try done. by rewrite eqb_sym. }
  assert (Hdr : omap (deleteRemoteAction join options (mapOf localFiles))
                  remoteFiles = []).
  { apply omap_nil. intros g Hg. unfold deleteRemoteAction.
    by destruct (mapOf_is_Some localFiles (path g) (Hr g Hg)) as [f ->]. }
  assert (Hdl : omap (deleteLocalAction join options (mapOf remoteFiles))
                  localFiles = []).
  { apply omap_nil. intros f Hf. unfold deleteLocalAction.
    by destruct (mapOf_is_Some remoteFiles (path f) (Hl f Hf)) as [g ->]. }
  unfold compareSyncFiles. cbv zeta. rewrite Hup, Hdown, Hdr, Hdl.
  by repeat match goal with |- context [if ?b then _ else _] =>
              destruct b end.
Qed.

Lemma in_sync_no_actions_witness :
  compareSyncFiles joinSlash [report; notes] [notes; report] newerOnly = [].
Proof.
  refine (in_sync_no_actions joinSlash [report; notes] [notes; report]
            newerOnly eq_refl _).
  split_and!.
  - intros f Hf. apply list_elem_of_In in Hf. cbn in Hf.
    destruct Hf as [<- | [<- | []]]; apply list_elem_of_In; cbn; tauto.
  - intros f Hf. apply list_elem_of_In in Hf. cbn in Hf.
    destruct Hf as [<- | [<- | []]]; apply list_elem_of_In; cbn; tauto.
  - intros f g Hf Hg. apply list_elem_of_In in Hf, Hg. cbn in Hf, Hg.
    destruct Hf as [<- | [<- | []]], Hg as [<- | [<- | []]];
      vm_compute; (done || tauto).
Defined.

(** X23: In a bidirectional plan with [overwriteNewer] set, a file listed
    on both sides is transferred both ways: the plan holds an upload and a
    download of its path, whatever the sizes and dates. *)
Theorem bidirectional_overwrite_both_ways
    join localFiles remoteFiles options f g :
  direction options = "bidirectional" →
  overwriteNewer options = true →
  f ∈ localFiles → g ∈ remoteFiles → path f = path g →
  plans ActUpload (path f)
    (compareSyncFiles join localFiles remoteFiles options)
  ∧ plans ActDownload (path f)
      (compareSyncFiles join localFiles remoteFiles options).
Proof.
  intros Hb Ho Hf Hg Hp.
  assert (Hact : ∀ kind others h,
             is_Some (others !! path h) →
             is_Some (transferAction join kind options others h)).
  { intros kind others h [o Hoth]. unfold transferAction, isDifferent.
    rewrite Hoth, Ho, orb_true_r. by eexists. }
  split.
  - destruct (Hact ActUpload (mapOf remoteFiles) f) as [a Ha].
    { apply mapOf_is_Some. rewrite Hp. by apply list_elem_of_fmap_2. }
    pose proof (transferAction_type _ _ _ _ _ _ Ha) as [Hty Hfile].
    exists a. split_and!; [| done | done].
    apply compareSyncFiles_parts. left. split; [by right |].
    apply list_elem_of_omap. by exists f.
  - destruct (Hact ActDownload (mapOf localFiles) g) as [a Ha].
    { apply mapOf_is_Some. rewrite <- Hp. by apply list_elem_of_fmap_2. }
    pose proof (transferAction_type _ _ _ _ _ _ Ha) as [Hty Hfile].
    exists a. split_and!; [| done | by rewrite Hp].
    apply compareSyncFiles_parts. right. right. left. split; [by right |].
    apply list_elem_of_omap. by exists g.
Qed.

Lemma bidirectional_overwrite_both_ways_witness :
  plans ActUpload (path report)
    (compareSyncFiles joinSlash [report; notes] [notes; report] bothWays)
  ∧ plans ActDownload (path report)
      (compareSyncFiles joinSlash [report; notes] [notes; report] bothWays).
Proof.
  refine (bidirectional_overwrite_both_ways joinSlash [report; notes]
            [notes; report] bothWays report report eq_refl eq_refl _ _
            eq_refl).
  - apply list_elem_of_In. cbn. tauto.
  - apply list_elem_of_In. cbn. tauto.
Defined.

End SyncFacts.


(** ** The permissions dialog *)

Module PermissionFacts.
Import Permissions DialogSpec.

(** The digit written for three boxes is an octal digit, and reading its
    bits gives the boxes back. *)
Lemma weight_bits (r w x : bool) :
  isOctalDigit (digit (weight r w x)) = true
  ∧ hasBit (parseDigit (digit (weight r w x))) 4 = r
  ∧ hasBit (parseDigit (digit (weight r w x))) 2 = w
  ∧ hasBit (parseDigit (digit (weight r w x))) 1 = x.
Proof. by destruct r, w, x. Qed.

(** The boxes read from an octal digit write the same digit. *)
Lemma digit_weight (c : ascii) :
  isOctalDigit c = true →
  digit (weight (hasBit (parseDigit c) 4) (hasBit (parseDigit c) 2)
           (hasBit (parseDigit c) 1)) = c.
Proof.
  destruct c as [[] [] [] [] [] [] [] []]; intros H; vm_compute in H;
    try discriminate H; reflexivity.
Qed.

(** X24: Text of three octal digits survives the round trip through the check
    boxes: [updateCheckboxesFromOctal] followed by
    [updateOctalFromCheckboxes] writes the text it read. *)
Theorem octal_round_trip (d : Dialog) :
  isOctal (perm_octal d) = true →
  perm_octal (updateOctalFromCheckboxes (updateCheckboxesFromOctal d))
  = perm_octal d.
Proof.
  intros H. unfold updateCheckboxesFromOctal. rewrite H.
  destruct (perm_octal d) as [| a [| b [| c [| ? ?]]]] eqn:E; try done.
  cbn in H. apply andb_prop in H as [[Ha%digit_weight Hb%digit_weight]
    %andb_prop Hc%digit_weight].
  unfold updateOctalFromCheckboxes. cbn [perm_octal owner_read owner_write
    owner_execute group_read group_write group_execute other_read
    other_write other_execute].
  by rewrite Ha, Hb, Hc.
Qed.

Lemma octal_round_trip_witness :
  perm_octal (updateOctalFromCheckboxes (updateCheckboxesFromOctal mode640))
  = perm_octal mode640.
Proof. exact (octal_round_trip mode640 eq_refl). Defined.

(** X25: The text [updateOctalFromCheckboxes] writes is always three octal
    digits, and [updateCheckboxesFromOctal] reads from it the boxes it
    was written from: the round trip through the text changes nothing. *)
Theorem checkboxes_round_trip (d : Dialog) :
  isOctal (perm_octal (updateOctalFromCheckboxes d)) = true
  ∧ updateCheckboxesFromOctal (updateOctalFromCheckboxes d)
    = updateOctalFromCheckboxes d.
Proof.
  destruct d as [s r0 w0 x0 r1 w1 x1 r2 w2 x2].
  destruct (weight_bits r0 w0 x0) as (H0 & Hr0 & Hw0 & Hx0).
  destruct (weight_bits r1 w1 x1) as (H1 & Hr1 & Hw1 & Hx1).
  destruct (weight_bits r2 w2 x2) as (H2 & Hr2 & Hw2 & Hx2).
  assert (Hoct : isOctal (perm_octal (updateOctalFromCheckboxes
                   (mkDialog s r0 w0 x0 r1 w1 x1 r2 w2 x2))) = true).
  { unfold updateOctalFromCheckboxes. cbn [perm_octal owner_read owner_write
      owner_execute group_read group_write group_execute other_read
      other_write other_execute isOctal].
    by rewrite H0, H1, H2. }
  split; [done |].
  unfold updateCheckboxesFromOctal. rewrite Hoct.
  unfold updateOctalFromCheckboxes. cbn [perm_octal owner_read owner_write
    owner_execute group_read group_write group_execute other_read
    other_write other_execute].
  by rewrite Hr0, Hw0, Hx0, Hr1, Hw1, Hx1, Hr2, Hw2, Hx2.
Qed.

End PermissionFacts.


(** ** The activity log *)

Module LogFacts.
Import ActivityLogger LogSpec.

Lemma sliceLast_suffix {A} (n : nat) (l : list A) :
  sliceLast n l `suffix_of` l.
Proof. destruct n; [done |]. apply suffix_drop. Qed.

Lemma sliceLast_length {A} (n : nat) (l : list A) :
  (1 ≤ n)%nat → length (sliceLast n l) = Nat.min n (length l).
Proof.
  intros Hn. destruct n; [lia |]. unfold sliceLast.
  rewrite length_drop. lia.
Qed.

Lemma suffix_last {A} (k l : list A) (x : A) :
  k `suffix_of` l → k ≠ [] → last l = Some x → last k = Some x.
Proof.
  intros [pre ->] Hk Hl.
  rewrite last_app in Hl. destruct (last k) as [y |] eqn:E; [done |].
  by apply last_None in E.
Qed.

Lemma sliceLast_nonempty {A} (n : nat) (l : list A) :
  (1 ≤ n)%nat → l ≠ [] → sliceLast n l ≠ [].
Proof.
  intros Hn Hl Hnil. apply (f_equal length) in Hnil.
  rewrite sliceLast_length in Hnil by done.
  destruct l; [done |]. cbn in Hnil. lia.
Qed.

(** X26: Whatever the storage does, [addLog] leaves a log that ends with the
    new entry, holds at most [maxLogs] entries, and is a suffix of the old
    log followed by the new entry: only the oldest entries are dropped.
    [maxLogs] is at least one ([slice(-0)] would keep everything). *)
Theorem addLog_keeps_newest (idOf : Q) (time type message : string)
    (details : list (string * string)) (fits1 fits2 : bool) (s : t) :
  (1 ≤ maxLogs s)%nat →
  last (logs (stateOf (addLog idOf time type message details fits1 fits2 s)))
  = Some (entryOf idOf time type message details)
  ∧ (length (logs (stateOf
               (addLog idOf time type message details fits1 fits2 s)))
     ≤ maxLogs s)%nat
  ∧ logs (stateOf (addLog idOf time type message details fits1 fits2 s))
    `suffix_of` (logs s ++ [entryOf idOf time type message details])
  ∧ maxLogs (stateOf (addLog idOf time type message details fits1 fits2 s))
    = maxLogs s.
Proof.
  intros Hmax. unfold addLog. cbv zeta. fold (entryOf idOf time type message details).
  set (e := entryOf idOf time type message details).
  set (pushed := logs s ++ [e]).
  set (kept := if (maxLogs s <? length pushed)%nat
               then sliceLast (maxLogs s) pushed else pushed).
  assert (Hpushed : pushed ≠ []) by (unfold pushed; by destruct (logs s)).
  assert (Hsuf : kept `suffix_of` pushed).
  { unfold kept. destruct (_ <? _)%nat; [apply sliceLast_suffix | done]. }
  assert (Hne : kept ≠ []).
  { unfold kept. destruct (_ <? _)%nat; [by apply sliceLast_nonempty | done]. }
  assert (Hlen : (length kept ≤ maxLogs s)%nat).
  { unfold kept. destruct (Nat.ltb_spec (maxLogs s) (length pushed)).
    - rewrite sliceLast_length by done. lia.
    - done. }
  assert (Hlast : last pushed = Some e) by apply last_snoc.
  assert (Hsuf100 : sliceLast 100 kept `suffix_of` pushed).
  { etrans; [apply sliceLast_suffix | done]. }
  assert (Hlen100 : (length (sliceLast 100 kept) ≤ maxLogs s)%nat).
  { pose proof (suffix_length _ _ (sliceLast_suffix 100 kept)). lia. }
  assert (Hne100 : sliceLast 100 kept ≠ []).
  { apply sliceLast_nonempty; [lia | done]. }
  unfold saveLogs. cbn [logs maxLogs activityLogs].
  destruct fits1; [| destruct (100 <? length kept)%nat; [destruct fits2 |]];
    cbn [stateOf logs maxLogs];
    (split_and!; [eapply suffix_last; eassumption | done ..]).
Qed.

Lemma addLog_keeps_newest_witness :
  last (logs (stateOf
          (addLog 3 "t3" "error" "timeout" [] false false fullLog)))
  = Some (entryOf 3 "t3" "error" "timeout" [])
  ∧ (length (logs (stateOf
               (addLog 3 "t3" "error" "timeout" [] false false fullLog)))
     ≤ maxLogs fullLog)%nat
  ∧ logs (stateOf (addLog 3 "t3" "error" "timeout" [] false false fullLog))
    `suffix_of` (logs fullLog ++ [entryOf 3 "t3" "error" "timeout" []])
  ∧ maxLogs (stateOf
               (addLog 3 "t3" "error" "timeout" [] false false fullLog))
    = maxLogs fullLog.
Proof.
  refine (addLog_keeps_newest 3 "t3" "error" "timeout" [] false false
            fullLog _).
  cbn. lia.
Defined.

End LogFacts.


(** ** The bookmarks *)

Module BookmarkFacts.
Import BookmarksManager BookmarkSpec.

Lemma NoDup_fmap_filter {A B} (f : A → B) (p : A → bool) (l : list A) :
  NoDup (f <$> l) → NoDup (f <$> List.filter p l).
Proof.
  induction l as [| x l IH]; [done |]. cbn. intros [Hx Hl]%NoDup_cons.
  destruct (p x); [| by apply IH]. cbn. apply NoDup_cons. split; [| by apply IH].
  intros (y & Hy & Hin)%list_elem_of_fmap. apply Hx.
  apply list_elem_of_fmap. exists y. split; [done |].
  apply list_elem_of_In. apply list_elem_of_In in Hin.
  by apply filter_In in Hin as [? _].
Qed.

Lemma renameFirst_fmap {B} (f : Bookmark → B) (i n : string)
    (l : list Bookmark) :
  (∀ b, f (set_name n b) = f b) →
  f <$> renameFirst i n l = f <$> l.
Proof.
  intros Hf. induction l as [| b l IH]; [done |]. cbn.
  destruct (String.eqb (id b) i); cbn; [by rewrite Hf | by rewrite IH].
Qed.

Lemma existsb_false_fmap {A B} `{EqDecision B} (f : A → B) (p : A → bool)
    (x : B) (l : list A) :
  (∀ a, f a = x → p a = true) →
  existsb p l = false → x ∉ f <$> l.
Proof.
  intros Hp Hex (a & -> & Hin)%list_elem_of_fmap.
  assert (existsb p l = true); [| congruence].
  apply existsb_exists. exists a. split; [by apply list_elem_of_In |].
  by apply Hp.
Qed.

Lemma NoDup_snoc_fresh {A} (l : list A) (x : A) :
  NoDup l → x ∉ l → NoDup (l ++ [x]).
Proof.
  intros Hl Hx. apply NoDup_app. split_and!; [done | | apply NoDup_singleton].
  intros y Hy ->%list_elem_of_singleton. done.
Qed.

Lemma Unique_call basename (s : t) (c : Call) :
  Unique s → Unique (call basename s c).
Proof.
  intros [Hl Hr]. destruct c as [u n b | u n b | i | i | i n r];
    unfold Unique; cbn [call].
  - unfold addLocalBookmark. cbv zeta. cbn [snd path].
    destruct (existsb _ _) eqn:E; [done |]. cbn [localBookmarks
      remoteBookmarks]. split; [| done].
    rewrite fmap_app. apply NoDup_snoc_fresh; [done |].
    eapply existsb_false_fmap; [| exact E].
    intros a Ha. cbn in Ha |- *. rewrite Ha. apply String.eqb_refl.
  - unfold addRemoteBookmark. cbv zeta. cbn [snd path host].
    destruct (existsb _ _) eqn:E; [done |]. cbn [localBookmarks
      remoteBookmarks]. split; [done |].
    rewrite fmap_app. apply NoDup_snoc_fresh; [done |].
    eapply existsb_false_fmap; [| exact E].
    intros a [= Hp Hh]. cbn in Hp, Hh |- *.
    rewrite Hp, String.eqb_refl. cbn. by apply bool_decide_eq_true.
  - cbn. split; [by apply NoDup_fmap_filter | done].
  - cbn. split; [done | by apply NoDup_fmap_filter].
  - unfold renameBookmark. cbv zeta.
    destruct (List.find _ _); [| done]. cbn [snd].
    destruct r; cbn [localBookmarks remoteBookmarks];
      by rewrite renameFirst_fmap.
Qed.

(** X27: In a store in which no two local bookmarks share a path and no two
    remote bookmarks share a path and a host, this stays so whatever calls
    are made to the manager: adding, deleting and renaming never create a
    second bookmark of a place. *)
Theorem bookmarks_unique basename (cs : list Call) (s : t) :
  Unique s → Unique (calls basename cs s).
Proof.
  unfold calls. revert s.
  induction cs as [| c cs IH]; [done |]. intros s Hs. cbn.
  by apply IH, Unique_call.
Qed.

Lemma bookmarks_unique_witness :
  Unique (calls lastSegment someCalls oneBookmark).
Proof.
  refine (bookmarks_unique lastSegment someCalls oneBookmark _).
  split; vm_compute; [apply NoDup_singleton | apply NoDup_nil_2].
Defined.

Lemma filter_other_ids (i : string) (l : list Bookmark) :
  i ∉ id <$> l →
  List.filter (λ b, negb (String.eqb (id b) i)) l = l.
Proof.
  induction l as [| b l IH]; [done |]. rewrite fmap_cons.
  intros [Hb Hl]%not_elem_of_cons. cbn [List.filter].
  destruct (String.eqb_spec (id b) i) as [Heq | _]; [done |]. cbn [negb].
  by rewrite IH.
Qed.

(** X28: Adding a bookmark under an id no bookmark has and deleting that id
    again gives the store back, whether or not the path was bookmarked
    already; this holds for local and for remote bookmarks. *)
Theorem add_then_delete basename (uuid now : string) (bookmark : Request)
    (s : t) :
  freshId uuid s →
  deleteLocalBookmark uuid
    (snd (addLocalBookmark basename uuid now bookmark s)) = s
  ∧ deleteRemoteBookmark uuid
      (snd (addRemoteBookmark basename uuid now bookmark s)) = s.
Proof.
  intros [Hl Hr]. destruct s as [ls rs]. cbn in Hl, Hr.
  unfold addLocalBookmark, addRemoteBookmark. cbv zeta. cbn [snd].
  split.
  - destruct (existsb _ _); unfold deleteLocalBookmark;
      cbn [localBookmarks remoteBookmarks]; f_equal.
    + by apply filter_other_ids.
    + rewrite List.filter_app, filter_other_ids by done. cbn.
      rewrite String.eqb_refl. cbn. apply app_nil_r.
  - destruct (existsb _ _); unfold deleteRemoteBookmark;
      cbn [localBookmarks remoteBookmarks]; f_equal.
    + by apply filter_other_ids.
    + rewrite List.filter_app, filter_other_ids by done. cbn.
      rewrite String.eqb_refl. cbn. apply app_nil_r.
Qed.

Lemma add_then_delete_witness :
  deleteLocalBookmark "id-2"
    (snd (addLocalBookmark lastSegment "id-2" "2024-01-02" home oneBookmark))
  = oneBookmark
  ∧ deleteRemoteBookmark "id-2"
      (snd (addRemoteBookmark lastSegment "id-2" "2024-01-02" home
              oneBookmark))
    = oneBookmark.
Proof.
  refine (add_then_delete lastSegment "id-2" "2024-01-02" home oneBookmark
            _).
  split; vm_compute; intros H; apply list_elem_of_In in H; cbn in H;
    intuition discriminate.
Defined.

End BookmarkFacts.
